(** * portal-pulse-visual: the particle phase engine of [src/main.js]

    A shallow embedding of [createPortalPulseFX]: the uniform block [u],
    the resize handler [setView], the clock hook [update], the particle
    pool built by the start-up loop, and the vertex shader [main] of the
    dots material.

    Numbers.  The shader computes on GLSL [float]s and the host on JS
    doubles; both are modelled by the real numbers of the Standard
    Library, so every statement below is a statement about the formulas
    the code evaluates, without rounding.  GLSL built-ins are spelled out
    from their reference definitions: [clamp x lo hi = min (max x lo) hi],
    [mix x y a = x*(1-a) + y*a], [mod x y = x - y * floor (x/y)],
    [fract x = x - floor x],
    [smoothstep e0 e1 x = let t = clamp ((x-e0)/(e1-e0)) 0 1 in t*t*(3-2t)]
    (the same formula for the descending edges [smoothstep(0.70, 0.08, .)]
    the shader passes), [length] and [normalize] through the Euclidean
    norm.  Division is the total division of the reals; [main_checked]
    below tracks zero divisors explicitly.  The three calls
    of [pow] have the literal exponents 3.0 and 6.0 and a non-negative
    base, where GLSL's [pow] is the integral power [x^3], [x^6]. *)

From Stdlib Require Import Reals Lra Lia R_Ifp List ZArith.
Import ListNotations.
Open Scope R_scope.

(* ================================================================= *)
(** ** GLSL scalar built-ins *)

Module GLSL.

Definition floor (x : R) : R := IZR (Int_part x).
Definition fract (x : R) : R := x - floor x.
Definition fmod (x y : R) : R := x - y * floor (x / y).
Definition clamp (x lo hi : R) : R := Rmin (Rmax x lo) hi.
Definition mix (x y a : R) : R := x * (1 - a) + y * a.
Definition smoothstep (edge0 edge1 x : R) : R :=
  let t := clamp ((x - edge0) / (edge1 - edge0)) 0 1 in
  t * t * (3 - 2 * t).

End GLSL.
Import GLSL.

(* ================================================================= *)
(** ** Two-component vectors *)

Record vec2 : Type := V2 { vx : R; vy : R }.

Definition vadd (a b : vec2) : vec2 := V2 (vx a + vx b) (vy a + vy b).
Definition vsub (a b : vec2) : vec2 := V2 (vx a - vx b) (vy a - vy b).
Definition vscale (a : vec2) (k : R) : vec2 := V2 (vx a * k) (vy a * k).
Definition vshift (a : vec2) (k : R) : vec2 := V2 (vx a + k) (vy a + k).
Definition vlength (a : vec2) : R := sqrt (vx a * vx a + vy a * vy a).
Definition normalize (a : vec2) : vec2 :=
  V2 (vx a / vlength a) (vy a / vlength a).
Definition vmix (a b : vec2) (k : R) : vec2 :=
  V2 (mix (vx a) (vx b) k) (mix (vy a) (vy b) k).

Declare Scope vec_scope.
Delimit Scope vec_scope with V.
Bind Scope vec_scope with vec2.
Infix "+" := vadd : vec_scope.
Infix "-" := vsub : vec_scope.
Infix "*" := vscale : vec_scope.

(* ================================================================= *)
(** ** The uniform block and the host-side handlers *)

(** The object [u] of [createPortalPulseFX]; each field is the [value] of
    the uniform of the same name. *)
Record Uniforms : Type := mkUniforms {
  uTime : R;
  uRes : vec2;
  uLeft : vec2;
  uRight : vec2;
  uPortalR : R;
  uBurstT : R;
  uDriftT : R;
  uSuckT : R;
  uHoldT : R;
  uRate : R;
  uBand : R;
  uBurstRadius : R;
  uSuckWide : R;
  uDotGain : R
}.

(** The initial value of [u] for the view extents handed to
    [createPortalPulseFX]. *)
Definition createPortalPulseFX (viewW viewH : R) : Uniforms :=
  {| uTime := 0;
     uRes := V2 viewW viewH;
     uLeft := V2 (- viewW * 0.38) 0;
     uRight := V2 (viewW * 0.38) 0;
     uPortalR := Rmin viewH viewW * 0.22;
     uBurstT := 0.75;
     uDriftT := 1.10;
     uSuckT := 4.20;
     uHoldT := 0.45;
     uRate := 1.00;
     uBand := 3.0;
     uBurstRadius := 3.8;
     uSuckWide := 2.2;
     uDotGain := 1.15 |}.

(** [setView(w, h)]: six assignments into [u]; every other field is left
    as it was. *)
Definition setView (u : Uniforms) (w h : R) : Uniforms :=
  {| uTime := uTime u;
     uRes := V2 w h;
     uLeft := V2 (- w * 0.38) 0;
     uRight := V2 (w * 0.38) 0;
     uPortalR := Rmin h w * 0.22;
     uBurstT := uBurstT u;
     uDriftT := uDriftT u;
     uSuckT := uSuckT u;
     uHoldT := uHoldT u;
     uRate := uRate u;
     uBand := Rmax 2.6 (Rmin 3.6 (h * 0.30));
     uBurstRadius := Rmin 4.4 (Rmax 3.2 (w * 0.18));
     uSuckWide := uSuckWide u;
     uDotGain := uDotGain u |}.

(** [update(t)]: one assignment, [u.uTime.value = t]. *)
Definition update (u : Uniforms) (t : R) : Uniforms :=
  {| uTime := t;
     uRes := uRes u;
     uLeft := uLeft u;
     uRight := uRight u;
     uPortalR := uPortalR u;
     uBurstT := uBurstT u;
     uDriftT := uDriftT u;
     uSuckT := uSuckT u;
     uHoldT := uHoldT u;
     uRate := uRate u;
     uBand := uBand u;
     uBurstRadius := uBurstRadius u;
     uSuckWide := uSuckWide u;
     uDotGain := uDotGain u |}.

(** The timing uniforms set to other values than the built-in ones.  The
    code has no such setter: the literals of [createPortalPulseFX] are
    the configuration, and this is how another one is written down. *)
Definition with_timing (u : Uniforms) (burstT driftT suckT holdT rate : R)
  : Uniforms :=
  {| uTime := uTime u;
     uRes := uRes u;
     uLeft := uLeft u;
     uRight := uRight u;
     uPortalR := uPortalR u;
     uBurstT := burstT;
     uDriftT := driftT;
     uSuckT := suckT;
     uHoldT := holdT;
     uRate := rate;
     uBand := uBand u;
     uBurstRadius := uBurstRadius u;
     uSuckWide := uSuckWide u;
     uDotGain := uDotGain u |}.

(** The calls the host makes on the object returned by
    [createPortalPulseFX], and the states of [u] they lead to. *)
Inductive Call : Type :=
| CallSetView (w h : R)
| CallUpdate (t : R).

Definition call (u : Uniforms) (c : Call) : Uniforms :=
  match c with
  | CallSetView w h => setView u w h
  | CallUpdate t => update u t
  end.

Inductive reachable : Uniforms -> Prop :=
| reach_create : forall viewW viewH,
    reachable (createPortalPulseFX viewW viewH)
| reach_call : forall u c, reachable u -> reachable (call u c).

(* ================================================================= *)
(** ** The particle pool *)

Record Attributes : Type := mkAttributes {
  aSeed : R;
  aEnergy : R;
  aSize : R;
  aHueMix : R
}.

Definition COUNT : nat := 260.

Definition hash11 (x : R) : R :=
  let s := sin (x * 127.1) * 43758.5453123 in
  s - floor s.

(** [Math.pow(x, y)] for the one call of the loop, whose base is a
    fractional part and whose exponent is 0.55: zero at zero, the real
    power elsewhere. *)
Definition Math_pow (x y : R) : R :=
  if Req_dec_T x 0 then 0 else Rpower x y.

(** The attributes the start-up loop stores for index [i]. *)
Definition particle (i : nat) : Attributes :=
  let r1 := hash11 (INR i * 12.9898) in
  let r2 := hash11 (INR i * 78.233) in
  let r3 := hash11 (INR i * 0.9182) in
  {| aSeed := r1;
     aEnergy := mix 0.85 1.15 r2;
     aSize := mix 7.0 18.0 (Math_pow r3 0.55);
     aHueMix := hash11 (INR i * 5.123) |}.

Definition particles : list Attributes := map particle (seq 0 COUNT).

(* ================================================================= *)
(** ** The vertex shader of the dots material *)

Definition clamp01 (x : R) : R := clamp x 0 1.
Definition smooth01 (t : R) : R := t * t * (3 - 2 * t).
Definition easeOutCubic (t : R) : R := 1 - (1 - t) ^ 3.
Definition easeInOutCubic (t : R) : R :=
  if Rlt_dec t 0.5 then 4 * t * t * t else 1 - (- 2 * t + 2) ^ 3 / 2.
Definition hash (n : R) : R := fract (sin n * 43758.5453123).

Definition wobble (p : vec2) (t : R) : vec2 :=
  let k := 2 in
  let n1 := sin (vy p * k + t * 1.2) + sin (vx p * k * 0.7 - t * 1.1) in
  let n2 := sin (vx p * k + t * 1.0) - sin (vy p * k * 0.9 + t * 1.3) in
  V2 n1 n2.

Definition bezier (a b c d : vec2) (t : R) : vec2 :=
  let s := 1 - t in
  (a * (s * s * s) + b * (3 * s * s * t) + c * (3 * s * t * t)
   + d * (t * t * t))%V.

(** The three locals the phase branches assign. *)
Record Locals : Type := mkLocals {
  p : vec2;
  alpha : R;
  sizeMul : R
}.

(** What [main] hands to the rasteriser: the world position [p] that
    the camera matrices are applied to, [vAlpha], [gl_PointSize] and
    [vHueMix]; [size_multiplier] records the local [sizeMul] that
    [gl_PointSize] was scaled by. *)
Record Vertex : Type := mkVertex {
  position : vec2;
  vAlpha : R;
  gl_PointSize : R;
  vHueMix : R;
  size_multiplier : R
}.

Inductive Phase : Type := BURST | DRIFT | SUCK | HOLD.

Section VertexShader.

Variable u : Uniforms.
Variable a : Attributes.

(** GLOBAL PHASE *)
Definition T : R := uTime u * uRate u.
Definition cycle : R := uBurstT u + uDriftT u + uSuckT u + uHoldT u.
Definition ph : R := fmod T cycle.

Definition burstEnd : R := uBurstT u.
Definition driftEnd : R := uBurstT u + uDriftT u.
Definition suckEnd : R := uBurstT u + uDriftT u + uSuckT u.

(** radial direction *)
Definition ang : R := hash (aSeed a * 91.7) * 6.2831853.
Definition dir : vec2 := V2 (cos ang) (sin ang).

(** super tight spawn *)
Definition rad0 : R := hash (aSeed a * 37.3) ^ 6 * (uPortalR u * 0.035).
Definition packed : vec2 := (uLeft u + dir * rad0)%V.

(** scatter to avoid perfect ring *)
Definition rx : R := hash (aSeed a * 201.3) * 2.0 - 1.0.
Definition ry : R := hash (aSeed a * 413.7) * 2.0 - 1.0.
Definition scatter : vec2 :=
  (V2 rx ry * (0.55 + 0.65 * hash (aSeed a * 88.2)))%V.

(** The [if / else if] chain on [ph]. *)
Definition branch : Phase :=
  if Rlt_dec ph burstEnd then BURST
  else if Rlt_dec ph driftEnd then DRIFT
  else if Rlt_dec ph suckEnd then SUCK
  else HOLD.

(** BURST branch; [q] is the quotient [ph / uBurstT]. *)
Definition burst (q : R) : Locals :=
  let t := clamp01 q in
  let e := easeOutCubic t in
  let r := uBurstRadius u * aEnergy a * e in
  let cloud := (scatter * (0.10 + 0.55 * e))%V in
  {| p := (packed + dir * r + cloud)%V; alpha := 1.0; sizeMul := 1.0 |}.

(** The cloud position the DRIFT branch wobbles around; the SUCK branch
    recomputes the same expression. *)
Definition drift_base : vec2 :=
  let r := uBurstRadius u * aEnergy a in
  (packed + dir * r + scatter * 0.65)%V.

(** DRIFT branch; [q] is the quotient [(ph - burstEnd) / uDriftT]. *)
Definition drift (q : R) : Locals :=
  let t := clamp01 q in
  let e := smooth01 t in
  let base := drift_base in
  let w := (wobble (base * 0.55) (uTime u + aSeed a * 10.0) * (0.28 * e))%V in
  let p := (base + w)%V in
  let yBand := uBand u in
  let p := V2 (vx p) (mix (vy p) (clamp (vy p) (- yBand) yBand) (0.22 * e)) in
  {| p := p; alpha := 1.0; sizeMul := 1.0 |}.

(** staggered commit times *)
Definition delay : R := 0.05 + 0.55 * hash (aSeed a * 999.1).

(** SUCK branch, in the order of its comments.  In [suck], [tS] is
    [clamp01 ((ph - driftEnd) / uSuckT)], [qB] the quotient
    [(ph - driftEnd) / max(1e-3, uRate)] and [qL] the quotient
    [(tS - delay) / max(1e-3, 1.0 - delay)]. *)

(** starting cloud position, matching the DRIFT endpoint: the wobble at
    full amplitude sampled at [tBoundary], the band clamp at full mix *)
Definition suck_start (tBoundary : R) : vec2 :=
  let base := drift_base in
  let w := (wobble (base * 0.55) (tBoundary + aSeed a * 10.0) * 0.28)%V in
  let start := (base + w)%V in
  let yBand := uBand u in
  V2 (vx start) (mix (vy start) (clamp (vy start) (- yBand) yBand) 0.22).

(** wide capture pull (even before commit) *)
Definition suck_capture (start : vec2) (tS : R) : vec2 :=
  let toR := (uRight u - start)%V in
  let prePull := smooth01 tS in
  (start + normalize toR * (vlength toR * 0.06) * uSuckWide u * prePull)%V.

(** curve into portal with per-dot bend variance, blended in once the
    dot starts committing *)
Definition suck_curve (capture : vec2) (local : R) : vec2 :=
  let e := easeInOutCubic local in
  let a_ := capture in
  let d := uRight u in
  let bend := hash (aSeed a * 321.7) * 2.0 - 1.0 in
  let b := ((a_ + d) * 0.5 + V2 0.0 (1.15 + 0.55 * bend))%V in
  let c := ((a_ + d) * 0.5 + V2 0.0 (- 1.05 - 0.45 * bend))%V in
  let curvePos := bezier a_ b c d e in
  vmix capture curvePos (smoothstep 0.0 0.08 local).

(** micro-spiral: ramps in after suction has begun and after the dot has
    started committing, fades out near the end of absorption *)
Definition spiralAmt (tS local : R) : R :=
  let spiralIn := smoothstep 0.06 0.22 tS in
  let commitIn := smoothstep 0.02 0.20 local in
  let spiralOut := 1.0 - smoothstep 0.60 1.0 local in
  0.22 * spiralIn * commitIn * spiralOut.

Definition suck_spiral (q : vec2) (amt : R) : vec2 :=
  let spin := hash (aSeed a * 777.7) * 2.0 - 1.0 in
  let radial := (uRight u - q)%V in
  let tangent := normalize (vshift (V2 (- vy radial) (vx radial)) 1e-4) in
  (q + tangent * amt * spin)%V.

(** fade earlier (per-dot), extra fade when close to portal *)
Definition suck_alpha (local : R) (q : vec2) : R :=
  let alpha := 1.0 - smoothstep 0.35 0.80 local in
  let distToPortal := vlength (q - uRight u)%V in
  let nearFade := smoothstep 0.70 0.08 distToPortal in
  alpha * (1.0 - 0.92 * nearFade).

(** shrink dots as they approach portal *)
Definition suck_shrink (q : vec2) : R :=
  let distToPortal := vlength (q - uRight u)%V in
  let shrink := smoothstep 0.18 0.85 distToPortal in
  mix 0.20 1.0 shrink.

Definition suck (tS qB qL : R) : Locals :=
  let tBoundary := uTime u - qB in
  let local := clamp01 qL in
  let start := suck_start tBoundary in
  let capture := suck_capture start tS in
  let q := suck_curve capture local in
  let q := suck_spiral q (spiralAmt tS local) in
  {| p := q; alpha := suck_alpha local q; sizeMul := suck_shrink q |}.

(** HOLD branch. *)
Definition hold : Locals :=
  {| p := uRight u; alpha := 0.0; sizeMul := 0.0 |}.

(** The locals after the phase chain. *)
Definition locals : Locals :=
  if Rlt_dec ph burstEnd then
    burst (ph / uBurstT u)
  else if Rlt_dec ph driftEnd then
    drift ((ph - burstEnd) / uDriftT u)
  else if Rlt_dec ph suckEnd then
    let tS := clamp01 ((ph - driftEnd) / uSuckT u) in
    suck tS ((ph - driftEnd) / Rmax 1e-3 (uRate u))
         ((tS - delay) / Rmax 1e-3 (1.0 - delay))
  else
    hold.

Definition finish (l : Locals) : Vertex :=
  let pulse := 0.92 + 0.18 * sin (uTime u * 1.25 + aSeed a * 12.0) in
  {| position := p l;
     vAlpha := alpha l;
     gl_PointSize := aSize a * uDotGain u * pulse * sizeMul l;
     vHueMix := aHueMix a;
     size_multiplier := sizeMul l |}.

Definition main : Vertex := finish locals.

(** *** The same shader with every scalar division checked

    [fdiv] refuses a zero divisor; [main_checked] runs [mod] and the five
    [/] of [main] through it and is [None] as soon as one of them divides
    by zero. *)
Definition fdiv (x y : R) : option R :=
  if Req_dec_T y 0 then None else Some (x / y).

Definition bind {A B : Type} (m : option A) (k : A -> option B) : option B :=
  match m with Some x => k x | None => None end.

Definition fmod_checked (x y : R) : option R :=
  bind (fdiv x y) (fun q => Some (x - y * floor q)).

Definition locals_checked : option Locals :=
  bind (fmod_checked T cycle) (fun ph =>
  if Rlt_dec ph burstEnd then
    bind (fdiv ph (uBurstT u)) (fun q => Some (burst q))
  else if Rlt_dec ph driftEnd then
    bind (fdiv (ph - burstEnd) (uDriftT u)) (fun q => Some (drift q))
  else if Rlt_dec ph suckEnd then
    bind (fdiv (ph - driftEnd) (uSuckT u)) (fun qS =>
    let tS := clamp01 qS in
    bind (fdiv (ph - driftEnd) (Rmax 1e-3 (uRate u))) (fun qB =>
    bind (fdiv (tS - delay) (Rmax 1e-3 (1.0 - delay))) (fun qL =>
    Some (suck tS qB qL))))
  else
    Some hold).

Definition main_checked : option Vertex :=
  bind locals_checked (fun l => Some (finish l)).

End VertexShader.



(** The per-particle output as a function of the clock alone. *)
Definition frame (u : Uniforms) (a : Attributes) (t : R) : Vertex :=
  main (update u t) a.

(* ================================================================= *)
(** ** Vocabulary of the properties *)

(** The four intervals as the timing design names them. *)
Definition phase_interval (u : Uniforms) (P : Phase) (x : R) : Prop :=
  match P with
  | BURST => 0 <= x < burstEnd u
  | DRIFT => burstEnd u <= x < driftEnd u
  | SUCK => driftEnd u <= x < suckEnd u
  | HOLD => suckEnd u <= x < cycle u
  end.

(** Durations are never negative and the cycle is not empty. *)
Definition timing_ok (u : Uniforms) : Prop :=
  0 <= uBurstT u /\ 0 <= uDriftT u /\ 0 <= uSuckT u /\ 0 <= uHoldT u /\
  0 < cycle u.

(** The page loaded in a view of aspect 0.35. *)
Definition narrow_view : Uniforms :=
  setView (createPortalPulseFX 3.5 10) 3.5 10.

(** Continuity of a vector-valued and of a locals-valued function of the
    clock, component by component. *)
Definition cont2 (F : R -> vec2) (x : R) : Prop :=
  continuity_pt (fun t => vx (F t)) x /\ continuity_pt (fun t => vy (F t)) x.

Definition cont_locals (F : R -> Locals) (x : R) : Prop :=
  cont2 (fun t => p (F t)) x /\
  continuity_pt (fun t => alpha (F t)) x /\
  continuity_pt (fun t => sizeMul (F t)) x.

(** Near a clock value [t0] of phase [beta] the phase is
    [beta + (t - t0) * uRate] (lemma [ph_near]); the three branches with
    their quotients taken at that phase. *)
Definition phase_near (u : Uniforms) (beta t0 t : R) : R :=
  beta + (t - t0) * uRate u.

Definition burst_near (u : Uniforms) (a : Attributes) (beta t0 t : R) : Locals :=
  burst (update u t) a (phase_near u beta t0 t / uBurstT u).

Definition drift_near (u : Uniforms) (a : Attributes) (beta t0 t : R) : Locals :=
  drift (update u t) a ((phase_near u beta t0 t - burstEnd u) / uDriftT u).

Definition suck_near (u : Uniforms) (a : Attributes) (beta t0 t : R) : Locals :=
  let tS := clamp01 ((phase_near u beta t0 t - driftEnd u) / uSuckT u) in
  suck (update u t) a tS
    ((phase_near u beta t0 t - driftEnd u) / Rmax 1e-3 (uRate u))
    ((tS - delay a) / Rmax 1e-3 (1.0 - delay a)).

(* ================================================================= *)
(** ** The rest of the shader programs and the host glue *)

(** Three- and four-component values: colours. *)
Record vec3 : Type := V3 { cr : R; cg : R; cb : R }.
Record vec4 : Type := V4 { rgb : vec3; ca : R }.

Definition v3add (a b : vec3) : vec3 :=
  V3 (cr a + cr b) (cg a + cg b) (cb a + cb b).
Definition v3shift (a : vec3) (k : R) : vec3 :=
  V3 (cr a + k) (cg a + k) (cb a + k).
Definition v3scale (a : vec3) (k : R) : vec3 :=
  V3 (cr a * k) (cg a * k) (cb a * k).
Definition v3mix (a b : vec3) (k : R) : vec3 :=
  V3 (mix (cr a) (cr b) k) (mix (cg a) (cg b) k) (mix (cb a) (cb b) k).
Definition v3clamp (a : vec3) (lo hi : R) : vec3 :=
  V3 (clamp (cr a) lo hi) (clamp (cg a) lo hi) (clamp (cb a) lo hi).
Definition vmul (a b : vec2) : vec2 := V2 (vx a * vx b) (vy a * vy b).
Definition vfloor (a : vec2) : vec2 := V2 (floor (vx a)) (floor (vy a)).
Definition vfract (a : vec2) : vec2 := V2 (fract (vx a)) (fract (vy a)).

(** The fragment shader of the background mesh. *)
Module Background.

Definition hash (q : vec2) : R :=
  fract (sin (vx q * 127.1 + vy q * 311.7) * 43758.5453123).

Definition noise (q : vec2) : R :=
  let i := vfloor q in
  let f := vfract q in
  let a := hash i in
  let b := hash (i + V2 1.0 0.0)%V in
  let c := hash (i + V2 0.0 1.0)%V in
  let d := hash (i + V2 1.0 1.0)%V in
  let w := V2 (vx f * vx f * (3.0 - 2.0 * vx f))
              (vy f * vy f * (3.0 - 2.0 * vy f)) in
  mix a b (vx w) + (c - a) * vy w * (1.0 - vx w) + (d - b) * vx w * vy w.

Definition glow (q c : vec2) (r : R) : R :=
  let d := vlength (q - c)%V in
  let core := exp (- d * d / (r * r * 0.35)) in
  let halo := exp (- d * d / (r * r * 1.25)) in
  0.75 * halo + 0.35 * core.

(** The colour before the final clamp. *)
Definition colour (u : Uniforms) (vUv : vec2) : vec3 :=
  let q := vmul (vshift vUv (- 0.5)) (uRes u) in
  let n := noise (q * 0.15 + V2 (uTime u * 0.05) (- uTime u * 0.03))%V in
  let vign := smoothstep 0.95 0.25 (vlength (vshift vUv (- 0.5))) in
  let base := v3shift (V3 0.01 0.03 0.05) (0.02 * n) in
  let base := v3scale base (0.55 + 0.45 * vign) in
  let leftCol := V3 0.05 0.95 0.85 in
  let rightCol := V3 0.20 0.55 1.00 in
  let pL := 0.85 + 0.15 * sin (uTime u * 1.15) in
  let pR := 0.85 + 0.15 * sin (uTime u * 1.05 + 1.2) in
  let col := base in
  let col :=
    v3add col (v3scale (v3scale leftCol (glow q (uLeft u) (uPortalR u))) pL) in
  let col :=
    v3add col (v3scale (v3scale rightCol (glow q (uRight u) (uPortalR u))) pR) in
  col.

Definition main (u : Uniforms) (vUv : vec2) : vec4 :=
  V4 (v3clamp (colour u vUv) 0.0 1.0) 1.0.

End Background.

(** The fragment shader of the dots material. *)
Module Dots.

Definition main (gl_PointCoord : vec2) (vAlpha vHueMix : R) : vec4 :=
  let uv := vshift gl_PointCoord (- 0.5) in
  let d := vlength uv in
  let core := smoothstep 0.22 0.0 d in
  let halo := smoothstep 0.55 0.14 d in
  let teal := V3 0.05 0.95 0.85 in
  let blue := V3 0.20 0.55 1.00 in
  let col := v3mix teal blue vHueMix in
  let a := (0.90 * core + 0.35 * halo) * vAlpha in
  let a := a * smoothstep 0.66 0.0 d in
  V4 col a.

(** A fragment of the sprite of a vertex. *)
Definition fragment (v : Vertex) (gl_PointCoord : vec2) : vec4 :=
  main gl_PointCoord (vAlpha v) (vHueMix v).

End Dots.

(** The page script around [createPortalPulseFX]: the orthographic
    camera, the renderer's pixel ratio and drawing size, and the resize
    handler. *)
Module Host.

Definition viewH : R := 10.

Record Camera : Type := mkCamera { left : R; right : R; top : R; bottom : R }.

(** What the handler reads from the canvas and the window. *)
Record Display : Type := mkDisplay {
  clientWidth : R;
  clientHeight : R;
  innerWidth : R;
  innerHeight : R;
  devicePixelRatio : R
}.

Record Page : Type := mkPage {
  viewW : R;
  camera : Camera;
  pixelRatio : R;
  drawingSize : vec2;
  fx : Uniforms
}.

(** [x || y] on numbers: [y] when [x] is zero. *)
Definition js_or (x y : R) : R := if Req_dec_T x 0 then y else x.

Definition resizeToDisplaySize (pg : Page) (d : Display) : Page :=
  let width := floor (js_or (clientWidth d) (innerWidth d)) in
  let height := floor (js_or (clientHeight d) (innerHeight d)) in
  let aspect := width / height in
  let viewW := viewH * aspect in
  {| viewW := viewW;
     camera := {| left := - viewW / 2; right := viewW / 2;
                  top := viewH / 2; bottom := - viewH / 2 |};
     pixelRatio := Rmin (js_or (devicePixelRatio d) 1) 2;
     drawingSize := V2 width height;
     fx := setView (fx pg) viewW viewH |}.

Definition onResize := resizeToDisplaySize.

(** The page when the script has run to the first frame: the camera as
    constructed, the effect created for the window's aspect, then one
    [onResize].  [pixelRatio0] and [size0] are the renderer's settings
    before that call overwrites them. *)
Definition load (pixelRatio0 : R) (size0 : vec2) (d : Display) : Page :=
  let viewW := viewH * (innerWidth d / innerHeight d) in
  onResize
    {| viewW := viewW;
       camera := {| left := -1; right := 1; top := 1; bottom := -1 |};
       pixelRatio := pixelRatio0;
       drawingSize := size0;
       fx := createPortalPulseFX viewW viewH |}
    d.

End Host.

(** A sequence of calls on the effect object. *)
Definition run (u : Uniforms) (calls : list Call) : Uniforms :=
  fold_left call calls u.

(** The arguments of the last [setView] and of the last [update] of a
    call sequence. *)
Fixpoint last_view (calls : list Call) : option (R * R) :=
  match calls with
  | [] => None
  | c :: calls' =>
      match last_view calls' with
      | Some wh => Some wh
      | None => match c with CallSetView w h => Some (w, h) | _ => None end
      end
  end.

Fixpoint last_time (calls : list Call) : option R :=
  match calls with
  | [] => None
  | c :: calls' =>
      match last_time calls' with
      | Some t => Some t
      | None => match c with CallUpdate t => Some t | _ => None end
      end
  end.

(** Locals of the SUCK branch as [main] computes them from [ph]. *)
Definition suck_tS (u : Uniforms) : R :=
  clamp01 ((ph u - driftEnd u) / uSuckT u).

Definition tBoundary (u : Uniforms) : R :=
  uTime u - (ph u - driftEnd u) / Rmax 1e-3 (uRate u).

Definition suck_local (a : Attributes) (tS : R) : R :=
  clamp01 ((tS - delay a) / Rmax 1e-3 (1.0 - delay a)).

(** The [pulse] factor of the point size. *)
Definition pulse (u : Uniforms) (a : Attributes) : R :=
  0.92 + 0.18 * sin (uTime u * 1.25 + aSeed a * 12.0).

(* ================================================================= *)
(** * Properties *)

(** ** Facts about the built-ins *)

Lemma floor_spec (x : R) : floor x <= x < floor x + 1.
Proof.
  unfold floor. destruct (base_Int_part x) as [H1 H2]. lra.
Qed.

Lemma floor_unique (x : R) (k : Z) : IZR k <= x < IZR k + 1 -> floor x = IZR k.
Proof.
  intros H. unfold floor. f_equal. symmetry. apply Int_part_spec. lra.
Qed.

Lemma floor_0 : floor 0 = 0.
Proof. apply (floor_unique 0 0). lra. Qed.

Lemma fract_range (x : R) : 0 <= fract x < 1.
Proof. unfold fract. pose proof (floor_spec x). lra. Qed.

Lemma fract_0 : fract 0 = 0.
Proof. unfold fract. rewrite floor_0. lra. Qed.

Lemma fmod_range (x y : R) : 0 < y -> 0 <= fmod x y < y.
Proof.
  intros Hy. unfold fmod.
  pose proof (floor_spec (x / y)) as [H1 H2].
  assert (Hx : x = y * (x / y)) by (field; lra).
  split.
  - assert (y * floor (x / y) <= y * (x / y)) by (apply Rmult_le_compat_l; lra).
    lra.
  - assert (y * (x / y) < y * (floor (x / y) + 1))
      by (apply Rmult_lt_compat_l; lra).
    lra.
Qed.

Lemma fmod_small (x y : R) : 0 <= x < y -> fmod x y = x.
Proof.
  intros [H0 H1]. unfold fmod.
  rewrite (floor_unique (x / y) 0).
  - lra.
  - assert (Hy : 0 < y) by lra.
    assert (0 <= x / y) by (apply Rmult_le_pos; [lra | left; apply Rinv_0_lt_compat; lra]).
    assert (x / y < 1) by (apply (Rmult_lt_reg_r y); [lra | ]; unfold Rdiv;
      rewrite Rmult_assoc, Rinv_l; lra).
    simpl. lra.
Qed.

Lemma fmod_0_l (y : R) : fmod 0 y = 0.
Proof.
  unfold fmod. replace (0 / y) with 0 by (unfold Rdiv; ring).
  rewrite floor_0. ring.
Qed.

Lemma clamp_range (x lo hi : R) : lo <= hi -> lo <= clamp x lo hi <= hi.
Proof.
  intros H. unfold clamp, Rmin, Rmax.
  destruct (Rle_dec x lo); destruct (Rle_dec _ hi); lra.
Qed.

Lemma clamp_id (x lo hi : R) : lo <= x <= hi -> clamp x lo hi = x.
Proof.
  intros H. unfold clamp, Rmin, Rmax.
  destruct (Rle_dec x lo); destruct (Rle_dec _ hi); lra.
Qed.

Lemma clamp_low (x lo hi : R) : x <= lo -> lo <= hi -> clamp x lo hi = lo.
Proof.
  intros H1 H2. unfold clamp, Rmin, Rmax.
  destruct (Rle_dec x lo); destruct (Rle_dec _ hi); lra.
Qed.

Lemma clamp_high (x lo hi : R) : hi <= x -> lo <= hi -> clamp x lo hi = hi.
Proof.
  intros H1 H2. unfold clamp, Rmin, Rmax.
  destruct (Rle_dec x lo); destruct (Rle_dec _ hi); lra.
Qed.

Lemma clamp01_range (x : R) : 0 <= clamp01 x <= 1.
Proof. apply clamp_range. lra. Qed.

Lemma smooth01_range (t : R) : 0 <= t <= 1 -> 0 <= smooth01 t <= 1.
Proof.
  intros [H0 H1]. unfold smooth01.
  assert (Ha : 0 <= t * t) by (apply Rmult_le_pos; lra).
  assert (Hb : 0 <= (1 - t) * (1 - t)) by (apply Rmult_le_pos; lra).
  assert (Hc : 0 <= (t * t) * (3 - 2 * t)) by (apply Rmult_le_pos; lra).
  assert (Hd : 0 <= ((1 - t) * (1 - t)) * (1 + 2 * t))
    by (apply Rmult_le_pos; lra).
  split; [lra | ].
  replace (t * t * (3 - 2 * t)) with (1 - (1 - t) * (1 - t) * (1 + 2 * t))
    by ring.
  lra.
Qed.

Lemma smoothstep_range (e0 e1 x : R) : 0 <= smoothstep e0 e1 x <= 1.
Proof.
  unfold smoothstep. cbv zeta.
  pose proof (clamp_range ((x - e0) / (e1 - e0)) 0 1 ltac:(lra)) as H.
  apply (smooth01_range _ H).
Qed.

Lemma hash_range (n : R) : 0 <= hash n < 1.
Proof. apply fract_range. Qed.

Lemma hash_0 : hash 0 = 0.
Proof.
  unfold hash. rewrite sin_0. replace (0 * 43758.5453123) with 0 by ring.
  apply fract_0.
Qed.

Lemma hash11_0 : hash11 0 = 0.
Proof.
  unfold hash11. cbv zeta. replace (0 * 127.1) with 0 by ring.
  rewrite sin_0. replace (0 * 43758.5453123) with 0 by ring.
  rewrite floor_0. ring.
Qed.

(** The first particle of the pool. *)
Lemma particle_0 :
  particle 0 = {| aSeed := 0; aEnergy := 0.85; aSize := 7; aHueMix := 0 |}.
Proof.
  unfold particle. cbv zeta. simpl INR.
  replace (0 * 12.9898) with 0 by ring.
  replace (0 * 78.233) with 0 by ring.
  replace (0 * 0.9182) with 0 by ring.
  replace (0 * 5.123) with 0 by ring.
  rewrite hash11_0. unfold Math_pow.
  destruct (Req_dec_T 0 0) as [_ | H]; [ | contradiction H; reflexivity].
  unfold mix. f_equal; lra.
Qed.

Lemma particle_0_in_pool : In (particle 0) particles.
Proof.
  unfold particles. apply in_map. apply in_seq. unfold COUNT. lia.
Qed.

(** ** The states the handlers reach *)

(** No handler writes a timing uniform: they keep the values
    [createPortalPulseFX] gave them. *)
Lemma reachable_timing (u : Uniforms) :
  reachable u ->
  uBurstT u = 0.75 /\ uDriftT u = 1.10 /\ uSuckT u = 4.20 /\
  uHoldT u = 0.45 /\ uRate u = 1.00.
Proof.
  induction 1 as [viewW viewH | u c Hu IH].
  - simpl. repeat split; reflexivity.
  - destruct c; simpl; exact IH.
Qed.

(* ================================================================= *)
(** ** The resize handler *)

(** C8.  The resize handler is idempotent: a second [setView(w, h)] with
    the same extents leaves the whole uniform block, hence the
    resolution, both anchors, the portal radius, the burst radius and the
    band width, as the first call left it. *)
Theorem setView_idempotent (u : Uniforms) (w h : R) :
  setView (setView u w h) w h = setView u w h.
Proof. reflexivity. Qed.

(** C9.  After [setView(w, h)] the anchors sit at [(-0.38 w, 0)] and
    [(0.38 w, 0)] and the portal radius is [min(w, h) * 0.22]; resizing
    from (800, 600) to (1600, 1200) puts the left anchor at
    [-0.38 * 1600] and the radius at [min(1600, 1200) * 0.22]. *)
Theorem setView_geometry (u : Uniforms) (w h : R) :
  (uLeft (setView u w h) = V2 (- 0.38 * w) 0 /\
   uRight (setView u w h) = V2 (0.38 * w) 0 /\
   uPortalR (setView u w h) = Rmin w h * 0.22) /\
  (let u' := setView (setView u 800 600) 1600 1200 in
   vx (uLeft u') = - 0.38 * 1600 /\
   uPortalR u' = Rmin 1600 1200 * 0.22 /\
   vx (uLeft u') = - 608 /\ uPortalR u' = 264).
Proof.
  split.
  - simpl. repeat split.
    + f_equal. lra.
    + f_equal. lra.
    + rewrite (Rmin_comm h w). reflexivity.
  - cbv zeta. simpl.
    assert (Hm : Rmin 1200 1600 = 1200) by (apply Rmin_left; lra).
    assert (Hm' : Rmin 1600 1200 = 1200) by (apply Rmin_right; lra).
    rewrite Hm, Hm'. repeat split; lra.
Qed.


(* ================================================================= *)
(** ** Determinism of the frame *)

Lemma update_update (u : Uniforms) (t t' : R) :
  update (update u t) t' = update u t'.
Proof. reflexivity. Qed.



(* ================================================================= *)
(** ** Phase selection *)

Lemma timing_ok_update (u : Uniforms) (t : R) :
  timing_ok u -> timing_ok (update u t).
Proof. exact (fun H => H). Qed.

Lemma reachable_timing_ok (u : Uniforms) : reachable u -> timing_ok u.
Proof.
  intros H. destruct (reachable_timing u H) as (HB & HD & HS & HH & _).
  unfold timing_ok, cycle. rewrite HB, HD, HS, HH. lra.
Qed.

Lemma ph_range (u : Uniforms) : 0 < cycle u -> 0 <= ph u < cycle u.
Proof. intros H. apply fmod_range. exact H. Qed.

Lemma branch_interval (u : Uniforms) :
  0 < cycle u -> phase_interval u (branch u) (ph u).
Proof.
  intros Hc. pose proof (ph_range u Hc) as Hph.
  unfold branch.
  destruct (Rlt_dec (ph u) (burstEnd u)); [simpl; lra | ].
  destruct (Rlt_dec (ph u) (driftEnd u)); [simpl; lra | ].
  destruct (Rlt_dec (ph u) (suckEnd u)); [simpl; lra | ].
  simpl. lra.
Qed.

Lemma phase_interval_unique (u : Uniforms) (P Q : Phase) (x : R) :
  timing_ok u -> phase_interval u P x -> phase_interval u Q x -> P = Q.
Proof.
  intros (HB & HD & HS & HH & Hc).
  destruct P, Q; simpl; unfold burstEnd, driftEnd, suckEnd, cycle in *;
    intros HP HQ; try reflexivity; exfalso; lra.
Qed.

Lemma phase_interval_cover (u : Uniforms) (x : R) :
  0 <= x < cycle u -> exists P, phase_interval u P x.
Proof.
  intros Hx.
  destruct (Rlt_dec x (burstEnd u)); [exists BURST; simpl; lra | ].
  destruct (Rlt_dec x (driftEnd u)); [exists DRIFT; simpl; lra | ].
  destruct (Rlt_dec x (suckEnd u)); [exists SUCK; simpl; lra | ].
  exists HOLD; simpl; lra.
Qed.

Lemma phase_interval_inside (u : Uniforms) (P : Phase) (x : R) :
  timing_ok u -> phase_interval u P x -> 0 <= x < cycle u.
Proof.
  intros (HB & HD & HS & HH & Hc).
  destruct P; simpl; unfold burstEnd, driftEnd, suckEnd, cycle in *;
    intros [Hlo Hhi]; lra.
Qed.

(** The locals are those of the branch the chain selects. *)
Lemma locals_by_branch (u : Uniforms) (a : Attributes) :
  locals u a =
  match branch u with
  | BURST => burst u a (ph u / uBurstT u)
  | DRIFT => drift u a ((ph u - burstEnd u) / uDriftT u)
  | SUCK =>
      let tS := clamp01 ((ph u - driftEnd u) / uSuckT u) in
      suck u a tS ((ph u - driftEnd u) / Rmax 1e-3 (uRate u))
        ((tS - delay a) / Rmax 1e-3 (1.0 - delay a))
  | HOLD => hold u
  end.
Proof.
  unfold locals, branch.
  destruct (Rlt_dec (ph u) (burstEnd u)); [reflexivity | ].
  destruct (Rlt_dec (ph u) (driftEnd u)); [reflexivity | ].
  destruct (Rlt_dec (ph u) (suckEnd u)); reflexivity.
Qed.

(** C3.  For every particle and every clock value,
    [ph = (uTime * uRate) mod cycle] lies in [[0, cycle)] and in exactly
    one of the four half-open intervals, the one whose branch the
    [if / else if] chain selects and computes the particle with; the four
    intervals cover [[0, cycle)] and no two of them overlap. *)
Theorem phase_partition (u : Uniforms) (a : Attributes) (globalTime : R) :
  timing_ok u ->
  let u' := update u globalTime in
  ph u' = fmod (globalTime * uRate u) (cycle u) /\
  0 <= ph u' < cycle u /\
  phase_interval u (branch u') (ph u') /\
  (forall P, phase_interval u P (ph u') -> P = branch u') /\
  locals u' a =
    match branch u' with
    | BURST => burst u' a (ph u' / uBurstT u)
    | DRIFT => drift u' a ((ph u' - burstEnd u) / uDriftT u)
    | SUCK =>
        let tS := clamp01 ((ph u' - driftEnd u) / uSuckT u) in
        suck u' a tS ((ph u' - driftEnd u) / Rmax 1e-3 (uRate u))
          ((tS - delay a) / Rmax 1e-3 (1.0 - delay a))
    | HOLD => hold u
    end /\
  (forall x, 0 <= x < cycle u <-> exists P, phase_interval u P x) /\
  (forall x P Q, phase_interval u P x -> phase_interval u Q x -> P = Q).
Proof.
  intros Hok u'.
  assert (Hc : 0 < cycle u') by apply Hok.
  split; [reflexivity | ].
  split; [exact (ph_range u' Hc) | ].
  split; [exact (branch_interval u' Hc) | ].
  split; [ | split; [exact (locals_by_branch u' a) | ]].
  2: split.
  - intros P HP.
    exact (phase_interval_unique u' P (branch u') (ph u') Hok HP
             (branch_interval u' Hc)).
  - intros x. split.
    + apply phase_interval_cover.
    + intros [P HP]. exact (phase_interval_inside u P x Hok HP).
  - intros x P Q. apply phase_interval_unique. exact Hok.
Qed.

Lemma phase_partition_witness :
  timing_ok (createPortalPulseFX 16 10) /\
  phase_interval (createPortalPulseFX 16 10)
    (branch (update (createPortalPulseFX 16 10) 2))
    (ph (update (createPortalPulseFX 16 10) 2)).
Proof.
  assert (H : timing_ok (createPortalPulseFX 16 10))
    by (unfold timing_ok, cycle; simpl; lra).
  split; [exact H | ].
  exact (proj1 (proj2 (proj2 (phase_partition (createPortalPulseFX 16 10)
                                (particle 0) 2 H)))).
Defined.

(* ================================================================= *)
(** ** Opacity and size bounds *)

Lemma suck_bounds (u : Uniforms) (a : Attributes) (tS qB qL : R) :
  0 <= alpha (suck u a tS qB qL) <= 1 /\
  0.20 <= sizeMul (suck u a tS qB qL) <= 1.
Proof.
  unfold suck, suck_alpha, suck_shrink. cbv zeta. cbn [alpha sizeMul].
  match goal with
  | |- context [smoothstep 0.70 0.08 ?d] =>
      pose proof (smoothstep_range 0.70 0.08 d) as Hn;
      pose proof (smoothstep_range 0.18 0.85 d) as Hs;
      set (nearFade := smoothstep 0.70 0.08 d) in *;
      set (shrink := smoothstep 0.18 0.85 d) in *
  end.
  match goal with
  | |- context [smoothstep 0.35 0.80 ?l] =>
      pose proof (smoothstep_range 0.35 0.80 l) as Hf;
      set (fade := smoothstep 0.35 0.80 l) in *
  end.
  unfold mix. split.
  - assert (0 <= (1.0 - fade) * (1.0 - 0.92 * nearFade))
      by (apply Rmult_le_pos; lra).
    assert ((1.0 - fade) * (1.0 - 0.92 * nearFade) <= 1 * 1)
      by (apply Rmult_le_compat; lra).
    lra.
  - lra.
Qed.

Lemma locals_bounds (u : Uniforms) (a : Attributes) :
  0 <= alpha (locals u a) <= 1 /\ 0 <= sizeMul (locals u a) <= 1.
Proof.
  unfold locals.
  destruct (Rlt_dec (ph u) (burstEnd u)); [simpl; lra | ].
  destruct (Rlt_dec (ph u) (driftEnd u)); [simpl; lra | ].
  destruct (Rlt_dec (ph u) (suckEnd u)); [ | simpl; lra].
  cbv zeta.
  match goal with
  | |- context [suck u a ?tS ?qB ?qL] =>
      pose proof (suck_bounds u a tS qB qL) as H
  end.
  lra.
Qed.

(** C4.  In every phase branch, for every particle and every clock
    value, the opacity handed to the fragment stage and the size
    multiplier lie in [[0, 1]]. *)
Theorem opacity_and_size_bounded (u : Uniforms) (a : Attributes) (globalTime : R) :
  0 <= vAlpha (frame u a globalTime) <= 1 /\
  0 <= size_multiplier (frame u a globalTime) <= 1.
Proof.
  unfold frame, main, finish. cbn [vAlpha size_multiplier].
  apply locals_bounds.
Qed.

(* ================================================================= *)
(** ** The HOLD scenario *)

Lemma locals_hold (u : Uniforms) (a : Attributes) :
  0 <= uDriftT u -> 0 <= uSuckT u -> suckEnd u <= ph u ->
  branch u = HOLD /\ locals u a = hold u.
Proof.
  intros HD HS Hph. unfold branch, locals.
  unfold burstEnd, driftEnd, suckEnd in *.
  destruct (Rlt_dec (ph u) (uBurstT u)); [lra | ].
  destruct (Rlt_dec (ph u) (uBurstT u + uDriftT u)); [lra | ].
  destruct (Rlt_dec (ph u) (uBurstT u + uDriftT u + uSuckT u)); [lra | ].
  split; reflexivity.
Qed.

(** With positive durations and rate 1 the time
    [uBurstT + uDriftT + uSuckT + uHoldT * 0.5] is inside HOLD. *)
Lemma hold_at_mid_hold (u : Uniforms) (a : Attributes) :
  0 < uBurstT u -> 0 < uDriftT u -> 0 < uSuckT u -> 0 < uHoldT u ->
  uRate u = 1 ->
  let t := uBurstT u + uDriftT u + uSuckT u + uHoldT u * 0.5 in
  branch (update u t) = HOLD /\ locals (update u t) a = hold u.
Proof.
  intros HB HD HS HH HR t.
  assert (Hph : ph (update u t) = t).
  { unfold ph, T, cycle. simpl. rewrite HR, Rmult_1_r.
    apply fmod_small. unfold t. lra. }
  apply (locals_hold (update u t) a); simpl; try lra.
  rewrite Hph. unfold suckEnd, t. simpl. lra.
Qed.

(** C7.  In every state the handlers reach, at
    [globalTime = uBurstT + uDriftT + uSuckT + uHoldT * 0.5] the HOLD
    branch runs for every particle: its position is exactly the right
    anchor, its opacity is 0 and its size multiplier is 0. *)
Theorem mid_hold_scenario (u : Uniforms) (a : Attributes) :
  reachable u ->
  let t := uBurstT u + uDriftT u + uSuckT u + uHoldT u * 0.5 in
  branch (update u t) = HOLD /\
  position (frame u a t) = uRight u /\
  vAlpha (frame u a t) = 0 /\
  size_multiplier (frame u a t) = 0.
Proof.
  intros Hr t.
  destruct (reachable_timing u Hr) as (HB & HD & HS & HH & HR).
  destruct (hold_at_mid_hold u a) as [Hb Hl]; try lra.
  fold t in Hb, Hl.
  split; [exact Hb | ].
  unfold frame, main, finish. cbn [position vAlpha size_multiplier].
  rewrite Hl. simpl. repeat split; lra.
Qed.

Lemma mid_hold_scenario_witness :
  reachable (createPortalPulseFX 16 10) /\
  position (frame (createPortalPulseFX 16 10) (particle 0)
              (0.75 + 1.10 + 4.20 + 0.45 * 0.5)) = V2 (16 * 0.38) 0.
Proof.
  split.
  - apply reach_create.
  - exact (proj1 (proj2 (mid_hold_scenario (createPortalPulseFX 16 10)
                           (particle 0) (reach_create 16 10)))).
Defined.

(** At another rate the same clock value need not be in HOLD: at half
    speed it falls in SUCK. *)
Lemma mid_hold_at_half_rate :
  branch (update (with_timing (createPortalPulseFX 16 10) 0.75 1.10 4.20 0.45 0.5)
            (0.75 + 1.10 + 4.20 + 0.45 * 0.5)) = SUCK.
Proof.
  set (u' := update _ _).
  assert (Hph : ph u' = 3.1375).
  { unfold ph, T, cycle, u'. simpl. rewrite fmod_small; lra. }
  unfold branch. rewrite Hph. unfold burstEnd, driftEnd, suckEnd, u'. simpl.
  destruct (Rlt_dec 3.1375 0.75); [lra | ].
  destruct (Rlt_dec 3.1375 (0.75 + 1.10)); [lra | ].
  destruct (Rlt_dec 3.1375 (0.75 + 1.10 + 4.20)); [reflexivity | lra].
Qed.

(* ================================================================= *)
(** ** The start of the cycle *)

Lemma easeOutCubic_0 : easeOutCubic 0 = 0.
Proof. unfold easeOutCubic. simpl. ring. Qed.

Lemma easeOutCubic_1 : easeOutCubic 1 = 1.
Proof. unfold easeOutCubic. simpl. ring. Qed.

Lemma clamp01_0 : clamp01 0 = 0.
Proof. apply clamp_id. lra. Qed.

Lemma clamp01_1 : clamp01 1 = 1.
Proof. apply clamp_id. lra. Qed.

Lemma vec2_eq (x y x' y' : R) : x = x' -> y = y' -> V2 x y = V2 x' y'.
Proof. intros -> ->. reflexivity. Qed.

(** Expose the components of vector expressions. *)
Ltac vsimpl :=
  unfold vadd, vsub, vscale, vshift, vmix in *; cbn [vx vy] in *.

Lemma unit_times_bound (c r m : R) :
  -1 <= c <= 1 -> 0 <= r <= m -> - m <= c * r <= m.
Proof.
  intros [Hc1 Hc2] [Hr1 Hr2].
  assert (0 <= (1 - c) * r) by (apply Rmult_le_pos; lra).
  assert (0 <= (1 + c) * r) by (apply Rmult_le_pos; lra).
  lra.
Qed.

Lemma rad0_range (u : Uniforms) (a : Attributes) :
  0 <= uPortalR u -> 0 <= rad0 u a <= 0.035 * uPortalR u.
Proof.
  intros HR. unfold rad0.
  pose proof (hash_range (aSeed a * 37.3)) as [H0 H1].
  assert (Hp0 : 0 <= hash (aSeed a * 37.3) ^ 6) by (apply pow_le; exact H0).
  assert (Hp1 : hash (aSeed a * 37.3) ^ 6 <= 1).
  { rewrite <- (pow1 6). apply pow_incr. lra. }
  set (h6 := hash (aSeed a * 37.3) ^ 6) in *.
  assert (0 <= h6 * (uPortalR u * 0.035)) by (apply Rmult_le_pos; lra).
  assert (0 <= (1 - h6) * (uPortalR u * 0.035)) by (apply Rmult_le_pos; lra).
  lra.
Qed.

Lemma scatter_range (a : Attributes) :
  -1.2 <= vx (scatter a) <= 1.2 /\ -1.2 <= vy (scatter a) <= 1.2.
Proof.
  unfold scatter, rx, ry. vsimpl.
  pose proof (hash_range (aSeed a * 201.3)) as [Hx0 Hx1].
  pose proof (hash_range (aSeed a * 413.7)) as [Hy0 Hy1].
  pose proof (hash_range (aSeed a * 88.2)) as [Hk0 Hk1].
  set (k := 0.55 + 0.65 * hash (aSeed a * 88.2)).
  assert (Hk : 0 <= k <= 1.2) by (unfold k; lra).
  split.
  - pose proof (unit_times_bound (hash (aSeed a * 201.3) * 2.0 - 1.0) k 1.2
                  ltac:(lra) Hk) as H. lra.
  - pose proof (unit_times_bound (hash (aSeed a * 413.7) * 2.0 - 1.0) k 1.2
                  ltac:(lra) Hk) as H. lra.
Qed.

Lemma locals_at_0 (u : Uniforms) (a : Attributes) :
  0 < uBurstT u ->
  branch (update u 0) = BURST /\ locals (update u 0) a = burst u a 0.
Proof.
  intros HB.
  assert (Hph : ph (update u 0) = 0).
  { unfold ph, T. simpl. rewrite Rmult_0_l. apply fmod_0_l. }
  unfold branch, locals. rewrite Hph. unfold burstEnd. simpl.
  destruct (Rlt_dec 0 (uBurstT u)) as [_ | Hn]; [ | contradiction].
  split; [reflexivity | ].
  replace (0 / uBurstT u) with 0 by (unfold Rdiv; ring).
  reflexivity.
Qed.

Lemma burst_0_position (u : Uniforms) (a : Attributes) :
  p (burst u a 0) = (uLeft u + dir a * rad0 u a + scatter a * 0.10)%V.
Proof.
  unfold burst. cbv zeta. rewrite clamp01_0, easeOutCubic_0.
  unfold packed. vsimpl. apply vec2_eq; lra.
Qed.

Lemma position_at_0 (u : Uniforms) (a : Attributes) :
  0 < uBurstT u ->
  position (frame u a 0) = (uLeft u + dir a * rad0 u a + scatter a * 0.10)%V.
Proof.
  intros HB. destruct (locals_at_0 u a HB) as [_ Hl].
  unfold frame, main, finish. cbn [position]. rewrite Hl.
  apply burst_0_position.
Qed.

(** C6, as the code has it.  At [globalTime = 0] every particle is in the
    BURST branch with opacity 1, and sits at the left anchor displaced by
    its spawn offset [dir * rad0] (at most 0.035 portal radii long) and
    by a tenth of its scatter offset, which does not scale with the
    portal radius: each coordinate is within
    [0.035 * uPortalR + 0.12] of the anchor's. *)
Theorem spawn_at_time_zero (u : Uniforms) (a : Attributes) :
  0 < uBurstT u -> 0 <= uPortalR u ->
  let v := frame u a 0 in
  branch (update u 0) = BURST /\
  vAlpha v = 1 /\
  position v = (uLeft u + dir a * rad0 u a + scatter a * 0.10)%V /\
  0 <= rad0 u a <= 0.035 * uPortalR u /\
  Rabs (vx (position v) - vx (uLeft u)) <= 0.035 * uPortalR u + 0.12 /\
  Rabs (vy (position v) - vy (uLeft u)) <= 0.035 * uPortalR u + 0.12.
Proof.
  intros HB HR v.
  destruct (locals_at_0 u a HB) as [Hb Hl].
  assert (Hp : position v = (uLeft u + dir a * rad0 u a + scatter a * 0.10)%V)
    by exact (position_at_0 u a HB).
  split; [exact Hb | ].
  split.
  { unfold v, frame, main, finish. cbn [vAlpha]. rewrite Hl. simpl. lra. }
  split; [exact Hp | ].
  pose proof (rad0_range u a HR) as Hr0.
  split; [exact Hr0 | ].
  rewrite Hp. unfold dir. vsimpl.
  destruct (scatter_range a) as [Hsx Hsy].
  pose proof (unit_times_bound (cos (ang a)) (rad0 u a) _
                (COS_bound (ang a)) Hr0) as Hc.
  pose proof (unit_times_bound (sin (ang a)) (rad0 u a) _
                (SIN_bound (ang a)) Hr0) as Hs.
  split; apply Rabs_le; lra.
Qed.

Lemma spawn_at_time_zero_witness :
  0 < uBurstT (createPortalPulseFX 16 10) /\
  0 <= uPortalR (createPortalPulseFX 16 10) /\
  vAlpha (frame (createPortalPulseFX 16 10) (particle 0) 0) = 1.
Proof.
  assert (HB : 0 < uBurstT (createPortalPulseFX 16 10)) by (simpl; lra).
  assert (HR : 0 <= uPortalR (createPortalPulseFX 16 10)).
  { simpl. unfold Rmin. destruct (Rle_dec 10 16); lra. }
  split; [exact HB | split; [exact HR | ]].
  exact (proj1 (proj2 (spawn_at_time_zero (createPortalPulseFX 16 10)
                         (particle 0) HB HR))).
Defined.

(** *** The particle of seed 0 *)

Section SeedZero.

Variable a : Attributes.
Hypothesis seed0 : aSeed a = 0.

Lemma seed0_hash (k : R) : hash (aSeed a * k) = 0.
Proof. rewrite seed0, Rmult_0_l. apply hash_0. Qed.

Lemma seed0_dir : dir a = V2 1 0.
Proof.
  unfold dir, ang. rewrite seed0_hash, Rmult_0_l, cos_0, sin_0. reflexivity.
Qed.

Lemma seed0_rad0 (u : Uniforms) : rad0 u a = 0.
Proof. unfold rad0. rewrite seed0_hash. simpl. ring. Qed.

Lemma seed0_scatter : scatter a = V2 (- 0.55) (- 0.55).
Proof.
  unfold scatter, rx, ry. rewrite !seed0_hash. vsimpl. apply vec2_eq; lra.
Qed.

Lemma seed0_delay : delay a = 0.05.
Proof. unfold delay. rewrite seed0_hash. lra. Qed.

End SeedZero.

Lemma particle_0_seed : aSeed (particle 0) = 0.
Proof. rewrite particle_0. reflexivity. Qed.

(** C6, the claim as stated fails.  In the initial state of a 16 x 10
    view the first particle of the pool has spawn offset 0, yet at
    [globalTime = 0] it sits at [(-0.055, -0.055)] from the left anchor,
    farther than the largest spawn offset [0.035 * uPortalR] any particle
    can have. *)
Lemma spawn_outside_spawn_radius :
  let u := createPortalPulseFX 16 10 in
  let v := frame u (particle 0) 0 in
  rad0 u (particle 0) = 0 /\
  (position v - uLeft u)%V = V2 (- 0.055) (- 0.055) /\
  0.035 * uPortalR u < vlength (position v - uLeft u)%V.
Proof.
  cbv zeta.
  set (u := createPortalPulseFX 16 10).
  assert (HB : 0 < uBurstT u) by (simpl; lra).
  assert (HR : uPortalR u = 2.2).
  { simpl. unfold Rmin. destruct (Rle_dec 10 16); lra. }
  pose proof (position_at_0 u (particle 0) HB) as Hp.
  assert (Hd : (position (frame u (particle 0) 0) - uLeft u)%V
               = V2 (- 0.055) (- 0.055)).
  { rewrite Hp, (seed0_dir _ particle_0_seed), (seed0_rad0 _ particle_0_seed),
      (seed0_scatter _ particle_0_seed).
    vsimpl. apply vec2_eq; simpl; lra. }
  split; [apply (seed0_rad0 _ particle_0_seed) | ].
  split; [exact Hd | ].
  rewrite Hd, HR. unfold vlength. simpl.
  replace (0.035 * 2.2) with (sqrt (0.077 * 0.077))
    by (rewrite sqrt_square; lra).
  apply sqrt_lt_1; lra.
Qed.

(* ================================================================= *)
(** ** Divisions by durations *)

Lemma fdiv_nonzero (x y : R) : y <> 0 -> fdiv x y = Some (x / y).
Proof.
  intros H. unfold fdiv. destruct (Req_dec_T y 0); [contradiction | reflexivity].
Qed.

Lemma fmod_checked_nonzero (x y : R) :
  y <> 0 -> fmod_checked x y = Some (fmod x y).
Proof.
  intros H. unfold fmod_checked. rewrite (fdiv_nonzero x y H). reflexivity.
Qed.

Lemma delay_range (a : Attributes) : 0.05 <= delay a < 0.60.
Proof.
  unfold delay. pose proof (hash_range (aSeed a * 999.1)). lra.
Qed.

Lemma Rmax_floor (eps x : R) : eps <= Rmax eps x.
Proof. apply Rmax_l. Qed.

(** The branch conditions bound the duration each branch divides by. *)
Lemma drift_divisor_positive (u : Uniforms) :
  branch u = DRIFT -> 0 < uDriftT u.
Proof.
  unfold branch, burstEnd, driftEnd.
  destruct (Rlt_dec (ph u) (uBurstT u)); [discriminate | ].
  destruct (Rlt_dec (ph u) (uBurstT u + uDriftT u)); [intros _; lra | ].
  destruct (Rlt_dec (ph u) (suckEnd u)); discriminate.
Qed.

Lemma suck_divisor_positive (u : Uniforms) :
  branch u = SUCK -> 0 < uSuckT u.
Proof.
  unfold branch, burstEnd, driftEnd, suckEnd.
  destruct (Rlt_dec (ph u) (uBurstT u)); [discriminate | ].
  destruct (Rlt_dec (ph u) (uBurstT u + uDriftT u)); [discriminate | ].
  destruct (Rlt_dec (ph u) (uBurstT u + uDriftT u + uSuckT u));
    [intros _; lra | discriminate].
Qed.

Lemma burst_divisor_positive (u : Uniforms) :
  0 < cycle u -> branch u = BURST -> 0 < uBurstT u.
Proof.
  intros Hc. pose proof (ph_range u Hc) as Hph.
  unfold branch, burstEnd.
  destruct (Rlt_dec (ph u) (uBurstT u)); [intros _; lra | ].
  destruct (Rlt_dec (ph u) (driftEnd u)); [discriminate | ].
  destruct (Rlt_dec (ph u) (suckEnd u)); discriminate.
Qed.

Lemma locals_checked_total (u : Uniforms) (a : Attributes) :
  0 < cycle u -> locals_checked u a = Some (locals u a).
Proof.
  intros Hc. pose proof (ph_range u Hc) as Hph.
  unfold locals_checked, locals.
  rewrite (fmod_checked_nonzero (T u) (cycle u)) by lra.
  fold (ph u). cbn [bind].
  unfold burstEnd, driftEnd, suckEnd.
  destruct (Rlt_dec (ph u) (uBurstT u)).
  { rewrite fdiv_nonzero by lra. reflexivity. }
  destruct (Rlt_dec (ph u) (uBurstT u + uDriftT u)).
  { rewrite fdiv_nonzero by lra. reflexivity. }
  destruct (Rlt_dec (ph u) (uBurstT u + uDriftT u + uSuckT u)); [ | reflexivity].
  rewrite (fdiv_nonzero _ (uSuckT u)) by lra. cbn [bind]. cbv zeta.
  pose proof (Rmax_floor 1e-3 (uRate u)).
  pose proof (Rmax_floor 1e-3 (1.0 - delay a)).
  rewrite (fdiv_nonzero _ (Rmax 1e-3 (uRate u))) by lra. cbn [bind].
  rewrite (fdiv_nonzero _ (Rmax 1e-3 (1.0 - delay a))) by lra.
  reflexivity.
Qed.

(** C2, as the code has it.  Only the two derived divisors are clamped:
    [max(1e-3, uRate)] and [max(1e-3, 1.0 - delay)] are at least [1e-3]
    in every configuration.  The divisions by [uBurstT], [uDriftT] and
    [uSuckT] have no clamp; the branch conditions guard them: DRIFT and
    SUCK run only when their duration is positive, and so does BURST once
    the cycle is not empty.  Hence in every configuration with a positive
    cycle length, one with a zero duration included, no division of
    [main] has a zero divisor, and the checked shader returns what [main]
    computes. *)
Theorem divisions_guarded (u : Uniforms) (a : Attributes) :
  0 < cycle u ->
  main_checked u a = Some (main u a) /\
  (branch u = BURST -> 0 < uBurstT u) /\
  (branch u = DRIFT -> 0 < uDriftT u) /\
  (branch u = SUCK -> 0 < uSuckT u) /\
  1e-3 <= Rmax 1e-3 (uRate u) /\
  1e-3 <= Rmax 1e-3 (1.0 - delay a).
Proof.
  intros Hc. split.
  - unfold main_checked, main. rewrite (locals_checked_total u a Hc).
    reflexivity.
  - split; [exact (burst_divisor_positive u Hc) | ].
    split; [exact (drift_divisor_positive u) | ].
    split; [exact (suck_divisor_positive u) | ].
    split; apply Rmax_floor.
Qed.

(** With all four durations zero the cycle is empty and [mod] itself
    divides by zero. *)
Lemma empty_cycle_divides_by_zero (u : Uniforms) (a : Attributes) :
  cycle u = 0 -> main_checked u a = None.
Proof.
  intros Hc. unfold main_checked, locals_checked, fmod_checked, fdiv.
  rewrite Hc. destruct (Req_dec_T 0 0) as [_ | H]; [reflexivity | ].
  contradiction H. reflexivity.
Qed.

(** A configuration with a zero burst duration. *)
Lemma divisions_guarded_witness :
  0 < cycle (with_timing (createPortalPulseFX 16 10) 0 1.10 4.20 0.45 1) /\
  main_checked (with_timing (createPortalPulseFX 16 10) 0 1.10 4.20 0.45 1)
    (particle 0)
  = Some (main (with_timing (createPortalPulseFX 16 10) 0 1.10 4.20 0.45 1)
            (particle 0)).
Proof.
  assert (Hc : 0 < cycle (with_timing (createPortalPulseFX 16 10)
                            0 1.10 4.20 0.45 1))
    by (unfold cycle; simpl; lra).
  split; [exact Hc | ].
  exact (proj1 (divisions_guarded _ (particle 0) Hc)).
Defined.

(** C2, the claim as stated fails.  No minimum epsilon is applied to the
    burst duration: whatever [eps > 0], the BURST branch of the code does
    not compute what it would with the divisor [max(eps, uBurstT)].  The
    configuration with [uBurstT = eps/2] at clock [eps/4] tells them
    apart on the first particle of the pool. *)
Lemma burst_divisor_not_clamped :
  ~ exists eps, 0 < eps /\
      forall u a, ph u < burstEnd u ->
        locals u a = burst u a (ph u / Rmax eps (uBurstT u)).
Proof.
  intros (eps & Heps & H).
  set (u := update (with_timing (createPortalPulseFX 16 10)
                      (eps / 2) 1.10 4.20 0.45 1) (eps / 4)).
  assert (Hph : ph u = eps / 4).
  { unfold ph, T, cycle, u. simpl. rewrite Rmult_1_r.
    apply fmod_small. lra. }
  assert (Hlt : ph u < burstEnd u)
    by (rewrite Hph; unfold burstEnd, u; simpl; lra).
  specialize (H u (particle 0) Hlt).
  unfold locals in H.
  destruct (Rlt_dec (ph u) (burstEnd u)) as [_ | Hn]; [ | contradiction].
  rewrite Hph in H.
  replace (uBurstT u) with (eps / 2) in H by reflexivity.
  replace (Rmax eps (eps / 2)) with eps in H
    by (symmetry; apply Rmax_left; lra).
  replace (eps / 4 / (eps / 2)) with (1 / 2) in H by (field; lra).
  replace (eps / 4 / eps) with (1 / 4) in H by (field; lra).
  apply (f_equal (fun l => vx (p l))) in H.
  unfold burst in H. cbv zeta in H. cbn [p] in H.
  unfold packed in H.
  rewrite (seed0_dir _ particle_0_seed), (seed0_rad0 _ particle_0_seed),
    (seed0_scatter _ particle_0_seed) in H.
  unfold clamp01 in H.
  rewrite (clamp_id (1 / 2)), (clamp_id (1 / 4)) in H by lra.
  unfold easeOutCubic in H. rewrite particle_0 in H.
  vsimpl. simpl in H. lra.
Qed.

(* ================================================================= *)
(** ** Continuity toolkit *)

Lemma continuity_pt_iff (f : R -> R) (x : R) :
  continuity_pt f x <->
  forall eps, 0 < eps -> exists d, 0 < d /\
    forall t, Rabs (t - x) < d -> Rabs (f t - f x) < eps.
Proof.
  split.
  - intros H eps Heps. destruct (H eps Heps) as (d & Hd & Hc).
    exists d. split; [exact Hd | ].
    intros t Ht. destruct (Req_dec_T x t) as [<- | Hne].
    + replace (f x - f x) with 0 by ring. rewrite Rabs_R0. exact Heps.
    + apply Hc. split; [split; [exact I | exact Hne] | exact Ht].
  - intros H eps Heps. destruct (H eps Heps) as (d & Hd & Hc).
    exists d. split; [exact Hd | ].
    intros t [_ Ht]. apply Hc. exact Ht.
Qed.

Lemma cont_ext (f g : R -> R) (x : R) :
  (forall t, f t = g t) -> continuity_pt f x -> continuity_pt g x.
Proof.
  intros H. apply (continuity_pt_locally_ext f g 1 x); [lra | ].
  intros t _. apply H.
Qed.

(** A function that near [x] follows one of two continuous functions
    agreeing at [x] is continuous at [x]. *)
Lemma cont_glue (f g h : R -> R) (x d : R) :
  0 < d ->
  (forall t, Rabs (t - x) < d -> f t = g t \/ f t = h t) ->
  g x = h x ->
  continuity_pt g x -> continuity_pt h x -> continuity_pt f x.
Proof.
  intros Hd Hsel Hgh Hg Hh.
  assert (Hfx : f x = g x).
  { destruct (Hsel x) as [E | E].
    - replace (x - x) with 0 by ring. rewrite Rabs_R0. exact Hd.
    - exact E.
    - rewrite E. symmetry. exact Hgh. }
  apply continuity_pt_iff. intros eps Heps.
  destruct (proj1 (continuity_pt_iff g x) Hg eps Heps) as (dg & Hdg & Hcg).
  destruct (proj1 (continuity_pt_iff h x) Hh eps Heps) as (dh & Hdh & Hch).
  exists (Rmin d (Rmin dg dh)). split.
  - repeat apply Rmin_glb_lt; assumption.
  - intros t Ht.
    assert (Ht1 : Rabs (t - x) < d)
      by (eapply Rlt_le_trans; [exact Ht | apply Rmin_l]).
    assert (Ht2 : Rabs (t - x) < dg).
    { eapply Rlt_le_trans; [exact Ht | ].
      eapply Rle_trans; [apply Rmin_r | apply Rmin_l]. }
    assert (Ht3 : Rabs (t - x) < dh).
    { eapply Rlt_le_trans; [exact Ht | ].
      eapply Rle_trans; [apply Rmin_r | apply Rmin_r]. }
    destruct (Hsel t Ht1) as [E | E]; rewrite E, Hfx.
    + apply Hcg. exact Ht2.
    + rewrite Hgh. apply Hch. exact Ht3.
Qed.

(** A bounded factor times a continuous factor that vanishes at [x]. *)
Lemma cont_bounded_null (b g : R -> R) (m x : R) :
  (forall t, Rabs (b t) <= m) ->
  continuity_pt g x -> g x = 0 ->
  continuity_pt (fun t => b t * g t) x.
Proof.
  intros Hb Hg Hg0.
  assert (Hm : 0 <= m) by (eapply Rle_trans; [apply Rabs_pos | apply (Hb x)]).
  apply continuity_pt_iff. intros eps Heps.
  destruct (proj1 (continuity_pt_iff g x) Hg (eps / (m + 1))) as (d & Hd & Hc).
  { apply Rdiv_lt_0_compat; lra. }
  exists d. split; [exact Hd | ].
  intros t Ht. specialize (Hc t Ht).
  rewrite Hg0 in *. rewrite Rmult_0_r, Rminus_0_r in *.
  rewrite Rabs_mult.
  assert (H1 : Rabs (b t) * Rabs (g t) <= m * Rabs (g t))
    by (apply Rmult_le_compat_r; [apply Rabs_pos | apply Hb]).
  assert (H2 : (m + 1) * Rabs (g t) < (m + 1) * (eps / (m + 1)))
    by (apply Rmult_lt_compat_l; lra).
  replace ((m + 1) * (eps / (m + 1))) with eps in H2 by (field; lra).
  pose proof (Rabs_pos (g t)). lra.
Qed.

Section Combinators.

Variables (f g h : R -> R) (x : R).
Hypothesis Hf : continuity_pt f x.
Hypothesis Hg : continuity_pt g x.
Hypothesis Hh : continuity_pt h x.

Lemma cont_const (c : R) : continuity_pt (fun _ => c) x.
Proof. apply continuity_pt_const. intros s t. reflexivity. Qed.

Lemma cont_id : continuity_pt (fun t => t) x.
Proof. apply derivable_continuous_pt. apply derivable_pt_id. Qed.

Lemma cont_plus : continuity_pt (fun t => f t + g t) x.
Proof. exact (continuity_pt_plus f g x Hf Hg). Qed.

Lemma cont_minus : continuity_pt (fun t => f t - g t) x.
Proof. exact (continuity_pt_minus f g x Hf Hg). Qed.

Lemma cont_opp : continuity_pt (fun t => - f t) x.
Proof. exact (continuity_pt_opp f x Hf). Qed.

Lemma cont_mult : continuity_pt (fun t => f t * g t) x.
Proof. exact (continuity_pt_mult f g x Hf Hg). Qed.

Lemma cont_div_const (c : R) : continuity_pt (fun t => f t / c) x.
Proof.
  unfold Rdiv.
  exact (continuity_pt_mult f (fun _ => / c) x Hf (cont_const (/ c))).
Qed.

Lemma cont_pow (n : nat) : continuity_pt (fun t => f t ^ n) x.
Proof.
  induction n as [ | n IH]; simpl.
  - apply cont_const.
  - exact (continuity_pt_mult f (fun t => f t ^ n) x Hf IH).
Qed.

Lemma cont_after (k : R -> R) :
  continuity k -> continuity_pt (fun t => k (f t)) x.
Proof.
  intros Hk. exact (continuity_pt_comp f k x Hf (Hk (f x))).
Qed.

Lemma cont_sin : continuity_pt (fun t => sin (f t)) x.
Proof. apply cont_after. exact continuity_sin. Qed.

Lemma cont_Rabs : continuity_pt (fun t => Rabs (f t)) x.
Proof. apply cont_after. exact Rcontinuity_abs. Qed.

End Combinators.

Lemma Rmax_by_abs (a b : R) : Rmax a b = (a + b + Rabs (a - b)) / 2.
Proof.
  unfold Rmax, Rabs. destruct (Rle_dec a b); destruct (Rcase_abs (a - b)); lra.
Qed.

Lemma Rmin_by_abs (a b : R) : Rmin a b = (a + b - Rabs (a - b)) / 2.
Proof.
  unfold Rmin, Rabs. destruct (Rle_dec a b); destruct (Rcase_abs (a - b)); lra.
Qed.

Lemma cont_Rmax (f g : R -> R) (x : R) :
  continuity_pt f x -> continuity_pt g x ->
  continuity_pt (fun t => Rmax (f t) (g t)) x.
Proof.
  intros Hf Hg.
  apply (cont_ext (fun t => (f t + g t + Rabs (f t - g t)) / 2)).
  - intros t. symmetry. apply Rmax_by_abs.
  - apply cont_div_const. apply cont_plus; [apply cont_plus; assumption | ].
    apply cont_Rabs. apply cont_minus; assumption.
Qed.

Lemma cont_Rmin (f g : R -> R) (x : R) :
  continuity_pt f x -> continuity_pt g x ->
  continuity_pt (fun t => Rmin (f t) (g t)) x.
Proof.
  intros Hf Hg.
  apply (cont_ext (fun t => (f t + g t - Rabs (f t - g t)) / 2)).
  - intros t. symmetry. apply Rmin_by_abs.
  - apply cont_div_const. apply cont_minus; [apply cont_plus; assumption | ].
    apply cont_Rabs. apply cont_minus; assumption.
Qed.

Lemma cont_clamp (f : R -> R) (lo hi x : R) :
  continuity_pt f x -> continuity_pt (fun t => clamp (f t) lo hi) x.
Proof.
  intros Hf. unfold clamp.
  apply cont_Rmin; [ | apply cont_const].
  apply cont_Rmax; [exact Hf | apply cont_const].
Qed.

Lemma cont_sqrt_sum_squares (f g : R -> R) (x : R) :
  continuity_pt f x -> continuity_pt g x ->
  continuity_pt (fun t => sqrt (f t * f t + g t * g t)) x.
Proof.
  intros Hf Hg.
  apply (continuity_pt_comp (fun t => f t * f t + g t * g t) sqrt x).
  - apply cont_plus; apply cont_mult; assumption.
  - apply continuity_pt_sqrt.
    pose proof (Rle_0_sqr (f x)). pose proof (Rle_0_sqr (g x)).
    unfold Rsqr in *. lra.
Qed.

(** Decompose a goal [continuity_pt (fun t => ...) x] along the
    arithmetic of its body. *)
Ltac cont_step :=
  first
    [ assumption
    | apply cont_const
    | apply cont_id
    | apply cont_plus
    | apply cont_minus
    | apply cont_opp
    | apply cont_mult
    | apply cont_div_const
    | apply cont_pow
    | apply cont_sin
    | apply cont_clamp
    | apply cont_Rmax
    | apply cont_Rmin
    | apply cont_sqrt_sum_squares ].

Ltac cont := repeat cont_step.

(** *** The shader's scalar helpers *)

Lemma cont_clamp01 (f : R -> R) (x : R) :
  continuity_pt f x -> continuity_pt (fun t => clamp01 (f t)) x.
Proof. intros Hf. unfold clamp01. cont. Qed.

Lemma cont_smooth01 (f : R -> R) (x : R) :
  continuity_pt f x -> continuity_pt (fun t => smooth01 (f t)) x.
Proof. intros Hf. unfold smooth01. cont. Qed.

Lemma cont_easeOutCubic (f : R -> R) (x : R) :
  continuity_pt f x -> continuity_pt (fun t => easeOutCubic (f t)) x.
Proof. intros Hf. unfold easeOutCubic. cont. Qed.

Lemma cont_smoothstep (e0 e1 : R) (f : R -> R) (x : R) :
  continuity_pt f x -> continuity_pt (fun t => smoothstep e0 e1 (f t)) x.
Proof. intros Hf. unfold smoothstep. cbv zeta. cont. Qed.

Lemma cont_mix (f g h : R -> R) (x : R) :
  continuity_pt f x -> continuity_pt g x -> continuity_pt h x ->
  continuity_pt (fun t => mix (f t) (g t) (h t)) x.
Proof. intros Hf Hg Hh. unfold mix. cont. Qed.

Lemma easeInOutCubic_continuous : continuity easeInOutCubic.
Proof.
  intros x.
  set (g := fun t : R => 4 * t * t * t).
  set (h := fun t : R => 1 - (- 2 * t + 2) ^ 3 / 2).
  assert (Hg : continuity_pt g x) by (unfold g; cont).
  assert (Hh : continuity_pt h x) by (unfold h; cont).
  destruct (Rtotal_order x 0.5) as [Hlt | [Heq | Hgt]].
  - apply (continuity_pt_locally_ext g easeInOutCubic (0.5 - x) x);
      [lra | | exact Hg].
    intros t Ht. unfold Rdist in Ht. apply Rabs_def2 in Ht.
    unfold easeInOutCubic, g. destruct (Rlt_dec t 0.5); [reflexivity | lra].
  - apply (cont_glue easeInOutCubic g h x 1); try assumption; [lra | | ].
    + intros t _. unfold easeInOutCubic, g, h.
      destruct (Rlt_dec t 0.5); [left | right]; reflexivity.
    + unfold g, h. rewrite Heq. simpl. lra.
  - apply (continuity_pt_locally_ext h easeInOutCubic (x - 0.5) x);
      [lra | | exact Hh].
    intros t Ht. unfold Rdist in Ht. apply Rabs_def2 in Ht.
    unfold easeInOutCubic, h. destruct (Rlt_dec t 0.5); [lra | reflexivity].
Qed.

Lemma cont_easeInOutCubic (f : R -> R) (x : R) :
  continuity_pt f x -> continuity_pt (fun t => easeInOutCubic (f t)) x.
Proof. intros Hf. apply cont_after; [exact Hf | exact easeInOutCubic_continuous]. Qed.

Ltac cont_shader :=
  repeat first
    [ cont_step
    | apply cont_clamp01
    | apply cont_smooth01
    | apply cont_easeOutCubic
    | apply cont_easeInOutCubic
    | apply cont_smoothstep
    | apply cont_mix ].

(* ================================================================= *)
(** ** The phase near a boundary *)

(** Near a clock value [t0] whose phase is strictly inside the cycle the
    phase moves linearly with the clock: the [floor] of [mod] does not
    change. *)
Lemma ph_near (u : Uniforms) (t0 eta : R) :
  0 < eta ->
  eta <= ph (update u t0) -> eta <= cycle u - ph (update u t0) ->
  exists d, 0 < d /\
    forall t, Rabs (t - t0) < d ->
      ph (update u t) = ph (update u t0) + (t - t0) * uRate u /\
      Rabs ((t - t0) * uRate u) < eta.
Proof.
  intros Heta Hlo Hhi.
  set (c := cycle u) in *. set (r := uRate u).
  assert (Hc : 0 < c) by lra.
  exists (eta / (Rabs r + 1)).
  pose proof (Rabs_pos r) as Hr.
  split; [apply Rdiv_lt_0_compat; lra | ].
  intros t Ht.
  assert (Hdelta : Rabs ((t - t0) * r) < eta).
  { rewrite Rabs_mult.
    assert (H1 : Rabs (t - t0) * Rabs r <= Rabs (t - t0) * (Rabs r + 1))
      by (apply Rmult_le_compat_l; [apply Rabs_pos | lra]).
    assert (H2 : Rabs (t - t0) * (Rabs r + 1)
                 < eta / (Rabs r + 1) * (Rabs r + 1))
      by (apply Rmult_lt_compat_r; lra).
    replace (eta / (Rabs r + 1) * (Rabs r + 1)) with eta in H2
      by (field; lra).
    lra. }
  split; [ | exact Hdelta].
  apply Rabs_def2 in Hdelta.
  unfold ph, T in *. cbn [uTime uRate update] in *.
  change (cycle (update u t)) with c. change (cycle (update u t0)) with c in *.
  fold r in Hlo, Hhi |- *.
  unfold fmod in *.
  set (k := Int_part (t0 * r / c)) in *.
  change (floor (t0 * r / c)) with (IZR k) in *.
  rewrite (floor_unique (t * r / c) k); [ring | ].
  set (y := t * r / c).
  assert (Hy : t * r = c * y) by (unfold y; field; lra).
  assert (H1 : c * IZR k <= c * y) by lra.
  assert (H2 : c * y < c * (IZR k + 1)) by lra.
  split.
  - apply (Rmult_le_reg_l c); assumption.
  - apply (Rmult_lt_reg_l c); assumption.
Qed.

Lemma cont_phase_near (u : Uniforms) (beta t0 : R) :
  continuity_pt (phase_near u beta t0) t0.
Proof. unfold phase_near. cont. Qed.

Lemma phase_near_at (u : Uniforms) (beta t0 : R) : phase_near u beta t0 t0 = beta.
Proof. unfold phase_near. ring. Qed.

Section Seams.

Variable u : Uniforms.
Variable a : Attributes.
Variable t0 : R.
Hypothesis HB : 0 < uBurstT u.
Hypothesis HD : 0 < uDriftT u.
Hypothesis HS : 0 < uSuckT u.
Hypothesis HH : 0 < uHoldT u.

Lemma seam_burst_drift :
  ph (update u t0) = burstEnd u ->
  exists d, 0 < d /\ forall t, Rabs (t - t0) < d ->
    locals (update u t) a = burst_near u a (burstEnd u) t0 t \/
    locals (update u t) a = drift_near u a (burstEnd u) t0 t.
Proof.
  intros Hph.
  destruct (ph_near u t0 (Rmin (uBurstT u) (uDriftT u))) as (d & Hd & Hn).
  - apply Rmin_glb_lt; assumption.
  - rewrite Hph. apply Rmin_l.
  - rewrite Hph. unfold cycle, burstEnd.
    eapply Rle_trans; [apply Rmin_r | lra].
  - exists d. split; [exact Hd | ].
    intros t Ht. destruct (Hn t Ht) as [E Hdelta].
    apply Rabs_def2 in Hdelta.
    pose proof (Rmin_l (uBurstT u) (uDriftT u)).
    pose proof (Rmin_r (uBurstT u) (uDriftT u)).
    unfold locals, burst_near, drift_near, phase_near.
    rewrite E, Hph.
    change (burstEnd (update u t)) with (burstEnd u).
    change (driftEnd (update u t)) with (driftEnd u).
    unfold burstEnd, driftEnd in *.
    destruct (Rlt_dec _ (uBurstT u)); [left; reflexivity | ].
    destruct (Rlt_dec _ (uBurstT u + uDriftT u)); [right; reflexivity | lra].
Qed.

Lemma seam_drift_suck :
  ph (update u t0) = driftEnd u ->
  exists d, 0 < d /\ forall t, Rabs (t - t0) < d ->
    locals (update u t) a = drift_near u a (driftEnd u) t0 t \/
    locals (update u t) a = suck_near u a (driftEnd u) t0 t.
Proof.
  intros Hph.
  destruct (ph_near u t0 (Rmin (uDriftT u) (uSuckT u))) as (d & Hd & Hn).
  - apply Rmin_glb_lt; assumption.
  - rewrite Hph. unfold driftEnd.
    eapply Rle_trans; [apply Rmin_l | lra].
  - rewrite Hph. unfold cycle, driftEnd.
    eapply Rle_trans; [apply Rmin_r | lra].
  - exists d. split; [exact Hd | ].
    intros t Ht. destruct (Hn t Ht) as [E Hdelta].
    apply Rabs_def2 in Hdelta.
    pose proof (Rmin_l (uDriftT u) (uSuckT u)).
    pose proof (Rmin_r (uDriftT u) (uSuckT u)).
    unfold locals, drift_near, suck_near, phase_near.
    rewrite E, Hph.
    change (burstEnd (update u t)) with (burstEnd u).
    change (driftEnd (update u t)) with (driftEnd u).
    change (suckEnd (update u t)) with (suckEnd u).
    unfold burstEnd, driftEnd, suckEnd in *.
    destruct (Rlt_dec _ (uBurstT u)); [lra | ].
    destruct (Rlt_dec _ (uBurstT u + uDriftT u)); [left; reflexivity | ].
    destruct (Rlt_dec _ (uBurstT u + uDriftT u + uSuckT u));
      [right; reflexivity | lra].
Qed.

Lemma seam_suck_hold :
  ph (update u t0) = suckEnd u ->
  exists d, 0 < d /\ forall t, Rabs (t - t0) < d ->
    locals (update u t) a = suck_near u a (suckEnd u) t0 t \/
    locals (update u t) a = hold u.
Proof.
  intros Hph.
  destruct (ph_near u t0 (Rmin (uSuckT u) (uHoldT u))) as (d & Hd & Hn).
  - apply Rmin_glb_lt; assumption.
  - rewrite Hph. unfold suckEnd.
    eapply Rle_trans; [apply Rmin_l | lra].
  - rewrite Hph. unfold cycle, suckEnd.
    eapply Rle_trans; [apply Rmin_r | lra].
  - exists d. split; [exact Hd | ].
    intros t Ht. destruct (Hn t Ht) as [E Hdelta].
    apply Rabs_def2 in Hdelta.
    pose proof (Rmin_l (uSuckT u) (uHoldT u)).
    pose proof (Rmin_r (uSuckT u) (uHoldT u)).
    unfold locals, suck_near, phase_near.
    rewrite E, Hph.
    change (burstEnd (update u t)) with (burstEnd u).
    change (driftEnd (update u t)) with (driftEnd u).
    change (suckEnd (update u t)) with (suckEnd u).
    unfold burstEnd, driftEnd, suckEnd in *.
    destruct (Rlt_dec _ (uBurstT u)); [lra | ].
    destruct (Rlt_dec _ (uBurstT u + uDriftT u)); [lra | ].
    destruct (Rlt_dec _ (uBurstT u + uDriftT u + uSuckT u));
      [left; reflexivity | right; reflexivity].
Qed.

End Seams.

(* ================================================================= *)
(** ** Each branch is continuous in the clock *)

(** Read the uniforms of [update u t]. *)
Ltac usimpl :=
  cbn [update uTime uRes uLeft uRight uPortalR uBurstT uDriftT uSuckT uHoldT
       uRate uBand uBurstRadius uSuckWide uDotGain] in *.

Lemma smoothstep_zero (e0 e1 x : R) :
  (x - e0) / (e1 - e0) <= 0 -> smoothstep e0 e1 x = 0.
Proof.
  intros H. unfold smoothstep. cbv zeta.
  rewrite (clamp_low _ 0 1) by lra. ring.
Qed.

Lemma smoothstep_one (e0 e1 x : R) :
  1 <= (x - e0) / (e1 - e0) -> smoothstep e0 e1 x = 1.
Proof.
  intros H. unfold smoothstep. cbv zeta.
  rewrite (clamp_high _ 0 1) by lra. ring.
Qed.

Lemma vlength_nonneg (v : vec2) : 0 <= vlength v.
Proof. apply sqrt_pos. Qed.

Lemma vlength_zero (v : vec2) : vlength v = 0 -> vx v = 0 /\ vy v = 0.
Proof.
  unfold vlength. intros H.
  pose proof (Rle_0_sqr (vx v)) as Hx. pose proof (Rle_0_sqr (vy v)) as Hy.
  unfold Rsqr in *.
  apply sqrt_eq_0 in H; [ | lra].
  assert (Hx0 : vx v * vx v = 0) by lra.
  assert (Hy0 : vy v * vy v = 0) by lra.
  apply Rmult_integral in Hx0. apply Rmult_integral in Hy0. tauto.
Qed.

Lemma component_le_vlength (v : vec2) :
  Rabs (vx v) <= vlength v /\ Rabs (vy v) <= vlength v.
Proof.
  unfold vlength.
  pose proof (Rle_0_sqr (vx v)) as Hx. pose proof (Rle_0_sqr (vy v)) as Hy.
  unfold Rsqr in *.
  split.
  - rewrite <- sqrt_Rsqr_abs. apply sqrt_le_1; unfold Rsqr; lra.
  - rewrite <- sqrt_Rsqr_abs. apply sqrt_le_1; unfold Rsqr; lra.
Qed.

Lemma ratio_bounded (x l : R) : Rabs x <= l -> Rabs (x / l) <= 1.
Proof.
  intros H. pose proof (Rabs_pos x) as Hx.
  destruct (Req_dec_T l 0) as [-> | Hl].
  - assert (x = 0).
    { destruct (Req_dec_T x 0) as [E | E]; [exact E | ].
      apply Rabs_pos_lt in E. lra. }
    subst x. unfold Rdiv. rewrite Rmult_0_l, Rabs_R0. lra.
  - assert (Hpos : 0 < l) by lra.
    unfold Rdiv. rewrite Rabs_mult, (Rabs_pos_eq (/ l)).
    + apply (Rmult_le_reg_r l); [exact Hpos | ].
      rewrite Rmult_assoc, Rinv_l by exact Hl. lra.
    + left. apply Rinv_0_lt_compat. exact Hpos.
Qed.

Lemma normalize_bounded (v : vec2) :
  Rabs (vx (normalize v)) <= 1 /\ Rabs (vy (normalize v)) <= 1.
Proof.
  unfold normalize. cbn [vx vy].
  destruct (component_le_vlength v) as [Hx Hy].
  split; apply ratio_bounded; assumption.
Qed.

(** [normalize v * (length v * k)] is [v * k], the zero vector included. *)
Lemma normalize_times_length (v : vec2) (k : R) :
  (normalize v * (vlength v * k))%V = (v * k)%V.
Proof.
  unfold normalize. vsimpl.
  destruct (Req_dec_T (vlength v) 0) as [E | E].
  - destruct (vlength_zero v E) as [Hx Hy]. rewrite E, Hx, Hy.
    apply vec2_eq; unfold Rdiv; ring.
  - apply vec2_eq; field; exact E.
Qed.

Section BranchContinuity.

Variable u : Uniforms.
Variable a : Attributes.
Variable x : R.

Lemma cont_burst (q : R -> R) :
  continuity_pt q x -> cont_locals (fun t => burst (update u t) a (q t)) x.
Proof.
  intros Hq. unfold cont_locals, cont2, burst, packed, rad0.
  cbv zeta. cbn [p alpha sizeMul]. usimpl. vsimpl.
  repeat split; cont_shader.
Qed.

Lemma cont_drift (q : R -> R) :
  continuity_pt q x -> cont_locals (fun t => drift (update u t) a (q t)) x.
Proof.
  intros Hq.
  unfold cont_locals, cont2, drift, drift_base, wobble, packed, rad0.
  cbv zeta. cbn [p alpha sizeMul]. usimpl. vsimpl.
  repeat split; cont_shader.
Qed.

Lemma cont2_suck_start (tb : R -> R) :
  continuity_pt tb x -> cont2 (fun t => suck_start (update u t) a (tb t)) x.
Proof.
  intros Hq.
  unfold cont2, suck_start, drift_base, wobble, packed, rad0.
  cbv zeta. usimpl. vsimpl.
  split; cont_shader.
Qed.

Lemma suck_capture_eq (v : Uniforms) (start : vec2) (tS : R) :
  suck_capture v start tS
  = (start + (uRight v - start) * 0.06 * uSuckWide v * smooth01 tS)%V.
Proof.
  unfold suck_capture. cbv zeta. rewrite normalize_times_length. reflexivity.
Qed.

Lemma cont2_suck_capture (S : R -> vec2) (tS : R -> R) :
  cont2 S x -> continuity_pt tS x ->
  cont2 (fun t => suck_capture (update u t) (S t) (tS t)) x.
Proof.
  intros [HSx HSy] HtS. unfold cont2.
  split.
  - apply (cont_ext (fun t => vx (S t + (uRight u - S t) * 0.06 * uSuckWide u
                                  * smooth01 (tS t))%V)).
    + intros t. rewrite suck_capture_eq. reflexivity.
    + vsimpl. cont_shader.
  - apply (cont_ext (fun t => vy (S t + (uRight u - S t) * 0.06 * uSuckWide u
                                  * smooth01 (tS t))%V)).
    + intros t. rewrite suck_capture_eq. reflexivity.
    + vsimpl. cont_shader.
Qed.

Lemma cont2_suck_curve (C : R -> vec2) (l : R -> R) :
  cont2 C x -> continuity_pt l x ->
  cont2 (fun t => suck_curve (update u t) a (C t) (l t)) x.
Proof.
  intros [HCx HCy] Hl. unfold cont2, suck_curve, bezier.
  cbv zeta. usimpl. vsimpl.
  split; cont_shader.
Qed.

Lemma cont_spiralAmt (tS l : R -> R) :
  continuity_pt tS x -> continuity_pt l x ->
  continuity_pt (fun t => spiralAmt (tS t) (l t)) x.
Proof.
  intros HtS Hl. unfold spiralAmt. cbv zeta. cont_shader.
Qed.

Lemma cont2_suck_spiral (P : R -> vec2) (amt : R -> R) :
  cont2 P x -> continuity_pt amt x -> amt x = 0 ->
  cont2 (fun t => suck_spiral (update u t) a (P t) (amt t)) x.
Proof.
  intros [HPx HPy] Hamt H0. unfold cont2, suck_spiral.
  cbv zeta. usimpl.
  set (spin := hash (aSeed a * 777.7) * 2.0 - 1.0).
  assert (Hg : continuity_pt (fun t => amt t * spin) x) by cont.
  assert (Hg0 : amt x * spin = 0) by (rewrite H0; ring).
  split.
  - apply (cont_ext (fun t => vx (P t)
       + vx (normalize (vshift (V2 (- vy (uRight u - P t)%V)
                                   (vx (uRight u - P t)%V)) 1e-4))
         * (amt t * spin))).
    + intros t. unfold vadd, vscale. cbn [vx vy]. ring.
    + apply cont_plus; [exact HPx | ].
      apply (cont_bounded_null _ (fun t => amt t * spin) 1); try assumption.
      intros t. apply normalize_bounded.
  - apply (cont_ext (fun t => vy (P t)
       + vy (normalize (vshift (V2 (- vy (uRight u - P t)%V)
                                   (vx (uRight u - P t)%V)) 1e-4))
         * (amt t * spin))).
    + intros t. unfold vadd, vscale. cbn [vx vy]. ring.
    + apply cont_plus; [exact HPy | ].
      apply (cont_bounded_null _ (fun t => amt t * spin) 1); try assumption.
      intros t. apply normalize_bounded.
Qed.

Lemma cont_suck_alpha (l : R -> R) (P : R -> vec2) :
  continuity_pt l x -> cont2 P x ->
  continuity_pt (fun t => suck_alpha (update u t) (l t) (P t)) x.
Proof.
  intros Hl [HPx HPy]. unfold suck_alpha, vlength.
  cbv zeta. usimpl. vsimpl. cont_shader.
Qed.

Lemma cont_suck_shrink (P : R -> vec2) :
  cont2 P x -> continuity_pt (fun t => suck_shrink (update u t) (P t)) x.
Proof.
  intros [HPx HPy]. unfold suck_shrink, vlength.
  cbv zeta. usimpl. vsimpl. cont_shader.
Qed.

(** The SUCK branch is continuous at a clock value where the micro-spiral
    amount is zero. *)
Lemma cont_suck (tS qB qL : R -> R) :
  continuity_pt tS x -> continuity_pt qB x -> continuity_pt qL x ->
  spiralAmt (tS x) (clamp01 (qL x)) = 0 ->
  cont_locals (fun t => suck (update u t) a (tS t) (qB t) (qL t)) x.
Proof.
  intros HtS HqB HqL H0.
  assert (Hl : continuity_pt (fun t => clamp01 (qL t)) x) by cont_shader.
  assert (Hstart : cont2 (fun t => suck_start (update u t) a (t - qB t)) x)
    by (apply cont2_suck_start; cont).
  pose proof (cont2_suck_capture _ tS Hstart HtS) as Hcap.
  pose proof (cont2_suck_curve _ _ Hcap Hl) as Hcurve.
  pose proof (cont_spiralAmt tS _ HtS Hl) as Hamt.
  pose proof (cont2_suck_spiral _ _ Hcurve Hamt H0) as Hp.
  unfold cont_locals, suck. cbv zeta. cbn [p alpha sizeMul]. usimpl.
  split; [exact Hp | ].
  split.
  - exact (cont_suck_alpha _ _ Hl Hp).
  - exact (cont_suck_shrink _ Hp).
Qed.

End BranchContinuity.

(* ================================================================= *)
(** ** The values at the seams *)

Lemma smooth01_0 : smooth01 0 = 0.
Proof. unfold smooth01. ring. Qed.

Lemma smooth01_1 : smooth01 1 = 1.
Proof. unfold smooth01. ring. Qed.

Lemma easeInOutCubic_0 : easeInOutCubic 0 = 0.
Proof.
  unfold easeInOutCubic. destruct (Rlt_dec 0 0.5); [ring | lra].
Qed.

Lemma easeInOutCubic_1 : easeInOutCubic 1 = 1.
Proof.
  unfold easeInOutCubic. destruct (Rlt_dec 1 0.5); [lra | simpl; lra].
Qed.

Lemma locals_eq (l l' : Locals) :
  p l = p l' -> alpha l = alpha l' -> sizeMul l = sizeMul l' -> l = l'.
Proof. destruct l, l'. cbn. intros -> -> ->. reflexivity. Qed.

(** BURST at full progress is DRIFT at zero progress. *)
Lemma burst_end_is_drift_start (u : Uniforms) (a : Attributes) :
  burst u a 1 = drift u a 0.
Proof.
  unfold burst, drift, drift_base. cbv zeta.
  rewrite clamp01_1, clamp01_0, easeOutCubic_1, smooth01_0.
  apply locals_eq; cbn [p alpha sizeMul]; try reflexivity.
  vsimpl. unfold mix. apply vec2_eq; lra.
Qed.

(** DRIFT at full progress sits at the SUCK start computed for the
    current clock value. *)
Lemma drift_end_position (u : Uniforms) (a : Attributes) :
  p (drift u a 1) = suck_start u a (uTime u).
Proof.
  unfold drift, suck_start. cbv zeta.
  rewrite clamp01_1, smooth01_1. cbn [p]. vsimpl.
  rewrite !Rmult_1_r. reflexivity.
Qed.

Lemma spiralAmt_before_suction (local : R) : spiralAmt 0 local = 0.
Proof.
  unfold spiralAmt. cbv zeta.
  rewrite (smoothstep_zero 0.06 0.22 0) by lra. lra.
Qed.

Lemma spiralAmt_absorbed (tS : R) : spiralAmt tS 1 = 0.
Proof.
  unfold spiralAmt. cbv zeta.
  rewrite (smoothstep_one 0.60 1.0 1) by lra. lra.
Qed.

Lemma suck_spiral_null (u : Uniforms) (a : Attributes) (q : vec2) :
  suck_spiral u a q 0 = q.
Proof.
  unfold suck_spiral. cbv zeta. destruct q as [qx qy]. vsimpl.
  apply vec2_eq; lra.
Qed.

(** SUCK at zero progress, before the dot commits: the position is the
    start position; opacity and size depend on its distance to the
    right anchor alone. *)
Lemma suck_at_start (u : Uniforms) (a : Attributes) (qL : R) :
  clamp01 qL = 0 ->
  let l := suck u a 0 0 qL in
  let d := vlength (suck_start u a (uTime u) - uRight u)%V in
  p l = suck_start u a (uTime u) /\
  alpha l = 1 - 0.92 * smoothstep 0.70 0.08 d /\
  sizeMul l = mix 0.20 1.0 (smoothstep 0.18 0.85 d).
Proof.
  intros Hl l d.
  assert (Hp : p l = suck_start u a (uTime u)).
  { unfold l, suck. cbv zeta. cbn [p].
    rewrite Hl, spiralAmt_before_suction, suck_spiral_null, Rminus_0_r.
    rewrite suck_capture_eq, smooth01_0.
    unfold suck_curve, bezier. cbv zeta.
    rewrite easeInOutCubic_0, (smoothstep_zero 0.0 0.08 0) by lra.
    destruct (suck_start u a (uTime u)) as [sx sy].
    vsimpl. unfold mix. apply vec2_eq; lra. }
  split; [exact Hp | ].
  unfold l, suck in *. cbv zeta in *. cbn [p alpha sizeMul] in *.
  rewrite Hp. unfold suck_alpha, suck_shrink. cbv zeta. rewrite Hl.
  rewrite (smoothstep_zero 0.35 0.80 0) by lra.
  fold d. split; [lra | reflexivity].
Qed.

(** SUCK at full progress of a fully absorbed dot: at the right anchor,
    transparent, at the size floor. *)
Lemma suck_at_end (u : Uniforms) (a : Attributes) (qB qL : R) :
  clamp01 qL = 1 ->
  let l := suck u a 1 qB qL in
  p l = uRight u /\ alpha l = 0 /\ sizeMul l = 0.20.
Proof.
  intros Hl l.
  assert (Hp : p l = uRight u).
  { unfold l, suck. cbv zeta. cbn [p].
    rewrite Hl, spiralAmt_absorbed, suck_spiral_null.
    unfold suck_curve, bezier. cbv zeta.
    rewrite easeInOutCubic_1, (smoothstep_one 0.0 0.08 1) by lra.
    destruct (suck_capture u _ 1) as [cx cy]. destruct (uRight u) as [rx' ry'].
    vsimpl. unfold mix. apply vec2_eq; lra. }
  split; [exact Hp | ].
  unfold l, suck in *. cbv zeta in *. cbn [p alpha sizeMul] in *.
  rewrite Hp. unfold suck_alpha, suck_shrink. cbv zeta. rewrite Hl.
  rewrite (smoothstep_one 0.35 0.80 1) by lra.
  assert (Hd : vlength (uRight u - uRight u)%V = 0).
  { unfold vlength. vsimpl.
    replace ((vx (uRight u) - vx (uRight u)) * (vx (uRight u) - vx (uRight u))
             + (vy (uRight u) - vy (uRight u)) * (vy (uRight u) - vy (uRight u)))
      with 0 by ring.
    apply sqrt_0. }
  rewrite Hd, (smoothstep_zero 0.18 0.85 0) by lra.
  unfold mix. split; lra.
Qed.

(* ================================================================= *)
(** ** Continuity across the seams *)

Lemma glue_locals (proj : Locals -> R) (u : Uniforms) (a : Attributes)
      (G H : R -> Locals) (t0 : R) :
  (exists d, 0 < d /\ forall t, Rabs (t - t0) < d ->
     locals (update u t) a = G t \/ locals (update u t) a = H t) ->
  proj (G t0) = proj (H t0) ->
  continuity_pt (fun t => proj (G t)) t0 ->
  continuity_pt (fun t => proj (H t)) t0 ->
  continuity_pt (fun t => proj (locals (update u t) a)) t0.
Proof.
  intros (d & Hd & Hsel) Heq HG HH.
  apply (cont_glue _ (fun t => proj (G t)) (fun t => proj (H t)) t0 d);
    try assumption.
  intros t Ht. destruct (Hsel t Ht) as [E | E]; rewrite E; [left | right];
    reflexivity.
Qed.

Section NearContinuity.

Variable u : Uniforms.
Variable a : Attributes.
Variables beta t0 : R.

Lemma cont_burst_near : cont_locals (burst_near u a beta t0) t0.
Proof.
  unfold burst_near.
  apply (cont_burst u a t0 (fun t => phase_near u beta t0 t / uBurstT u)).
  pose proof (cont_phase_near u beta t0). cont.
Qed.

Lemma cont_drift_near : cont_locals (drift_near u a beta t0) t0.
Proof.
  unfold drift_near.
  apply (cont_drift u a t0
           (fun t => (phase_near u beta t0 t - burstEnd u) / uDriftT u)).
  pose proof (cont_phase_near u beta t0). cont.
Qed.

Lemma cont_suck_near :
  spiralAmt (clamp01 ((beta - driftEnd u) / uSuckT u))
    (clamp01 ((clamp01 ((beta - driftEnd u) / uSuckT u) - delay a)
              / Rmax 1e-3 (1.0 - delay a))) = 0 ->
  cont_locals (suck_near u a beta t0) t0.
Proof.
  intros H0. unfold suck_near. cbv zeta.
  pose proof (cont_phase_near u beta t0) as Hph.
  apply (cont_suck u a t0
    (fun t => clamp01 ((phase_near u beta t0 t - driftEnd u) / uSuckT u))
    (fun t => (phase_near u beta t0 t - driftEnd u) / Rmax 1e-3 (uRate u))
    (fun t => (clamp01 ((phase_near u beta t0 t - driftEnd u) / uSuckT u)
               - delay a) / Rmax 1e-3 (1.0 - delay a))).
  - cont_shader.
  - cont.
  - cont_shader.
  - cbv beta. rewrite phase_near_at. exact H0.
Qed.

End NearContinuity.

Lemma clamp01_before_commit (a : Attributes) :
  clamp01 ((0 - delay a) / Rmax 1e-3 (1.0 - delay a)) = 0.
Proof.
  pose proof (delay_range a) as Hd.
  pose proof (Rmax_floor 1e-3 (1.0 - delay a)) as Hm.
  apply clamp_low; [ | lra].
  unfold Rdiv.
  assert (0 < / Rmax 1e-3 (1.0 - delay a)) by (apply Rinv_0_lt_compat; lra).
  assert (0 <= (delay a) * / Rmax 1e-3 (1.0 - delay a))
    by (apply Rmult_le_pos; lra).
  lra.
Qed.

Lemma clamp01_fully_committed (a : Attributes) :
  clamp01 ((1 - delay a) / Rmax 1e-3 (1.0 - delay a)) = 1.
Proof.
  pose proof (delay_range a) as Hd.
  rewrite Rmax_right by lra.
  replace (1.0 - delay a) with (1 - delay a) by lra.
  replace ((1 - delay a) / (1 - delay a)) with 1 by (field; lra).
  apply clamp01_1.
Qed.

Lemma suck_near_at_start (u : Uniforms) (a : Attributes) (t0 : R) :
  suck_near u a (driftEnd u) t0 t0
  = suck (update u t0) a 0 0 ((0 - delay a) / Rmax 1e-3 (1.0 - delay a)).
Proof.
  unfold suck_near. cbv zeta. rewrite phase_near_at.
  replace (driftEnd u - driftEnd u) with 0 by ring.
  replace (0 / uSuckT u) with 0 by (unfold Rdiv; ring).
  replace (0 / Rmax 1e-3 (uRate u)) with 0 by (unfold Rdiv; ring).
  rewrite clamp01_0. reflexivity.
Qed.

Lemma suck_near_at_end (u : Uniforms) (a : Attributes) (t0 : R) :
  0 < uSuckT u ->
  suck_near u a (suckEnd u) t0 t0
  = suck (update u t0) a 1 (uSuckT u / Rmax 1e-3 (uRate u))
      ((1 - delay a) / Rmax 1e-3 (1.0 - delay a)).
Proof.
  intros HS. unfold suck_near. cbv zeta. rewrite phase_near_at.
  replace (suckEnd u - driftEnd u) with (uSuckT u)
    by (unfold suckEnd, driftEnd; ring).
  replace (uSuckT u / uSuckT u) with 1 by (field; lra).
  rewrite clamp01_1. reflexivity.
Qed.

Lemma burst_near_at_end (u : Uniforms) (a : Attributes) (t0 : R) :
  0 < uBurstT u ->
  burst_near u a (burstEnd u) t0 t0 = burst (update u t0) a 1.
Proof.
  intros HB. unfold burst_near. rewrite phase_near_at.
  unfold burstEnd. replace (uBurstT u / uBurstT u) with 1 by (field; lra).
  reflexivity.
Qed.

Lemma drift_near_at_start (u : Uniforms) (a : Attributes) (t0 : R) :
  drift_near u a (burstEnd u) t0 t0 = drift (update u t0) a 0.
Proof.
  unfold drift_near. rewrite phase_near_at.
  replace ((burstEnd u - burstEnd u) / uDriftT u) with 0
    by (unfold Rdiv; ring).
  reflexivity.
Qed.

Lemma drift_near_at_end (u : Uniforms) (a : Attributes) (t0 : R) :
  0 < uDriftT u ->
  drift_near u a (driftEnd u) t0 t0 = drift (update u t0) a 1.
Proof.
  intros HD. unfold drift_near. rewrite phase_near_at.
  replace ((driftEnd u - burstEnd u) / uDriftT u) with 1
    by (unfold driftEnd, burstEnd; field; lra).
  reflexivity.
Qed.

Section SeamTheorems.

Variable u : Uniforms.
Variable a : Attributes.
Variable t0 : R.
Hypothesis HB : 0 < uBurstT u.
Hypothesis HD : 0 < uDriftT u.
Hypothesis HS : 0 < uSuckT u.
Hypothesis HH : 0 < uHoldT u.

Let X (t : R) : R := vx (position (frame u a t)).
Let Y (t : R) : R := vy (position (frame u a t)).
Let A (t : R) : R := vAlpha (frame u a t).
Let M (t : R) : R := size_multiplier (frame u a t).

Lemma burst_drift_continuous :
  ph (update u t0) = burstEnd u ->
  continuity_pt X t0 /\ continuity_pt Y t0 /\
  continuity_pt A t0 /\ continuity_pt M t0.
Proof.
  intros Hph.
  pose proof (seam_burst_drift u a t0 HB HD HS HH Hph) as Hsel.
  destruct (cont_burst_near u a (burstEnd u) t0) as [[Gx Gy] [Ga Gm]].
  destruct (cont_drift_near u a (burstEnd u) t0) as [[Hx Hy] [Ha Hm]].
  assert (E : burst_near u a (burstEnd u) t0 t0
              = drift_near u a (burstEnd u) t0 t0).
  { rewrite (burst_near_at_end u a t0 HB), drift_near_at_start.
    apply burst_end_is_drift_start. }
  repeat split.
  - apply (glue_locals (fun l => vx (p l)) u a _ _ t0 Hsel);
      [rewrite E; reflexivity | exact Gx | exact Hx].
  - apply (glue_locals (fun l => vy (p l)) u a _ _ t0 Hsel);
      [rewrite E; reflexivity | exact Gy | exact Hy].
  - apply (glue_locals alpha u a _ _ t0 Hsel);
      [rewrite E; reflexivity | exact Ga | exact Ha].
  - apply (glue_locals sizeMul u a _ _ t0 Hsel);
      [rewrite E; reflexivity | exact Gm | exact Hm].
Qed.

Lemma drift_suck_continuous :
  ph (update u t0) = driftEnd u ->
  position (frame u a t0) = p (drift (update u t0) a 1) /\
  continuity_pt X t0 /\ continuity_pt Y t0 /\
  (0.70 <= vlength (position (frame u a t0) - uRight u)%V ->
   continuity_pt A t0) /\
  (0.85 <= vlength (position (frame u a t0) - uRight u)%V ->
   continuity_pt M t0).
Proof.
  intros Hph.
  pose proof (seam_drift_suck u a t0 HB HD HS HH Hph) as Hsel.
  destruct (cont_drift_near u a (driftEnd u) t0) as [[Gx Gy] [Ga Gm]].
  destruct (cont_suck_near u a (driftEnd u) t0) as [[Hx Hy] [Ha Hm]].
  { replace (driftEnd u - driftEnd u) with 0 by ring.
    replace (0 / uSuckT u) with 0 by (unfold Rdiv; ring).
    rewrite clamp01_0. apply spiralAmt_before_suction. }
  pose proof (drift_near_at_end u a t0 HD) as EG.
  pose proof (suck_near_at_start u a t0) as EH.
  destruct (suck_at_start (update u t0) a _ (clamp01_before_commit a))
    as (Sp & Sa & Sm).
  rewrite <- EH in Sp, Sa, Sm.
  cbn [uTime update] in Sp, Sa, Sm.
  assert (Ep : p (drift_near u a (driftEnd u) t0 t0)
               = p (suck_near u a (driftEnd u) t0 t0)).
  { rewrite EG, Sp. apply (drift_end_position (update u t0) a). }
  assert (Epos : position (frame u a t0) = p (drift (update u t0) a 1)).
  { rewrite <- EG. destruct Hsel as (d & Hd & Hsel).
    unfold frame, main, finish. cbn [position].
    destruct (Hsel t0) as [E | E].
    - replace (t0 - t0) with 0 by ring. rewrite Rabs_R0. exact Hd.
    - rewrite E. reflexivity.
    - rewrite E. symmetry. exact Ep. }
  split; [exact Epos | ].
  split; [ | split].
  - apply (glue_locals (fun l => vx (p l)) u a _ _ t0 Hsel);
      [rewrite Ep; reflexivity | exact Gx | exact Hx].
  - apply (glue_locals (fun l => vy (p l)) u a _ _ t0 Hsel);
      [rewrite Ep; reflexivity | exact Gy | exact Hy].
  - rewrite Epos, <- EG, Ep, Sp.
    set (dist := vlength (suck_start (update u t0) a t0 - uRight (update u t0))%V)
      in *.
    change (uRight u) with (uRight (update u t0)). fold dist.
    split; intros Hfar.
    + apply (glue_locals alpha u a _ _ t0 Hsel); [ | exact Ga | exact Ha].
      rewrite EG, Sa. rewrite (smoothstep_zero 0.70 0.08 dist) by lra.
      unfold drift. cbn [alpha]. lra.
    + apply (glue_locals sizeMul u a _ _ t0 Hsel); [ | exact Gm | exact Hm].
      rewrite EG, Sm. rewrite (smoothstep_one 0.18 0.85 dist) by lra.
      unfold drift, mix. cbn [sizeMul]. lra.
Qed.

Lemma suck_hold_continuous :
  ph (update u t0) = suckEnd u ->
  continuity_pt X t0 /\ continuity_pt Y t0 /\ continuity_pt A t0.
Proof.
  intros Hph.
  pose proof (seam_suck_hold u a t0 HB HD HS HH Hph) as Hsel.
  pose proof (suck_near_at_end u a t0 HS) as EG.
  destruct (cont_suck_near u a (suckEnd u) t0) as [[Gx Gy] [Ga Gm]].
  { replace (suckEnd u - driftEnd u) with (uSuckT u)
      by (unfold suckEnd, driftEnd; ring).
    replace (uSuckT u / uSuckT u) with 1 by (field; lra).
    rewrite clamp01_1, clamp01_fully_committed. apply spiralAmt_absorbed. }
  destruct (suck_at_end (update u t0) a (uSuckT u / Rmax 1e-3 (uRate u)) _
              (clamp01_fully_committed a)) as (Sp & Sa & Sm).
  rewrite <- EG in Sp, Sa, Sm.
  repeat split.
  - apply (glue_locals (fun l => vx (p l)) u a _ (fun _ => hold u) t0 Hsel);
      [rewrite Sp; reflexivity | exact Gx | apply cont_const].
  - apply (glue_locals (fun l => vy (p l)) u a _ (fun _ => hold u) t0 Hsel);
      [rewrite Sp; reflexivity | exact Gy | apply cont_const].
  - apply (glue_locals alpha u a _ (fun _ => hold u) t0 Hsel);
      [rewrite Sa; simpl; lra | exact Ga | apply cont_const].
Qed.

End SeamTheorems.

Lemma suck_branch_size (u : Uniforms) (a : Attributes) :
  0 <= uDriftT u -> driftEnd u <= ph u < suckEnd u ->
  0.20 <= sizeMul (locals u a).
Proof.
  intros HD [Hlo Hhi]. unfold locals.
  unfold burstEnd, driftEnd, suckEnd in *.
  destruct (Rlt_dec (ph u) (uBurstT u)); [lra | ].
  destruct (Rlt_dec (ph u) (uBurstT u + uDriftT u)); [lra | ].
  destruct (Rlt_dec (ph u) (uBurstT u + uDriftT u + uSuckT u)); [ | lra].
  cbv zeta. apply suck_bounds.
Qed.

Lemma drift_branch_locals (u : Uniforms) (a : Attributes) :
  burstEnd u <= ph u < driftEnd u ->
  alpha (locals u a) = 1 /\ sizeMul (locals u a) = 1.
Proof.
  intros [Hlo Hhi]. unfold locals.
  destruct (Rlt_dec (ph u) (burstEnd u)); [lra | ].
  destruct (Rlt_dec (ph u) (driftEnd u)); [ | lra].
  unfold drift. cbn [alpha sizeMul]. lra.
Qed.

(** C1, as the code has it.  With positive phase durations, for every
    particle and every clock value [t0] whose phase is a boundary:
    - BURST->DRIFT: position, opacity and size multiplier are continuous
      at [t0];
    - DRIFT->SUCK: the position at [t0] is the DRIFT branch's final
      position evaluated at [t0], and the position is continuous there;
      the opacity is continuous when that position is at least 0.70 from
      the right anchor and the size multiplier when it is at least 0.85
      from it (farther than the reach of the near-portal fade and
      shrink);
    - SUCK->HOLD: position and opacity are continuous at [t0].
    The size multiplier is at least 0.20 at every clock value in SUCK and
    0 at every clock value in HOLD. *)
Theorem seams_continuous (u : Uniforms) (a : Attributes) (t0 : R) :
  0 < uBurstT u -> 0 < uDriftT u -> 0 < uSuckT u -> 0 < uHoldT u ->
  let X := fun t => vx (position (frame u a t)) in
  let Y := fun t => vy (position (frame u a t)) in
  let A := fun t => vAlpha (frame u a t) in
  let M := fun t => size_multiplier (frame u a t) in
  (ph (update u t0) = burstEnd u ->
     continuity_pt X t0 /\ continuity_pt Y t0 /\
     continuity_pt A t0 /\ continuity_pt M t0) /\
  (ph (update u t0) = driftEnd u ->
     position (frame u a t0) = p (drift (update u t0) a 1) /\
     continuity_pt X t0 /\ continuity_pt Y t0 /\
     (0.70 <= vlength (position (frame u a t0) - uRight u)%V ->
      continuity_pt A t0) /\
     (0.85 <= vlength (position (frame u a t0) - uRight u)%V ->
      continuity_pt M t0)) /\
  (ph (update u t0) = suckEnd u ->
     continuity_pt X t0 /\ continuity_pt Y t0 /\ continuity_pt A t0) /\
  (forall t, driftEnd u <= ph (update u t) < suckEnd u -> 0.20 <= M t) /\
  (forall t, suckEnd u <= ph (update u t) -> M t = 0).
Proof.
  intros HB HD HS HH X Y A M.
  split; [ | split; [ | split; [ | split]]].
  - exact (burst_drift_continuous u a t0 HB HD HS HH).
  - exact (drift_suck_continuous u a t0 HB HD HS HH).
  - exact (suck_hold_continuous u a t0 HB HD HS HH).
  - intros t Ht. unfold M, frame, main, finish. cbn [size_multiplier].
    apply suck_branch_size; [usimpl; lra | exact Ht].
  - intros t Ht. unfold M, frame, main, finish. cbn [size_multiplier].
    destruct (locals_hold (update u t) a) as [_ E];
      [usimpl; lra | usimpl; lra | exact Ht | ].
    rewrite E. simpl. lra.
Qed.

(* ================================================================= *)
(** ** The seams of the built-in configuration *)

(** In the first cycle of a reachable state the phase is the clock. *)
Lemma reachable_ph (u : Uniforms) (t : R) :
  reachable u -> 0 <= t < 6.5 -> ph (update u t) = t.
Proof.
  intros Hr Ht. destruct (reachable_timing u Hr) as (HB & HD & HS & HH & HR).
  unfold ph, T, cycle. usimpl. rewrite HB, HD, HS, HH, HR.
  replace (t * 1.00) with t by lra. rewrite fmod_small; lra.
Qed.

(** C1, the claim as stated fails.  In the initial state of a 16 x 10
    view the clock value 6.05 is the SUCK->HOLD boundary, and the size
    multiplier of the first particle of the pool is not continuous
    there: it is 0 at 6.05 and at least 0.20 just before. *)
Lemma size_jumps_at_hold :
  let u := createPortalPulseFX 16 10 in
  ph (update u 6.05) = suckEnd u /\
  size_multiplier (frame u (particle 0) 6.05) = 0 /\
  (forall t, 1.85 <= t < 6.05 ->
     0.20 <= size_multiplier (frame u (particle 0) t)) /\
  ~ continuity_pt (fun t => size_multiplier (frame u (particle 0) t)) 6.05.
Proof.
  cbv zeta. set (u := createPortalPulseFX 16 10).
  assert (Hph : ph (update u 6.05) = suckEnd u).
  { rewrite reachable_ph by (try apply reach_create; lra).
    unfold suckEnd. simpl. lra. }
  assert (H0 : size_multiplier (frame u (particle 0) 6.05) = 0).
  { unfold frame, main, finish. cbn [size_multiplier].
    destruct (locals_hold (update u 6.05) (particle 0)) as [_ E].
    - simpl. lra.
    - simpl. lra.
    - rewrite Hph. apply Rle_refl.
    - rewrite E. simpl. lra. }
  assert (Hs : forall t, 1.85 <= t < 6.05 ->
                 0.20 <= size_multiplier (frame u (particle 0) t)).
  { intros t Ht. unfold frame, main, finish. cbn [size_multiplier].
    apply suck_branch_size.
    - simpl. lra.
    - rewrite reachable_ph by (try apply reach_create; lra).
      unfold driftEnd, suckEnd. simpl. lra. }
  split; [exact Hph | split; [exact H0 | split; [exact Hs | ]]].
  intros Hc.
  destruct (proj1 (continuity_pt_iff _ _) Hc 0.1 ltac:(lra)) as (d & Hd & Hn).
  set (t := 6.05 - Rmin (d / 2) 1).
  assert (Hm : 0 < Rmin (d / 2) 1 <= 1).
  { split; [apply Rmin_glb_lt; lra | apply Rmin_r]. }
  assert (Hm' : Rmin (d / 2) 1 <= d / 2) by apply Rmin_l.
  specialize (Hn t). rewrite H0 in Hn.
  assert (Ht : Rabs (t - 6.05) < d).
  { unfold t. apply Rabs_def1; lra. }
  specialize (Hn Ht). apply Rabs_def2 in Hn.
  specialize (Hs t ltac:(unfold t; lra)). lra.
Qed.

(** The seams of the built-in configuration at clock values 0.75 and
    1.85, for the first particle of the pool. *)
Lemma default_drift_end_far :
  let u := createPortalPulseFX 16 10 in
  0.85 <= vlength (p (drift (update u 1.85) (particle 0) 1) - uRight u)%V.
Proof.
  cbv zeta. set (u := createPortalPulseFX 16 10).
  eapply Rle_trans; [ | exact (proj1 (component_le_vlength _))].
  unfold drift, drift_base, packed. cbv zeta.
  rewrite (seed0_dir _ particle_0_seed), (seed0_rad0 _ particle_0_seed),
    (seed0_scatter _ particle_0_seed).
  rewrite clamp01_1, smooth01_1, particle_0.
  cbn [p aSeed aEnergy]. unfold wobble. cbv zeta. vsimpl. unfold u. simpl.
  match goal with
  | |- context [sin ?x1 + sin ?x2] =>
      pose proof (SIN_bound x1); pose proof (SIN_bound x2)
  end.
  rewrite Rabs_left1; lra.
Qed.

Lemma seams_continuous_witness :
  let u := createPortalPulseFX 16 10 in
  (0 < uBurstT u /\ 0 < uDriftT u /\ 0 < uSuckT u /\ 0 < uHoldT u) /\
  (ph (update u 0.75) = burstEnd u /\
   continuity_pt (fun t => vx (position (frame u (particle 0) t))) 0.75) /\
  (ph (update u 1.85) = driftEnd u /\
   0.85 <= vlength (position (frame u (particle 0) 1.85) - uRight u)%V /\
   continuity_pt (fun t => size_multiplier (frame u (particle 0) t)) 1.85).
Proof.
  cbv zeta.
  assert (HB : 0 < uBurstT (createPortalPulseFX 16 10)) by (simpl; lra).
  assert (HD : 0 < uDriftT (createPortalPulseFX 16 10)) by (simpl; lra).
  assert (HS : 0 < uSuckT (createPortalPulseFX 16 10)) by (simpl; lra).
  assert (HH : 0 < uHoldT (createPortalPulseFX 16 10)) by (simpl; lra).
  assert (H1 : ph (update (createPortalPulseFX 16 10) 0.75)
               = burstEnd (createPortalPulseFX 16 10)).
  { rewrite reachable_ph by (try apply reach_create; lra). reflexivity. }
  assert (H2 : ph (update (createPortalPulseFX 16 10) 1.85)
               = driftEnd (createPortalPulseFX 16 10)).
  { rewrite reachable_ph by (try apply reach_create; lra).
    unfold driftEnd. simpl. lra. }
  pose proof (seams_continuous (createPortalPulseFX 16 10) (particle 0) 0.75
                HB HD HS HH) as W1.
  pose proof (seams_continuous (createPortalPulseFX 16 10) (particle 0) 1.85
                HB HD HS HH) as W2.
  cbv zeta in W1, W2.
  destruct W1 as [W1 _]. destruct W2 as [_ [W2 _]].
  destruct (W1 H1) as [W1x _].
  destruct (W2 H2) as (W2p & _ & _ & _ & W2m).
  assert (Hfar : 0.85 <= vlength (position (frame (createPortalPulseFX 16 10)
                                      (particle 0) 1.85)
                                  - uRight (createPortalPulseFX 16 10))%V).
  { rewrite W2p. exact default_drift_end_far. }
  split; [repeat split; assumption | ].
  split; [split; assumption | ].
  split; [exact H2 | split; [exact Hfar | exact (W2m Hfar)]].
Defined.

(* ================================================================= *)
(** ** A narrow view: the DRIFT->SUCK seam next to the right portal *)

Lemma PI_bounds : 3 < PI <= 4.
Proof. pose proof PI2_3_2. pose proof PI_4. lra. Qed.

Lemma INR_fact (n : nat) (z : Z) :
  Z.of_nat (fact n) = z -> INR (fact n) = IZR z.
Proof. intros <-. apply INR_IZR_INZ. Qed.

(** The alternating Taylor bounds of the sine on [[0, 3]]. *)
Lemma sin_taylor (x : R) :
  0 <= x <= 3 ->
  x - x ^ 3 / 6 + x ^ 5 / 120 - x ^ 7 / 5040 <= sin x
  <= x - x ^ 3 / 6 + x ^ 5 / 120 - x ^ 7 / 5040 + x ^ 9 / 362880.
Proof.
  intros Hx. pose proof PI_bounds as HPI.
  pose proof (SIN x ltac:(lra) ltac:(lra)) as H.
  unfold sin_lb, sin_ub, sin_approx, sum_f_R0, sin_term in H.
  change (2 * 0 + 1)%nat with 1%nat in H.
  change (2 * 1 + 1)%nat with 3%nat in H.
  change (2 * 2 + 1)%nat with 5%nat in H.
  change (2 * 3 + 1)%nat with 7%nat in H.
  change (2 * 4 + 1)%nat with 9%nat in H.
  rewrite (INR_fact 1 1), (INR_fact 3 6), (INR_fact 5 120),
    (INR_fact 7 5040), (INR_fact 9 362880) in H by (vm_compute; reflexivity).
  simpl pow in H |- *. lra.
Qed.

Lemma smoothstep_below_one (e0 e1 x : R) :
  (x - e0) / (e1 - e0) < 1 -> smoothstep e0 e1 x < 1.
Proof.
  intros H. unfold smoothstep. cbv zeta.
  set (t := clamp ((x - e0) / (e1 - e0)) 0 1).
  assert (Ht : 0 <= t < 1).
  { unfold t, clamp, Rmin, Rmax.
    destruct (Rle_dec ((x - e0) / (e1 - e0)) 0); destruct (Rle_dec _ 1); lra. }
  assert (0 < (1 - t) * (1 - t)) by (apply Rmult_lt_0_compat; lra).
  assert (0 < (1 - t) * (1 - t) * (1 + 2 * t))
    by (apply Rmult_lt_0_compat; lra).
  replace (t * t * (3 - 2 * t)) with (1 - (1 - t) * (1 - t) * (1 + 2 * t))
    by ring.
  lra.
Qed.

Lemma smoothstep_above_zero (e0 e1 x : R) :
  0 < (x - e0) / (e1 - e0) -> 0 < smoothstep e0 e1 x.
Proof.
  intros H. unfold smoothstep. cbv zeta.
  set (t := clamp ((x - e0) / (e1 - e0)) 0 1).
  assert (Ht : 0 < t <= 1).
  { unfold t, clamp, Rmin, Rmax.
    destruct (Rle_dec ((x - e0) / (e1 - e0)) 0); destruct (Rle_dec _ 1); lra. }
  assert (0 < t * t) by (apply Rmult_lt_0_compat; lra).
  apply Rmult_lt_0_compat; lra.
Qed.

Lemma locals_at_drift_end (u : Uniforms) (a : Attributes) :
  0 <= uDriftT u -> 0 < uSuckT u -> ph u = driftEnd u ->
  locals u a = suck u a 0 0 ((0 - delay a) / Rmax 1e-3 (1.0 - delay a)).
Proof.
  intros HD HS Hph. unfold locals. rewrite Hph.
  unfold burstEnd, driftEnd, suckEnd.
  destruct (Rlt_dec _ (uBurstT u)); [lra | ].
  destruct (Rlt_dec _ (uBurstT u + uDriftT u)); [lra | ].
  destruct (Rlt_dec _ (uBurstT u + uDriftT u + uSuckT u)); [ | lra].
  cbv zeta.
  replace (uBurstT u + uDriftT u - (uBurstT u + uDriftT u)) with 0 by ring.
  replace (0 / uSuckT u) with 0 by (unfold Rdiv; ring).
  replace (0 / Rmax 1e-3 (uRate u)) with 0 by (unfold Rdiv; ring).
  rewrite clamp01_0. reflexivity.
Qed.

(** A function that is 1 just before [x] and below 1 at [x] is not
    continuous at [x]. *)
Lemma drop_not_continuous (f : R -> R) (x lo : R) :
  lo < x -> (forall t, lo <= t < x -> f t = 1) -> f x < 1 ->
  ~ continuity_pt f x.
Proof.
  intros Hlo H1 Hx Hc.
  destruct (proj1 (continuity_pt_iff f x) Hc (1 - f x)) as (d & Hd & Hn);
    [lra | ].
  set (m := Rmin (d / 2) (x - lo)).
  assert (Hm : 0 < m) by (apply Rmin_glb_lt; lra).
  assert (Hm1 : m <= d / 2) by apply Rmin_l.
  assert (Hm2 : m <= x - lo) by apply Rmin_r.
  assert (Ht : Rabs (x - m - x) < d) by (apply Rabs_def1; lra).
  specialize (Hn (x - m) Ht).
  rewrite (H1 (x - m)) in Hn by lra.
  rewrite Rabs_pos_eq in Hn; lra.
Qed.

Lemma narrow_view_reachable : reachable narrow_view.
Proof.
  exact (reach_call _ (CallSetView 3.5 10) (reach_create 3.5 10)).
Qed.

(** There the first particle of the pool ends its drift within 0.70 of
    the right anchor. *)
Lemma narrow_view_start_near :
  vlength (suck_start (update narrow_view 1.85) (particle 0) 1.85
           - uRight narrow_view)%V < 0.70.
Proof.
  assert (HR : uBurstRadius narrow_view = 3.2).
  { simpl. rewrite (Rmax_left 3.2) by lra. apply Rmin_right. lra. }
  assert (HBand : uBand narrow_view = 3.0).
  { simpl. rewrite (Rmin_right 3.6) by lra. rewrite Rmax_right by lra. lra. }
  unfold suck_start, drift_base, packed. cbv zeta.
  rewrite (seed0_dir _ particle_0_seed), (seed0_rad0 _ particle_0_seed),
    (seed0_scatter _ particle_0_seed), particle_0.
  cbn [aSeed aEnergy]. usimpl. rewrite HR, HBand.
  unfold wobble. cbv zeta. vsimpl. unfold narrow_view. simpl.
  match goal with
  | |- context [sin ?x1 + sin ?x2] =>
      replace x1 with 1.82675 by lra;
      replace x2 with (Ropp 1.239975) by lra
  end.
  match goal with
  | |- context [sin ?x3 - sin ?x4] =>
      replace x3 with 2.98575 by lra;
      replace x4 with 2.051075 by lra
  end.
  rewrite sin_neg.
  pose proof (sin_taylor 1.82675 ltac:(lra)) as H1.
  pose proof (sin_taylor 1.239975 ltac:(lra)) as H2.
  pose proof (sin_taylor 2.98575 ltac:(lra)) as H3.
  pose proof (sin_taylor 2.051075 ltac:(lra)) as H4.
  simpl pow in H1, H2, H3, H4.
  pose proof (SIN_bound 1.82675) as B1. pose proof (SIN_bound 1.239975) as B2.
  pose proof (SIN_bound 2.98575) as B3.
  set (s1 := sin 1.82675) in *. set (s2 := sin 1.239975) in *.
  set (s3 := sin 2.98575) in *. set (s4 := sin 2.051075) in *.
  assert (E1 : 0.96 <= s1 <= 1) by lra.
  assert (E2 : 0.94 <= s2 <= 1) by lra.
  assert (E3 : 0.10 <= s3 <= 1) by lra.
  assert (E4 : 0 <= s4 <= 0.89) by lra.
  clear H1 H2 H3 H4 B1 B2 B3.
  set (dx := _ + (s1 + - s2) * 0.28 - 3.5 * 0.38).
  set (y := _ + (s3 - s4) * 0.28).
  assert (Hdx : -0.32 <= dx <= -0.28) by (unfold dx; lra).
  assert (Hy : -0.58 <= y <= -0.07) by (unfold y; lra).
  rewrite (clamp_id y) by lra.
  replace (mix y y 0.22 - 0) with y by (unfold mix; lra).
  unfold vlength. cbn [vx vy].
  replace 0.70 with (sqrt (0.70 * 0.70)) by (rewrite sqrt_square; lra).
  assert (0 <= dx * dx <= 0.32 * 0.32) by nra.
  assert (0 <= y * y <= 0.58 * 0.58) by nra.
  apply sqrt_lt_1; lra.
Qed.

(** So neither the opacity nor the size multiplier of that particle is
    continuous at the DRIFT->SUCK boundary: both are 1 throughout DRIFT
    and below 1 at the first instant of SUCK, where the fade and the
    shrink next to the portal already apply. *)
Lemma opacity_and_size_jump_near_portal :
  ph (update narrow_view 1.85) = driftEnd narrow_view /\
  (forall t, 0.75 <= t < 1.85 ->
     vAlpha (frame narrow_view (particle 0) t) = 1 /\
     size_multiplier (frame narrow_view (particle 0) t) = 1) /\
  vAlpha (frame narrow_view (particle 0) 1.85) < 1 /\
  size_multiplier (frame narrow_view (particle 0) 1.85) < 1 /\
  ~ continuity_pt (fun t => vAlpha (frame narrow_view (particle 0) t)) 1.85 /\
  ~ continuity_pt
      (fun t => size_multiplier (frame narrow_view (particle 0) t)) 1.85.
Proof.
  pose proof narrow_view_reachable as Hr.
  destruct (reachable_timing _ Hr) as (HB & HD & HS & HH & HR).
  assert (Hph : ph (update narrow_view 1.85) = driftEnd narrow_view).
  { rewrite reachable_ph by (try exact Hr; lra).
    unfold driftEnd. rewrite HB, HD. lra. }
  assert (Hl : forall t, 0.75 <= t < 1.85 ->
     vAlpha (frame narrow_view (particle 0) t) = 1 /\
     size_multiplier (frame narrow_view (particle 0) t) = 1).
  { intros t Ht. unfold frame, main, finish. cbn [vAlpha size_multiplier].
    apply drift_branch_locals.
    rewrite reachable_ph by (try exact Hr; lra).
    unfold burstEnd, driftEnd. usimpl. rewrite HB, HD. lra. }
  assert (H0 : vAlpha (frame narrow_view (particle 0) 1.85) < 1 /\
               size_multiplier (frame narrow_view (particle 0) 1.85) < 1).
  { unfold frame, main, finish. cbn [vAlpha size_multiplier].
    rewrite (locals_at_drift_end (update narrow_view 1.85) (particle 0));
      [ | usimpl; lra | usimpl; lra | exact Hph].
    destruct (suck_at_start (update narrow_view 1.85) (particle 0) _
                (clamp01_before_commit (particle 0))) as (_ & Sa & Sm).
    rewrite Sa, Sm. cbn [uTime update].
    pose proof narrow_view_start_near as Hd.
    change (uRight (update narrow_view 1.85)) with (uRight narrow_view).
    set (d := vlength _) in *.
    pose proof (smoothstep_below_one 0.18 0.85 d ltac:(lra)).
    pose proof (smoothstep_above_zero 0.70 0.08 d ltac:(lra)).
    unfold mix. split; lra. }
  split; [exact Hph | split; [exact Hl | ]].
  split; [exact (proj1 H0) | split; [exact (proj2 H0) | split]].
  - apply (drop_not_continuous _ 1.85 0.75); [lra | | exact (proj1 H0)].
    intros t Ht. exact (proj1 (Hl t Ht)).
  - apply (drop_not_continuous _ 1.85 0.75); [lra | | exact (proj2 H0)].
    intros t Ht. exact (proj2 (Hl t Ht)).
Qed.

(* ================================================================= *)
(** * Further properties of the code *)

(** ** The particle pool *)

Lemma hash11_range (x : R) : 0 <= hash11 x < 1.
Proof.
  unfold hash11. cbv zeta.
  pose proof (floor_spec (sin (x * 127.1) * 43758.5453123)). lra.
Qed.

Lemma Math_pow_range (x y : R) :
  0 <= x < 1 -> 0 < y -> 0 <= Math_pow x y < 1.
Proof.
  intros [H0 H1] Hy. unfold Math_pow.
  destruct (Req_dec_T x 0) as [E | E]; [lra | ].
  unfold Rpower. split.
  - left. apply exp_pos.
  - rewrite <- exp_0. apply exp_increasing.
    assert (Hln : ln x < 0) by (rewrite <- ln_1; apply ln_increasing; lra).
    assert (0 < y * (- ln x)) by (apply Rmult_lt_0_compat; lra).
    lra.
Qed.

Lemma mix_range (x y k : R) :
  x <= y -> 0 <= k -> k < 1 -> x <= mix x y k < y \/ x = y.
Proof.
  intros Hxy Hk0 Hk1. unfold mix.
  destruct (Req_dec_T x y) as [E | E]; [right; exact E | left].
  assert (0 <= (y - x) * k) by (apply Rmult_le_pos; lra).
  assert (0 < (y - x) * (1 - k)) by (apply Rmult_lt_0_compat; lra).
  lra.
Qed.

Lemma particles_length : length particles = COUNT.
Proof. unfold particles. rewrite length_map, length_seq. reflexivity. Qed.

(** X1.  The start-up loop fills the pool with 260 particles, each with
    [aSeed] and [aHueMix] in [[0, 1)], [aEnergy] in [[0.85, 1.15)] and
    [aSize] in [[7, 18)], whatever its index. *)
Theorem pool_attribute_ranges (i : nat) :
  length particles = 260%nat /\
  (forall a, In a particles <-> exists j, (j < 260)%nat /\ a = particle j) /\
  0 <= aSeed (particle i) < 1 /\
  0.85 <= aEnergy (particle i) < 1.15 /\
  7 <= aSize (particle i) < 18 /\
  0 <= aHueMix (particle i) < 1.
Proof.
  split; [exact particles_length | ].
  split.
  { intros a. unfold particles. rewrite in_map_iff. split.
    - intros (j & E & Hj). apply in_seq in Hj. exists j.
      unfold COUNT in Hj. split; [lia | symmetry; exact E].
    - intros (j & Hj & E). exists j. split; [symmetry; exact E | ].
      apply in_seq. unfold COUNT. lia. }
  unfold particle. cbv zeta. cbn [aSeed aEnergy aSize aHueMix].
  split; [apply hash11_range | ].
  split.
  { pose proof (hash11_range (INR i * 78.233)) as [H0 H1].
    destruct (mix_range 0.85 1.15 _ ltac:(lra) H0 H1); lra. }
  split; [ | apply hash11_range].
  pose proof (Math_pow_range _ 0.55 (hash11_range (INR i * 0.9182)) ltac:(lra))
    as [H0 H1].
  destruct (mix_range 7.0 18.0 _ ltac:(lra) H0 H1); lra.
Qed.

(* ================================================================= *)
(** ** The uniform block under the handlers *)

Lemma feel_clamps (w h : R) :
  2.6 <= Rmax 2.6 (Rmin 3.6 (h * 0.30)) <= 3.6 /\
  3.2 <= Rmin 4.4 (Rmax 3.2 (w * 0.18)) <= 4.4.
Proof.
  unfold Rmin, Rmax. repeat destruct (Rle_dec _ _); lra.
Qed.

Lemma reachable_invariant (u : Uniforms) :
  reachable u ->
  uLeft u = V2 (- vx (uRes u) * 0.38) 0 /\
  uRight u = V2 (vx (uRes u) * 0.38) 0 /\
  uPortalR u = Rmin (vy (uRes u)) (vx (uRes u)) * 0.22 /\
  2.6 <= uBand u <= 3.6 /\
  3.2 <= uBurstRadius u <= 4.4 /\
  uSuckWide u = 2.2 /\
  uDotGain u = 1.15.
Proof.
  induction 1 as [viewW viewH | u c Hu IH].
  - simpl. repeat split; try reflexivity; lra.
  - destruct c as [w h | t].
    + destruct IH as (_ & _ & _ & _ & _ & HW & HG).
      destruct (feel_clamps w h) as [Hb Hr].
      simpl. repeat split; try reflexivity; try assumption; lra.
    + exact IH.
Qed.



Lemma run_app (u : Uniforms) (cs cs' : list Call) :
  run u (cs ++ cs') = run (run u cs) cs'.
Proof. unfold run. apply fold_left_app. Qed.

Lemma run_reachable (u : Uniforms) (cs : list Call) :
  reachable u -> reachable (run u cs).
Proof.
  revert u. induction cs as [ | c cs IH]; intros u Hu; simpl.
  - exact Hu.
  - apply IH. apply reach_call. exact Hu.
Qed.

(** X3.  Only the last [setView] and the last [update] of a call
    sequence matter: the block after the sequence is the block before it
    with that one [setView] applied (if any) and then that one [update]
    (if any), in whatever order and number the calls came. *)
Theorem run_last_calls_win (u : Uniforms) (calls : list Call) :
  run u calls =
  let u1 := match last_view calls with
            | Some (w, h) => setView u w h
            | None => u
            end in
  match last_time calls with
  | Some t => update u1 t
  | None => u1
  end.
Proof.
  revert u. induction calls as [ | c calls IH]; intros u.
  - reflexivity.
  - change (run u (c :: calls)) with (run (call u c) calls).
    rewrite IH. simpl.
    destruct (last_view calls) as [[w h] | ];
      destruct (last_time calls) as [t | ];
      destruct c as [w' h' | t']; reflexivity.
Qed.

(* ================================================================= *)
(** ** Easing curves and the Bezier curve *)

Lemma cube_mono (x y : R) : 0 <= x <= y -> x ^ 3 <= y ^ 3.
Proof. intros H. apply pow_incr. exact H. Qed.

Lemma easeOutCubic_mono (s t : R) :
  0 <= s <= t -> t <= 1 -> easeOutCubic s <= easeOutCubic t.
Proof.
  intros Hs Ht. unfold easeOutCubic.
  pose proof (cube_mono (1 - t) (1 - s) ltac:(lra)). lra.
Qed.

Lemma smooth01_mono (s t : R) :
  0 <= s <= t -> t <= 1 -> smooth01 s <= smooth01 t.
Proof.
  intros [Hs Hst] Ht. unfold smooth01.
  assert (H1 : 0 <= (t - s) * (t * (1 - s) + s * (1 - t))).
  { apply Rmult_le_pos; [lra | ].
    assert (0 <= t * (1 - s)) by (apply Rmult_le_pos; lra).
    assert (0 <= s * (1 - t)) by (apply Rmult_le_pos; lra). lra. }
  assert (H2 : 0 <= (t - s) * (2 * t * (1 - t) + 2 * s * (1 - s))).
  { apply Rmult_le_pos; [lra | ].
    assert (0 <= t * (1 - t)) by (apply Rmult_le_pos; lra).
    assert (0 <= s * (1 - s)) by (apply Rmult_le_pos; lra). lra. }
  replace (t * t * (3 - 2 * t)) with
    (s * s * (3 - 2 * s)
     + ((t - s) * (t * (1 - s) + s * (1 - t))
        + (t - s) * (2 * t * (1 - t) + 2 * s * (1 - s)))) by ring.
  lra.
Qed.

Lemma easeInOutCubic_range (t : R) :
  0 <= t <= 1 ->
  (t < 0.5 -> 0 <= easeInOutCubic t <= 1 / 2) /\
  (0.5 <= t -> 1 / 2 <= easeInOutCubic t <= 1).
Proof.
  intros [H0 H1]. unfold easeInOutCubic. split; intros Ht.
  - destruct (Rlt_dec t 0.5); [ | lra].
    pose proof (cube_mono 0 t ltac:(lra)) as Ha.
    pose proof (cube_mono t (1 / 2) ltac:(lra)) as Hb.
    simpl in Ha, Hb. lra.
  - destruct (Rlt_dec t 0.5); [lra | ].
    pose proof (cube_mono 0 (- 2 * t + 2) ltac:(lra)) as Ha.
    pose proof (cube_mono (- 2 * t + 2) 1 ltac:(lra)) as Hb.
    simpl in Ha, Hb. simpl. lra.
Qed.

Lemma easeInOutCubic_mono (s t : R) :
  0 <= s <= t -> t <= 1 -> easeInOutCubic s <= easeInOutCubic t.
Proof.
  intros [Hs Hst] Ht.
  destruct (Rlt_dec s 0.5) as [Hs5 | Hs5]; destruct (Rlt_dec t 0.5) as [Ht5 | Ht5].
  - unfold easeInOutCubic.
    destruct (Rlt_dec s 0.5); [ | lra]. destruct (Rlt_dec t 0.5); [ | lra].
    pose proof (cube_mono s t ltac:(lra)) as H. simpl in H. lra.
  - pose proof (proj1 (easeInOutCubic_range s ltac:(lra)) Hs5).
    pose proof (proj2 (easeInOutCubic_range t ltac:(lra)) ltac:(lra)).
    lra.
  - lra.
  - unfold easeInOutCubic.
    destruct (Rlt_dec s 0.5); [lra | ]. destruct (Rlt_dec t 0.5); [lra | ].
    pose proof (cube_mono (- 2 * t + 2) (- 2 * s + 2) ltac:(lra)) as H.
    simpl in H. simpl. lra.
Qed.

(** X4.  The three easing curves of the vertex shader ([easeOutCubic],
    [smooth01], [easeInOutCubic]) start at 0, end at 1 and never
    decrease on [[0, 1]], so an eased progress stays in [[0, 1]] and
    never runs backwards. *)
Theorem easings_monotone (s t : R) :
  0 <= s <= t -> t <= 1 ->
  (easeOutCubic 0 = 0 /\ easeOutCubic 1 = 1 /\
   easeOutCubic s <= easeOutCubic t) /\
  (smooth01 0 = 0 /\ smooth01 1 = 1 /\ smooth01 s <= smooth01 t) /\
  (easeInOutCubic 0 = 0 /\ easeInOutCubic 1 = 1 /\
   easeInOutCubic s <= easeInOutCubic t).
Proof.
  intros Hs Ht.
  split; [ | split].
  - split; [apply easeOutCubic_0 | split; [apply easeOutCubic_1 | ]].
    apply easeOutCubic_mono; assumption.
  - split; [apply smooth01_0 | split; [apply smooth01_1 | ]].
    apply smooth01_mono; assumption.
  - split; [apply easeInOutCubic_0 | split; [apply easeInOutCubic_1 | ]].
    apply easeInOutCubic_mono; assumption.
Qed.

Lemma easings_monotone_witness :
  0 <= 0.25 <= 0.75 /\ 0.75 <= 1 /\
  easeInOutCubic 0.25 <= easeInOutCubic 0.75.
Proof.
  assert (H1 : 0 <= 0.25 <= 0.75) by lra.
  assert (H2 : 0.75 <= 1) by lra.
  split; [exact H1 | split; [exact H2 | ]].
  exact (proj2 (proj2 (proj2 (proj2 (easings_monotone 0.25 0.75 H1 H2))))).
Defined.

Lemma bezier_weights (t : R) :
  0 <= t <= 1 ->
  let s := 1 - t in
  0 <= s * s * s /\ 0 <= 3 * s * s * t /\ 0 <= 3 * s * t * t /\
  0 <= t * t * t /\
  s * s * s + 3 * s * s * t + 3 * s * t * t + t * t * t = 1.
Proof.
  intros [H0 H1] s.
  assert (Hs : 0 <= s) by (unfold s; lra).
  assert (0 <= s * s) by (apply Rmult_le_pos; assumption).
  assert (0 <= t * t) by (apply Rmult_le_pos; assumption).
  assert (0 <= s * t) by (apply Rmult_le_pos; assumption).
  repeat split.
  - apply Rmult_le_pos; assumption.
  - replace (3 * s * s * t) with (3 * ((s * s) * t)) by ring.
    apply Rmult_le_pos; [lra | apply Rmult_le_pos; assumption].
  - replace (3 * s * t * t) with (3 * ((s * t) * t)) by ring.
    apply Rmult_le_pos; [lra | apply Rmult_le_pos; assumption].
  - apply Rmult_le_pos; assumption.
  - unfold s. ring.
Qed.

Lemma weighted_mean_bounds (w1 w2 w3 w4 x1 x2 x3 x4 lo hi : R) :
  0 <= w1 -> 0 <= w2 -> 0 <= w3 -> 0 <= w4 -> w1 + w2 + w3 + w4 = 1 ->
  lo <= x1 <= hi -> lo <= x2 <= hi -> lo <= x3 <= hi -> lo <= x4 <= hi ->
  lo <= x1 * w1 + x2 * w2 + x3 * w3 + x4 * w4 <= hi.
Proof.
  intros H1 H2 H3 H4 Hsum B1 B2 B3 B4.
  assert (0 <= (x1 - lo) * w1) by (apply Rmult_le_pos; lra).
  assert (0 <= (x2 - lo) * w2) by (apply Rmult_le_pos; lra).
  assert (0 <= (x3 - lo) * w3) by (apply Rmult_le_pos; lra).
  assert (0 <= (x4 - lo) * w4) by (apply Rmult_le_pos; lra).
  assert (0 <= (hi - x1) * w1) by (apply Rmult_le_pos; lra).
  assert (0 <= (hi - x2) * w2) by (apply Rmult_le_pos; lra).
  assert (0 <= (hi - x3) * w3) by (apply Rmult_le_pos; lra).
  assert (0 <= (hi - x4) * w4) by (apply Rmult_le_pos; lra).
  assert (lo * (w1 + w2 + w3 + w4) = lo) by (rewrite Hsum; ring).
  assert (hi * (w1 + w2 + w3 + w4) = hi) by (rewrite Hsum; ring).
  split; lra.
Qed.

(** X5.  [bezier] starts at its first control point, ends at its last,
    and for a parameter in [[0, 1]] stays inside the bounding box of its
    four control points. *)
Theorem bezier_in_control_box (a b c d : vec2) (t xlo xhi ylo yhi : R) :
  0 <= t <= 1 ->
  xlo <= vx a <= xhi -> xlo <= vx b <= xhi ->
  xlo <= vx c <= xhi -> xlo <= vx d <= xhi ->
  ylo <= vy a <= yhi -> ylo <= vy b <= yhi ->
  ylo <= vy c <= yhi -> ylo <= vy d <= yhi ->
  bezier a b c d 0 = a /\ bezier a b c d 1 = d /\
  xlo <= vx (bezier a b c d t) <= xhi /\
  ylo <= vy (bezier a b c d t) <= yhi.
Proof.
  intros Ht Xa Xb Xc Xd Ya Yb Yc Yd.
  split; [ | split].
  - unfold bezier. cbv zeta. destruct a as [ax ay]. vsimpl.
    apply vec2_eq; ring.
  - unfold bezier. cbv zeta. destruct d as [dx dy]. vsimpl.
    apply vec2_eq; ring.
  - destruct (bezier_weights t Ht) as (W1 & W2 & W3 & W4 & Wsum).
    unfold bezier. cbv zeta. vsimpl.
    split; apply weighted_mean_bounds; assumption.
Qed.

Lemma bezier_in_control_box_witness :
  0 <= 0.5 <= 1 /\
  0 <= vx (bezier (V2 0 0) (V2 1 2) (V2 2 (-1)) (V2 3 0) 0.5) <= 3.
Proof.
  assert (Ht : 0 <= 0.5 <= 1) by lra.
  split; [exact Ht | ].
  refine (proj1 (proj2 (proj2
    (bezier_in_control_box (V2 0 0) (V2 1 2) (V2 2 (-1)) (V2 3 0) 0.5
       0 3 (-1) 2 Ht _ _ _ _ _ _ _ _)))); simpl; lra.
Defined.

(* ================================================================= *)
(** ** Seed-derived quantities, the wobble and the point size *)

Lemma dir_unit (a : Attributes) : vlength (dir a) = 1.
Proof.
  unfold vlength, dir. cbn [vx vy].
  pose proof (sin2_cos2 (ang a)) as H. unfold Rsqr in H.
  replace (cos (ang a) * cos (ang a) + sin (ang a) * sin (ang a)) with 1 by lra.
  apply sqrt_1.
Qed.

(** X6.  Whatever the seed, the radial direction is a unit vector, the
    commit delay lies in [[0.05, 0.60)], and the scatter offset has both
    coordinates within 1.2. *)
Theorem seed_derived_ranges (a : Attributes) :
  vlength (dir a) = 1 /\
  0.05 <= delay a < 0.60 /\
  (-1 <= rx a < 1 /\ -1 <= ry a < 1) /\
  (Rabs (vx (scatter a)) <= 1.2 /\ Rabs (vy (scatter a)) <= 1.2).
Proof.
  split; [apply dir_unit | ].
  split; [apply delay_range | ].
  split.
  - unfold rx, ry.
    pose proof (hash_range (aSeed a * 201.3)).
    pose proof (hash_range (aSeed a * 413.7)). lra.
  - destruct (scatter_range a) as [Hx Hy].
    split; apply Rabs_le; lra.
Qed.

Lemma wobble_bounded (q : vec2) (t : R) :
  -2 <= vx (wobble q t) <= 2 /\ -2 <= vy (wobble q t) <= 2.
Proof.
  unfold wobble. cbv zeta. cbn [vx vy].
  repeat match goal with
  | |- context [sin ?x] =>
      lazymatch goal with
      | _ : -1 <= sin x <= 1 |- _ => fail
      | _ => pose proof (SIN_bound x)
      end
  end.
  split; lra.
Qed.

Lemma scaled_bound (w k m : R) :
  - m <= w <= m -> 0 <= k <= 1 -> - m <= w * k <= m.
Proof.
  intros [H1 H2] [K0 K1].
  assert (0 <= (m - w) * k) by (apply Rmult_le_pos; lra).
  assert (0 <= (m + w) * k) by (apply Rmult_le_pos; lra).
  assert (0 <= m * (1 - k)) by (apply Rmult_le_pos; lra).
  lra.
Qed.

Lemma mix_toward_clamp (y b k : R) :
  0 <= b -> 0 <= k <= 1 ->
  Rabs (mix y (clamp y (- b) b) k) <= Rabs y /\
  (Rabs y <= b -> mix y (clamp y (- b) b) k = y).
Proof.
  intros Hb [K0 K1]. unfold mix, clamp, Rmin, Rmax, Rabs.
  destruct (Rle_dec y (- b)); destruct (Rle_dec _ b);
    destruct (Rcase_abs y); destruct (Rcase_abs _);
    split; intros; nra.
Qed.

(** X7.  During DRIFT a particle stays by the cloud position [base] the
    burst heads for: the x coordinate is within 0.56 of it (the wobble),
    the band clamp only pulls towards the axis, so the distance from the
    axis is at most that of [base] plus 0.56, and when the band is wide
    enough to hold [base] with that margin the clamp changes nothing and
    the y coordinate is within 0.56 of [base] as well.  Opacity and size
    multiplier are 1. *)
Theorem drift_stays_near_base (u : Uniforms) (a : Attributes) (q : R) :
  0 <= uBand u ->
  let l := drift u a q in
  Rabs (vx (p l) - vx (drift_base u a)) <= 0.56 /\
  Rabs (vy (p l)) <= Rabs (vy (drift_base u a)) + 0.56 /\
  (Rabs (vy (drift_base u a)) + 0.56 <= uBand u ->
   Rabs (vy (p l) - vy (drift_base u a)) <= 0.56) /\
  alpha l = 1 /\ sizeMul l = 1.
Proof.
  intros Hb l. unfold l, drift. cbv zeta. cbn [p alpha sizeMul].
  set (base := drift_base u a).
  set (w := wobble (base * 0.55)%V (uTime u + aSeed a * 10.0)).
  set (e := smooth01 (clamp01 q)).
  assert (He : 0 <= e <= 1)
    by (apply smooth01_range; apply clamp01_range).
  destruct (wobble_bounded (base * 0.55)%V (uTime u + aSeed a * 10.0))
    as [Wx Wy]. fold w in Wx, Wy.
  assert (Hk : 0 <= 0.28 * e <= 0.28) by lra.
  assert (Hx : -0.56 <= vx w * (0.28 * e) <= 0.56).
  { assert (0 <= (2 - vx w) * (0.28 * e)) by (apply Rmult_le_pos; lra).
    assert (0 <= (2 + vx w) * (0.28 * e)) by (apply Rmult_le_pos; lra). lra. }
  assert (Hy : -0.56 <= vy w * (0.28 * e) <= 0.56).
  { assert (0 <= (2 - vy w) * (0.28 * e)) by (apply Rmult_le_pos; lra).
    assert (0 <= (2 + vy w) * (0.28 * e)) by (apply Rmult_le_pos; lra). lra. }
  vsimpl.
  set (y0 := vy base + vy w * (0.28 * e)) in *.
  destruct (mix_toward_clamp y0 (uBand u) (0.22 * e) Hb ltac:(lra))
    as [Hm Hin].
  assert (Hy0 : Rabs y0 <= Rabs (vy base) + 0.56).
  { unfold y0. eapply Rle_trans; [apply Rabs_triang | ].
    assert (Rabs (vy w * (0.28 * e)) <= 0.56) by (apply Rabs_le; lra). lra. }
  split; [apply Rabs_le; lra | ].
  split; [lra | ].
  split; [ | split; lra].
  intros Hband. rewrite Hin by lra.
  unfold y0. apply Rabs_le. lra.
Qed.

Lemma drift_stays_near_base_witness :
  0 <= uBand (createPortalPulseFX 16 10) /\
  Rabs (vx (p (drift (createPortalPulseFX 16 10) (particle 0) 0.5))
        - vx (drift_base (createPortalPulseFX 16 10) (particle 0))) <= 0.56.
Proof.
  assert (H : 0 <= uBand (createPortalPulseFX 16 10)) by (simpl; lra).
  split; [exact H | ].
  exact (proj1 (drift_stays_near_base (createPortalPulseFX 16 10)
                  (particle 0) 0.5 H)).
Defined.

Lemma pulse_range (u : Uniforms) (a : Attributes) : 0.74 <= pulse u a <= 1.10.
Proof.
  unfold pulse. pose proof (SIN_bound (uTime u * 1.25 + aSeed a * 12.0)). lra.
Qed.

Lemma particle_size_range (i : nat) : 7 <= aSize (particle i) < 18.
Proof.
  unfold particle. cbv zeta. cbn [aSize].
  pose proof (Math_pow_range _ 0.55 (hash11_range (INR i * 0.9182)) ltac:(lra))
    as [H0 H1].
  destruct (mix_range 7.0 18.0 _ ltac:(lra) H0 H1); lra.
Qed.

Lemma point_size_formula (u : Uniforms) (a : Attributes) :
  gl_PointSize (main u a)
  = aSize a * uDotGain u * pulse u a * size_multiplier (main u a).
Proof. reflexivity. Qed.

(** X8.  In every state the handlers reach, the point size of a pool
    particle is its base size times the dot gain, shimmering between
    0.74 and 1.10 of that, times the size multiplier: it is never
    negative, never above 22.77, and exactly 0 in HOLD. *)
Theorem point_size_bounded (u : Uniforms) (i : nat) :
  reachable u ->
  let v := main u (particle i) in
  gl_PointSize v
  = aSize (particle i) * 1.15 * pulse u (particle i) * size_multiplier v /\
  0.74 <= pulse u (particle i) <= 1.10 /\
  0 <= gl_PointSize v <= 22.77 /\
  (branch u = HOLD -> gl_PointSize v = 0).
Proof.
  intros Hr v.
  destruct (reachable_invariant u Hr) as (_ & _ & _ & _ & _ & _ & HG).
  pose proof (pulse_range u (particle i)) as Hp.
  pose proof (particle_size_range i) as Hs.
  destruct (locals_bounds u (particle i)) as [_ Hm].
  assert (E : gl_PointSize v
              = aSize (particle i) * 1.15 * pulse u (particle i)
                * size_multiplier v).
  { unfold v. rewrite point_size_formula, HG. reflexivity. }
  split; [exact E | split; [exact Hp | ]].
  assert (Hm' : 0 <= size_multiplier v <= 1) by exact Hm.
  set (m := size_multiplier v) in *.
  set (s := aSize (particle i)) in *. set (k := pulse u (particle i)) in *.
  split.
  - rewrite E.
    assert (0 <= s * 1.15 * k) by (apply Rmult_le_pos; nra).
    assert (s * 1.15 * k <= 18 * 1.15 * 1.10) by nra.
    assert (0 <= s * 1.15 * k * m) by (apply Rmult_le_pos; lra).
    assert (0 <= s * 1.15 * k * (1 - m)) by (apply Rmult_le_pos; lra).
    lra.
  - intros Hb. rewrite E. unfold m, v, main, finish. cbn [size_multiplier].
    rewrite locals_by_branch, Hb. simpl. lra.
Qed.

Lemma point_size_bounded_witness :
  reachable (createPortalPulseFX 16 10) /\
  0 <= gl_PointSize (main (createPortalPulseFX 16 10) (particle 7)) <= 22.77.
Proof.
  split; [apply reach_create | ].
  exact (proj1 (proj2 (proj2
    (point_size_bounded (createPortalPulseFX 16 10) 7 (reach_create 16 10))))).
Defined.

(* ================================================================= *)
(** ** Inside the SUCK branch *)

Lemma locals_in_suck (u : Uniforms) (a : Attributes) :
  branch u = SUCK ->
  locals u a
  = suck u a (suck_tS u) (uTime u - tBoundary u)
      ((suck_tS u - delay a) / Rmax 1e-3 (1.0 - delay a)).
Proof.
  intros Hb. rewrite locals_by_branch, Hb. cbv zeta.
  unfold suck_tS, tBoundary. f_equal. ring.
Qed.

Lemma commit_divisor (a : Attributes) :
  Rmax 1e-3 (1.0 - delay a) = 1 - delay a /\ 0.4 < 1 - delay a <= 0.95.
Proof.
  pose proof (delay_range a). rewrite Rmax_right by lra. lra.
Qed.

Lemma clamp01_mono (x y : R) : x <= y -> clamp01 x <= clamp01 y.
Proof.
  intros H. unfold clamp01, clamp, Rmin, Rmax.
  repeat destruct (Rle_dec _ _); lra.
Qed.

Lemma clamp01_zero_iff (x : R) : clamp01 x = 0 <-> x <= 0.
Proof.
  unfold clamp01, clamp, Rmin, Rmax.
  repeat destruct (Rle_dec _ _); split; intros; lra.
Qed.

Lemma clamp01_one_iff (x : R) : clamp01 x = 1 <-> 1 <= x.
Proof.
  unfold clamp01, clamp, Rmin, Rmax.
  repeat destruct (Rle_dec _ _); split; intros; lra.
Qed.

Lemma quotient_sign (x m : R) : 0 < m -> (x / m <= 0 <-> x <= 0).
Proof.
  intros Hm. assert (Hi : 0 < / m) by (apply Rinv_0_lt_compat; exact Hm).
  unfold Rdiv. split; intros H.
  - assert (x = (x * / m) * m) by (field; lra). nra.
  - nra.
Qed.

Lemma quotient_ge_one (x m : R) : 0 < m -> (1 <= x / m <-> m <= x).
Proof.
  intros Hm. assert (Hi : 0 < / m) by (apply Rinv_0_lt_compat; exact Hm).
  assert (E : x = (x / m) * m) by (field; lra).
  split; intros H.
  - rewrite E. nra.
  - assert (m * / m = 1) by (field; lra). unfold Rdiv. nra.
Qed.

(** X9.  The commit is staggered by the per-particle delay: over the
    SUCK progress [tS] in [[0, 1]] a particle's local progress is 0
    exactly until [tS] reaches its delay, reaches 1 exactly at [tS = 1],
    never decreases, and at every [tS] is no larger than that of a
    particle with a smaller delay. *)
Theorem commit_is_staggered (a a' : Attributes) (tS tS' : R) :
  0 <= tS <= 1 ->
  (suck_local a tS = 0 <-> tS <= delay a) /\
  (suck_local a tS = 1 <-> tS = 1) /\
  (tS <= tS' -> suck_local a tS <= suck_local a tS') /\
  (delay a <= delay a' -> suck_local a' tS <= suck_local a tS).
Proof.
  intros Ht.
  destruct (commit_divisor a) as [Em Hm].
  destruct (commit_divisor a') as [Em' Hm'].
  unfold suck_local. rewrite Em, Em'.
  split; [ | split; [ | split]].
  - rewrite clamp01_zero_iff, quotient_sign by lra. split; lra.
  - rewrite clamp01_one_iff, quotient_ge_one by lra. split; lra.
  - intros Hle. apply clamp01_mono.
    unfold Rdiv. apply Rmult_le_compat_r; [ | lra].
    left. apply Rinv_0_lt_compat. lra.
  - intros Hd. apply clamp01_mono.
    set (m := 1 - delay a) in *. set (m' := 1 - delay a') in *.
    replace (tS - delay a') with (m' - (1 - tS)) by (unfold m'; ring).
    replace (tS - delay a) with (m - (1 - tS)) by (unfold m; ring).
    replace ((m' - (1 - tS)) / m') with (1 - (1 - tS) * / m') by (field; lra).
    replace ((m - (1 - tS)) / m) with (1 - (1 - tS) * / m) by (field; lra).
    assert (Hinv : / m <= / m')
      by (apply Rinv_le_contravar; unfold m, m' in *; lra).
    assert ((1 - tS) * / m <= (1 - tS) * / m')
      by (apply Rmult_le_compat_l; lra).
    lra.
Qed.

Lemma commit_is_staggered_witness :
  0 <= 0.03 <= 1 /\ suck_local (particle 0) 0.03 = 0.
Proof.
  assert (H : 0 <= 0.03 <= 1) by lra.
  split; [exact H | ].
  apply (proj1 (commit_is_staggered (particle 0) (particle 0) 0.03 0.03 H)).
  rewrite (seed0_delay _ particle_0_seed). lra.
Defined.

Lemma spiralAmt_uncommitted (tS : R) : spiralAmt tS 0 = 0.
Proof.
  unfold spiralAmt. cbv zeta.
  rewrite (smoothstep_zero 0.02 0.20 0) by lra. lra.
Qed.

Lemma suck_curve_uncommitted (u : Uniforms) (a : Attributes) (c : vec2) :
  suck_curve u a c 0 = c.
Proof.
  unfold suck_curve, bezier. cbv zeta.
  rewrite easeInOutCubic_0, (smoothstep_zero 0.0 0.08 0) by lra.
  destruct c as [cx' cy']. vsimpl. unfold mix. apply vec2_eq; lra.
Qed.

(** X10.  Until a particle commits (while the SUCK progress has not
    reached its delay) only the capture pull acts on it: it sits on the
    segment from its start position to the right anchor, the fraction
    [0.06 * uSuckWide * smooth01 tS] of the way along; the curve and the
    spiral contribute nothing, and its opacity is only reduced by the
    fade next to the portal.  (Where the start position is the right
    anchor itself the shader normalises a zero vector; the equation then
    rests on the total division of the model.) *)
Theorem before_commit_only_capture (u : Uniforms) (a : Attributes) :
  branch u = SUCK -> suck_tS u <= delay a ->
  let start := suck_start u a (tBoundary u) in
  let v := main u a in
  position v
  = (start + (uRight u - start) * (0.06 * uSuckWide u * smooth01 (suck_tS u)))%V
  /\
  vAlpha v
  = 1 - 0.92 * smoothstep 0.70 0.08 (vlength (position v - uRight u)%V).
Proof.
  intros Hb Hd start v.
  assert (Hl : clamp01 ((suck_tS u - delay a) / Rmax 1e-3 (1.0 - delay a)) = 0).
  { destruct (commit_divisor a) as [Em Hm]. rewrite Em.
    apply clamp01_zero_iff. apply quotient_sign; lra. }
  assert (Hp : position v
    = (start + (uRight u - start)
               * (0.06 * uSuckWide u * smooth01 (suck_tS u)))%V).
  { unfold v, main, finish. cbn [position].
    rewrite (locals_in_suck u a Hb). unfold suck. cbv zeta. cbn [p].
    rewrite Hl, spiralAmt_uncommitted, suck_spiral_null,
      suck_curve_uncommitted, suck_capture_eq.
    replace (uTime u - (uTime u - tBoundary u)) with (tBoundary u) by ring.
    fold start. destruct start as [sx sy]. vsimpl.
    apply vec2_eq; ring. }
  split; [exact Hp | ].
  rewrite Hp. unfold v, main, finish. cbn [vAlpha].
  rewrite (locals_in_suck u a Hb). unfold suck. cbv zeta. cbn [alpha].
  rewrite Hl, spiralAmt_uncommitted, suck_spiral_null,
    suck_curve_uncommitted, suck_capture_eq.
  replace (uTime u - (uTime u - tBoundary u)) with (tBoundary u) by ring.
  fold start. unfold suck_alpha. cbv zeta.
  rewrite (smoothstep_zero 0.35 0.80 0) by lra.
  replace (start + (uRight u - start) * 0.06 * uSuckWide u
                   * smooth01 (suck_tS u))%V
    with (start + (uRight u - start)
                  * (0.06 * uSuckWide u * smooth01 (suck_tS u)))%V.
  - lra.
  - destruct start as [sx sy]. vsimpl. apply vec2_eq; ring.
Qed.

(** X11.  The per-particle fade of SUCK: with [fade] the smoothstep of
    the local progress between 0.35 and 0.80, the opacity lies between
    [0.08 * (1 - fade)] and [1 - fade]; so it is at least 0.08 while the
    local progress is at most 0.35, and exactly 0 once it reaches
    0.80. *)
Theorem suck_fade_window (u : Uniforms) (a : Attributes) :
  branch u = SUCK ->
  let local := suck_local a (suck_tS u) in
  let fade := smoothstep 0.35 0.80 local in
  0.08 * (1 - fade) <= vAlpha (main u a) <= 1 - fade /\
  (local <= 0.35 -> 0.08 <= vAlpha (main u a)) /\
  (0.80 <= local -> vAlpha (main u a) = 0).
Proof.
  intros Hb local fade.
  assert (E : exists n, 0 <= n <= 1 /\
                vAlpha (main u a) = (1.0 - fade) * (1.0 - 0.92 * n)).
  { unfold main, finish. cbn [vAlpha]. rewrite (locals_in_suck u a Hb).
    unfold suck. cbv zeta. cbn [alpha]. unfold suck_alpha. cbv zeta.
    fold (suck_local a (suck_tS u)). fold local. fold fade.
    eexists. split; [ | reflexivity]. apply smoothstep_range. }
  destruct E as (n & Hn & E).
  pose proof (smoothstep_range 0.35 0.80 local) as Hf. fold fade in Hf.
  assert (H1 : 0 <= (1 - fade) * n) by (apply Rmult_le_pos; lra).
  assert (H2 : 0 <= (1 - fade) * (1 - n)) by (apply Rmult_le_pos; lra).
  split; [rewrite E; split; lra | ].
  split.
  - intros Hl. unfold fade in *.
    rewrite (smoothstep_zero 0.35 0.80 local) in * by lra. rewrite E. lra.
  - intros Hl. unfold fade in *.
    rewrite (smoothstep_one 0.35 0.80 local) in * by lra. rewrite E. lra.
Qed.

Lemma default_suck_branch (t : R) :
  1.85 <= t < 6.05 ->
  branch (update (createPortalPulseFX 16 10) t) = SUCK /\
  ph (update (createPortalPulseFX 16 10) t) = t.
Proof.
  intros Ht.
  assert (Hph : ph (update (createPortalPulseFX 16 10) t) = t)
    by (apply reachable_ph; [apply reach_create | lra]).
  split; [ | exact Hph].
  unfold branch. rewrite Hph. unfold burstEnd, driftEnd, suckEnd. simpl.
  destruct (Rlt_dec t 0.75); [lra | ].
  destruct (Rlt_dec t (0.75 + 1.10)); [lra | ].
  destruct (Rlt_dec t (0.75 + 1.10 + 4.20)); [reflexivity | lra].
Qed.

Lemma before_commit_only_capture_witness :
  branch (update (createPortalPulseFX 16 10) 1.95) = SUCK /\
  suck_tS (update (createPortalPulseFX 16 10) 1.95) <= delay (particle 0) /\
  vAlpha (main (update (createPortalPulseFX 16 10) 1.95) (particle 0))
  = 1 - 0.92 * smoothstep 0.70 0.08
        (vlength (position (main (update (createPortalPulseFX 16 10) 1.95)
                              (particle 0))
                  - uRight (update (createPortalPulseFX 16 10) 1.95))%V).
Proof.
  destruct (default_suck_branch 1.95 ltac:(lra)) as [Hb Hph].
  assert (Hd : suck_tS (update (createPortalPulseFX 16 10) 1.95)
               <= delay (particle 0)).
  { unfold suck_tS. rewrite Hph, (seed0_delay _ particle_0_seed).
    unfold driftEnd. simpl. unfold clamp01. rewrite clamp_id; lra. }
  split; [exact Hb | split; [exact Hd | ]].
  exact (proj2 (before_commit_only_capture _ (particle 0) Hb Hd)).
Defined.

Lemma suck_fade_window_witness :
  branch (update (createPortalPulseFX 16 10) 3) = SUCK /\
  vAlpha (main (update (createPortalPulseFX 16 10) 3) (particle 0))
  <= 1 - smoothstep 0.35 0.80
           (suck_local (particle 0)
              (suck_tS (update (createPortalPulseFX 16 10) 3))).
Proof.
  destruct (default_suck_branch 3 ltac:(lra)) as [Hb _].
  split; [exact Hb | ].
  exact (proj2 (proj1 (suck_fade_window _ (particle 0) Hb))).
Defined.

(* ================================================================= *)
(** ** The phase over the clock *)

Lemma floor_add_int (x : R) (k : Z) : floor (x + IZR k) = floor x + IZR k.
Proof.
  pose proof (floor_spec x) as Hx. unfold floor in *.
  rewrite <- plus_IZR. apply (floor_unique (x + IZR k) (Int_part x + k)).
  rewrite plus_IZR. lra.
Qed.

Lemma fmod_add_periods (x y : R) (k : Z) :
  y <> 0 -> fmod (x + IZR k * y) y = fmod x y.
Proof.
  intros Hy. unfold fmod.
  replace ((x + IZR k * y) / y) with (x / y + IZR k) by (field; exact Hy).
  rewrite floor_add_int. ring.
Qed.

(** The phase moves linearly with the clock as long as it stays inside
    the cycle. *)
Lemma ph_shift (u : Uniforms) (t0 t : R) :
  0 < cycle u ->
  0 <= ph (update u t0) + (t - t0) * uRate u < cycle u ->
  ph (update u t) = ph (update u t0) + (t - t0) * uRate u.
Proof.
  intros Hc. unfold ph, T. cbn [uTime uRate update].
  change (cycle (update u t)) with (cycle u).
  change (cycle (update u t0)) with (cycle u).
  set (c := cycle u) in *. set (r := uRate u).
  unfold fmod. set (k := Int_part (t0 * r / c)).
  change (floor (t0 * r / c)) with (IZR k).
  intros [Hlo Hhi].
  rewrite (floor_unique (t * r / c) k); [ring | ].
  set (y := t * r / c).
  assert (Hy : t * r = c * y) by (unfold y; field; lra).
  assert (H1 : c * IZR k <= c * y) by lra.
  assert (H2 : c * y < c * (IZR k + 1)) by lra.
  split.
  - apply (Rmult_le_reg_l c); assumption.
  - apply (Rmult_lt_reg_l c); assumption.
Qed.

(** X12.  With a rate of at least [1e-3], [tBoundary] is frozen during
    SUCK: from the clock value [t0] at which the phase is [driftEnd]
    until the SUCK duration has passed, the branch is SUCK and
    [tBoundary] is [t0], so the start position is the same
    [suck_start] sampled at [t0] for the whole phase. *)
Theorem suck_start_is_frozen (u : Uniforms) (a : Attributes) (t0 t : R) :
  timing_ok u -> 1e-3 <= uRate u ->
  ph (update u t0) = driftEnd u ->
  0 <= (t - t0) * uRate u < uSuckT u ->
  branch (update u t) = SUCK /\
  tBoundary (update u t) = t0 /\
  suck_start (update u t) a (tBoundary (update u t)) = suck_start u a t0.
Proof.
  intros (HB & HD & HS & HH & Hc) Hr Hph Hd.
  assert (E : ph (update u t) = driftEnd u + (t - t0) * uRate u).
  { rewrite <- Hph. apply ph_shift; [exact Hc | ].
    rewrite Hph. unfold driftEnd, cycle in *. lra. }
  assert (Hb : branch (update u t) = SUCK).
  { unfold branch. rewrite E.
    change (burstEnd (update u t)) with (burstEnd u).
    change (driftEnd (update u t)) with (driftEnd u).
    change (suckEnd (update u t)) with (suckEnd u).
    unfold burstEnd, driftEnd, suckEnd.
    destruct (Rlt_dec _ (uBurstT u)); [lra | ].
    destruct (Rlt_dec _ (uBurstT u + uDriftT u)); [lra | ].
    destruct (Rlt_dec _ (uBurstT u + uDriftT u + uSuckT u));
      [reflexivity | lra]. }
  assert (Et : tBoundary (update u t) = t0).
  { unfold tBoundary. rewrite E.
    change (driftEnd (update u t)) with (driftEnd u).
    cbn [uTime uRate update]. rewrite Rmax_right by lra.
    field. lra. }
  split; [exact Hb | split; [exact Et | ]].
  rewrite Et. reflexivity.
Qed.

Lemma suck_start_is_frozen_witness :
  timing_ok (createPortalPulseFX 16 10) /\
  1e-3 <= uRate (createPortalPulseFX 16 10) /\
  ph (update (createPortalPulseFX 16 10) 1.85)
  = driftEnd (createPortalPulseFX 16 10) /\
  0 <= (3 - 1.85) * uRate (createPortalPulseFX 16 10)
    < uSuckT (createPortalPulseFX 16 10) /\
  tBoundary (update (createPortalPulseFX 16 10) 3) = 1.85.
Proof.
  assert (H1 : timing_ok (createPortalPulseFX 16 10))
    by (unfold timing_ok, cycle; simpl; lra).
  assert (H2 : 1e-3 <= uRate (createPortalPulseFX 16 10)) by (simpl; lra).
  assert (H3 : ph (update (createPortalPulseFX 16 10) 1.85)
               = driftEnd (createPortalPulseFX 16 10)).
  { rewrite reachable_ph by (try apply reach_create; lra).
    unfold driftEnd. simpl. lra. }
  assert (H4 : 0 <= (3 - 1.85) * uRate (createPortalPulseFX 16 10)
               < uSuckT (createPortalPulseFX 16 10)) by (simpl; lra).
  split; [exact H1 | split; [exact H2 | split; [exact H3 | split; [exact H4 | ]]]].
  exact (proj1 (proj2 (suck_start_is_frozen (createPortalPulseFX 16 10)
                         (particle 0) 1.85 3 H1 H2 H3 H4))).
Defined.

(** X13.  The phase is periodic in the clock with period
    [cycle / uRate]: any whole number of periods later the phase and the
    selected branch are the same, and in BURST and in HOLD, which do not
    read the clock otherwise, so are the position, opacity and size
    multiplier. *)
Theorem phase_is_periodic (u : Uniforms) (a : Attributes) (t : R) (k : Z) :
  cycle u <> 0 -> uRate u <> 0 ->
  let t' := t + IZR k * (cycle u / uRate u) in
  ph (update u t') = ph (update u t) /\
  branch (update u t') = branch (update u t) /\
  (branch (update u t) = BURST \/ branch (update u t) = HOLD ->
   locals (update u t') a = locals (update u t) a).
Proof.
  intros Hc Hr t'.
  assert (E : ph (update u t') = ph (update u t)).
  { unfold ph, T. cbn [uTime uRate update].
    change (cycle (update u t')) with (cycle u).
    change (cycle (update u t)) with (cycle u).
    replace (t' * uRate u) with (t * uRate u + IZR k * cycle u)
      by (unfold t'; field; exact Hr).
    apply fmod_add_periods. exact Hc. }
  assert (Eb : branch (update u t') = branch (update u t)).
  { unfold branch. rewrite E. reflexivity. }
  split; [exact E | split; [exact Eb | ]].
  intros Hb. rewrite !locals_by_branch, Eb.
  destruct Hb as [Hb | Hb]; rewrite Hb.
  - rewrite E. reflexivity.
  - reflexivity.
Qed.

Lemma phase_is_periodic_witness :
  cycle (createPortalPulseFX 16 10) <> 0 /\
  uRate (createPortalPulseFX 16 10) <> 0 /\
  ph (update (createPortalPulseFX 16 10)
        (2 + IZR 3 * (cycle (createPortalPulseFX 16 10)
                      / uRate (createPortalPulseFX 16 10))))
  = ph (update (createPortalPulseFX 16 10) 2).
Proof.
  assert (H1 : cycle (createPortalPulseFX 16 10) <> 0)
    by (unfold cycle; simpl; lra).
  assert (H2 : uRate (createPortalPulseFX 16 10) <> 0) by (simpl; lra).
  split; [exact H1 | split; [exact H2 | ]].
  exact (proj1 (phase_is_periodic (createPortalPulseFX 16 10) (particle 0)
                  2 3 H1 H2)).
Defined.

(* ================================================================= *)
(** ** The sprite of a dot *)

Lemma dots_alpha_form (pc : vec2) (vAlpha' vHueMix' : R) :
  ca (Dots.main pc vAlpha' vHueMix')
  = (0.90 * smoothstep 0.22 0.0 (vlength (vshift pc (- 0.5)))
     + 0.35 * smoothstep 0.55 0.14 (vlength (vshift pc (- 0.5))))
    * vAlpha' * smoothstep 0.66 0.0 (vlength (vshift pc (- 0.5))).
Proof. reflexivity. Qed.

Lemma vlength_centre : vlength (vshift (V2 0.5 0.5) (- 0.5)) = 0.
Proof.
  unfold vlength. vsimpl.
  replace ((0.5 + - 0.5) * (0.5 + - 0.5) + (0.5 + - 0.5) * (0.5 + - 0.5))
    with 0 by lra.
  apply sqrt_0.
Qed.

Lemma particle_hue_range (i : nat) : 0 <= aHueMix (particle i) < 1.
Proof. unfold particle. cbv zeta. cbn [aHueMix]. apply hash11_range. Qed.

(** X14.  The fragment shader of the dots draws every pool particle as
    a round sprite: a fragment's alpha lies between 0 and 1.25 times the
    particle's opacity, is that maximum at the sprite's centre, and is 0
    from distance 0.55 of the centre outwards (where core and halo have
    both died out); its colour is a blend of the teal and the blue,
    channel by channel between the two. *)
Theorem sprite_alpha_and_colour (u : Uniforms) (i : nat) (pc : vec2) :
  let v := main u (particle i) in
  let f := Dots.fragment v pc in
  let d := vlength (vshift pc (- 0.5)) in
  0 <= ca f <= 1.25 * vAlpha v /\
  ca (Dots.fragment v (V2 0.5 0.5)) = 1.25 * vAlpha v /\
  (0.55 <= d -> ca f = 0) /\
  (0.05 <= cr (rgb f) <= 0.20 /\ 0.55 <= cg (rgb f) <= 0.95 /\
   0.85 <= cb (rgb f) <= 1.00).
Proof.
  intros v f d.
  assert (Ha : 0 <= vAlpha v <= 1) by apply (locals_bounds u (particle i)).
  split; [ | split; [ | split]].
  - unfold f, Dots.fragment. rewrite dots_alpha_form. fold d.
    pose proof (smoothstep_range 0.22 0.0 d) as Hc.
    pose proof (smoothstep_range 0.55 0.14 d) as Hh.
    pose proof (smoothstep_range 0.66 0.0 d) as Ho.
    set (c := smoothstep 0.22 0.0 d) in *.
    set (h := smoothstep 0.55 0.14 d) in *.
    set (o := smoothstep 0.66 0.0 d) in *.
    set (m := 0.90 * c + 0.35 * h).
    assert (Hm : 0 <= m <= 1.25) by (unfold m; lra).
    assert (0 <= m * vAlpha v) by (apply Rmult_le_pos; lra).
    assert (0 <= (1.25 - m) * vAlpha v) by (apply Rmult_le_pos; lra).
    assert (0 <= m * vAlpha v * o) by (apply Rmult_le_pos; lra).
    assert (0 <= m * vAlpha v * (1 - o)) by (apply Rmult_le_pos; lra).
    split; lra.
  - unfold Dots.fragment. rewrite dots_alpha_form, vlength_centre.
    rewrite (smoothstep_one 0.22 0.0 0), (smoothstep_one 0.55 0.14 0),
      (smoothstep_one 0.66 0.0 0) by lra.
    lra.
  - intros Hd. unfold f, Dots.fragment. rewrite dots_alpha_form. fold d.
    rewrite (smoothstep_zero 0.22 0.0 d), (smoothstep_zero 0.55 0.14 d)
      by lra.
    lra.
  - unfold f, Dots.fragment, Dots.main. cbv zeta. cbn [rgb cr cg cb v3mix].
    change (vHueMix v) with (aHueMix (particle i)).
    pose proof (particle_hue_range i) as Hh.
    unfold mix. lra.
Qed.

(** X15.  A particle in HOLD is invisible: its point size is 0 and
    every fragment of its sprite has alpha 0. *)
Theorem hold_is_invisible (u : Uniforms) (a : Attributes) (pc : vec2) :
  branch u = HOLD ->
  gl_PointSize (main u a) = 0 /\ ca (Dots.fragment (main u a) pc) = 0.
Proof.
  intros Hb.
  assert (El : locals u a = hold u) by (rewrite locals_by_branch, Hb; reflexivity).
  split.
  - unfold main, finish. cbn [gl_PointSize]. rewrite El. simpl. lra.
  - unfold Dots.fragment. rewrite dots_alpha_form.
    unfold main, finish. cbn [vAlpha]. rewrite El. simpl. lra.
Qed.

Lemma hold_is_invisible_witness :
  branch (update (createPortalPulseFX 16 10) 6.2) = HOLD /\
  gl_PointSize (main (update (createPortalPulseFX 16 10) 6.2) (particle 0)) = 0.
Proof.
  assert (Hb : branch (update (createPortalPulseFX 16 10) 6.2) = HOLD).
  { apply (locals_hold _ (particle 0)); try (simpl; lra).
    rewrite reachable_ph by (try apply reach_create; lra).
    unfold suckEnd. simpl. lra. }
  split; [exact Hb | ].
  exact (proj1 (hold_is_invisible _ (particle 0) (V2 0.5 0.5) Hb)).
Defined.

(* ================================================================= *)
(** ** The background *)

Lemma bg_hash_range (q : vec2) : 0 <= Background.hash q < 1.
Proof. apply fract_range. Qed.

Lemma floor_idem (x : R) : floor (floor x) = floor x.
Proof. unfold floor at 2 3. apply floor_unique. lra. Qed.

Lemma fract_of_floor (x : R) : fract (floor x) = 0.
Proof. unfold fract. rewrite floor_idem. ring. Qed.

Lemma noise_as_mean (a b c d wx wy : R) :
  mix a b wx + (c - a) * wy * (1.0 - wx) + (d - b) * wx * wy
  = a * ((1 - wx) * (1 - wy)) + b * (wx * (1 - wy))
    + c * ((1 - wx) * wy) + d * (wx * wy).
Proof.
  unfold mix. replace 1.0 with 1 by lra. ring.
Qed.

Lemma noise_range (q : vec2) : 0 <= Background.noise q <= 1.
Proof.
  unfold Background.noise. cbv zeta. cbn [vx vy].
  rewrite noise_as_mean.
  pose proof (smooth01_range _ (conj (proj1 (fract_range (vx q)))
                (Rlt_le _ _ (proj2 (fract_range (vx q)))))) as Hx.
  pose proof (smooth01_range _ (conj (proj1 (fract_range (vy q)))
                (Rlt_le _ _ (proj2 (fract_range (vy q)))))) as Hy.
  unfold smooth01 in Hx, Hy.
  unfold vfract. cbn [vx vy].
  replace 3.0 with 3 by lra. replace 2.0 with 2 by lra.
  set (wx := fract (vx q) * fract (vx q) * (3 - 2 * fract (vx q))) in *.
  set (wy := fract (vy q) * fract (vy q) * (3 - 2 * fract (vy q))) in *.
  pose proof (bg_hash_range (vfloor q)).
  pose proof (bg_hash_range (vfloor q + V2 1.0 0.0)%V).
  pose proof (bg_hash_range (vfloor q + V2 0.0 1.0)%V).
  pose proof (bg_hash_range (vfloor q + V2 1.0 1.0)%V).
  apply weighted_mean_bounds; try lra;
    try (apply Rmult_le_pos; lra).
Qed.

(** X16.  The value noise of the background lies in [[0, 1]]: it is a
    bilinear blend of the four hashes at the corners of the lattice cell;
    on a lattice point it is the hash of that point. *)
Theorem noise_in_unit_interval (q : vec2) :
  0 <= Background.noise q <= 1 /\
  Background.noise (vfloor q) = Background.hash (vfloor q).
Proof.
  split; [apply noise_range | ].
  unfold Background.noise. cbv zeta.
  unfold vfract, vfloor. cbn [vx vy].
  rewrite !fract_of_floor, !floor_idem.
  replace (0 * 0 * (3.0 - 2.0 * 0)) with 0 by lra.
  unfold mix. lra.
Qed.

Lemma exp_le (x y : R) : x <= y -> exp x <= exp y.
Proof.
  intros [H | ->]; [left; apply exp_increasing; exact H | apply Rle_refl].
Qed.

Lemma falloff_range (d r k : R) :
  r <> 0 -> 0 < k -> 0 < exp (- d * d / (r * r * k)) <= 1.
Proof.
  intros Hr Hk. split; [apply exp_pos | ].
  rewrite <- exp_0. apply exp_le.
  assert (Hrr : 0 < r * r * k).
  { apply Rmult_lt_0_compat; [ | exact Hk].
    destruct (Rtotal_order r 0) as [H | [H | H]]; [ | lra | ]; nra. }
  assert (0 <= d * d) by apply Rle_0_sqr.
  assert (0 < / (r * r * k)) by (apply Rinv_0_lt_compat; exact Hrr).
  unfold Rdiv. assert (0 <= d * d * / (r * r * k)) by (apply Rmult_le_pos; lra).
  lra.
Qed.

Lemma falloff_mono (d1 d2 r k : R) :
  r <> 0 -> 0 < k -> 0 <= d1 <= d2 ->
  exp (- d2 * d2 / (r * r * k)) <= exp (- d1 * d1 / (r * r * k)).
Proof.
  intros Hr Hk [H0 H12]. apply exp_le.
  assert (Hrr : 0 < r * r * k).
  { apply Rmult_lt_0_compat; [ | exact Hk].
    destruct (Rtotal_order r 0) as [H | [H | H]]; [ | lra | ]; nra. }
  assert (Hi : 0 < / (r * r * k)) by (apply Rinv_0_lt_compat; exact Hrr).
  assert (d1 * d1 <= d2 * d2) by nra.
  unfold Rdiv.
  assert (d1 * d1 * / (r * r * k) <= d2 * d2 * / (r * r * k))
    by (apply Rmult_le_compat_r; lra).
  lra.
Qed.

Lemma glow_range (q c : vec2) (r : R) :
  r <> 0 -> 0 < Background.glow q c r <= 1.10.
Proof.
  intros Hr. unfold Background.glow. cbv zeta.
  pose proof (falloff_range (vlength (q - c)%V) r 0.35 Hr ltac:(lra)).
  pose proof (falloff_range (vlength (q - c)%V) r 1.25 Hr ltac:(lra)).
  lra.
Qed.

(** X17.  The glow of a portal of non-zero radius is positive, at most
    1.10, exactly 1.10 at the portal's centre, and never larger at a
    point farther from the centre. *)
Theorem glow_peaks_at_centre (q q' c : vec2) (r : R) :
  r <> 0 ->
  0 < Background.glow q c r <= 1.10 /\
  Background.glow c c r = 1.10 /\
  (vlength (q - c)%V <= vlength (q' - c)%V ->
   Background.glow q' c r <= Background.glow q c r).
Proof.
  intros Hr. split; [apply glow_range; exact Hr | split].
  - unfold Background.glow. cbv zeta.
    assert (E : vlength (c - c)%V = 0).
    { unfold vlength. vsimpl.
      replace ((vx c - vx c) * (vx c - vx c) + (vy c - vy c) * (vy c - vy c))
        with 0 by ring.
      apply sqrt_0. }
    rewrite E.
    replace (- 0 * 0 / (r * r * 0.35)) with 0 by (unfold Rdiv; ring).
    replace (- 0 * 0 / (r * r * 1.25)) with 0 by (unfold Rdiv; ring).
    rewrite exp_0. lra.
  - intros Hd. unfold Background.glow. cbv zeta.
    pose proof (vlength_nonneg (q - c)%V) as H0.
    pose proof (falloff_mono _ _ r 0.35 Hr ltac:(lra) (conj H0 Hd)).
    pose proof (falloff_mono _ _ r 1.25 Hr ltac:(lra) (conj H0 Hd)).
    lra.
Qed.

Lemma glow_peaks_at_centre_witness :
  2.2 <> 0 /\ Background.glow (V2 1 0) (V2 1 0) 2.2 = 1.10.
Proof.
  assert (H : 2.2 <> 0) by lra.
  split; [exact H | ].
  exact (proj1 (proj2 (glow_peaks_at_centre (V2 0 0) (V2 0 0) (V2 1 0) 2.2 H))).
Defined.

Lemma clamp_unit_of_positive (x : R) : 0 <= x -> clamp x 0.0 1.0 = Rmin x 1.
Proof.
  intros H. unfold clamp, Rmin, Rmax.
  repeat destruct (Rle_dec _ _); lra.
Qed.

Lemma glow_at_centre (c : vec2) (r : R) : Background.glow c c r = 1.10.
Proof.
  unfold Background.glow. cbv zeta.
  assert (E : vlength (c - c)%V = 0).
  { unfold vlength. vsimpl.
    replace ((vx c - vx c) * (vx c - vx c) + (vy c - vy c) * (vy c - vy c))
      with 0 by ring.
    apply sqrt_0. }
  rewrite E.
  replace (- 0 * 0 / (r * r * 0.35)) with 0 by (unfold Rdiv; ring).
  replace (- 0 * 0 / (r * r * 1.25)) with 0 by (unfold Rdiv; ring).
  rewrite exp_0. lra.
Qed.

(** The clamp does cut: on the left anchor of a 16 x 10 view, when the
    left pulse is at its top, the green channel is above 1 before the
    clamp. *)
Lemma background_saturates :
  1 < cg (Background.colour
            (update (createPortalPulseFX 16 10) (PI / 2 / 1.15))
            (V2 0.12 0.5)).
Proof.
  assert (HR : uPortalR (createPortalPulseFX 16 10) <> 0).
  { simpl. unfold Rmin. destruct (Rle_dec 10 16); lra. }
  unfold Background.colour. cbv zeta. cbn [cg v3add v3scale v3shift].
  usimpl. cbn [createPortalPulseFX uRes uLeft uRight uPortalR].
  replace (vmul (vshift (V2 0.12 0.5) (- 0.5)) (V2 16 10))
    with (V2 (- 16 * 0.38) 0)
    by (unfold vmul, vshift; cbn [vx vy]; apply vec2_eq; lra).
  rewrite glow_at_centre.
  replace (PI / 2 / 1.15 * 1.15) with (PI / 2) by lra.
  rewrite sin_PI2.
  match goal with
  | |- context [Background.noise ?x] =>
      pose proof (noise_range x) as Hn;
      set (n := Background.noise x) in *
  end.
  match goal with
  | |- context [smoothstep 0.95 0.25 ?x] =>
      pose proof (smoothstep_range 0.95 0.25 x) as Hv;
      set (vign := smoothstep 0.95 0.25 x) in *
  end.
  match goal with
  | |- context [Background.glow ?x ?c ?r] =>
      pose proof (glow_range x c r HR) as Hg;
      set (g := Background.glow x c r) in *
  end.
  match goal with
  | |- context [sin ?x] =>
      pose proof (SIN_bound x) as Hs; set (sR := sin x) in *
  end.
  assert (0 <= (0.03 + 0.02 * n) * (0.55 + 0.45 * vign))
    by (apply Rmult_le_pos; lra).
  assert (0 <= 0.55 * g * (0.85 + 0.15 * sR))
    by (apply Rmult_le_pos; [ | lra]; lra).
  lra.
Qed.

(** X18.  With a non-zero portal radius the background colour is
    positive in every channel before the clamp (at most 0.35, 1.72 and
    2.11 in red, green and blue), so the written colour is that colour
    cut off at 1, channel by channel, with alpha 1. *)
Theorem background_colour_bounds (u : Uniforms) (vUv : vec2) :
  uPortalR u <> 0 ->
  let col := Background.colour u vUv in
  let out := Background.main u vUv in
  (0 < cr col <= 0.35 /\ 0 < cg col <= 1.72 /\ 0 < cb col <= 2.11) /\
  (cr (rgb out) = Rmin (cr col) 1 /\ cg (rgb out) = Rmin (cg col) 1 /\
   cb (rgb out) = Rmin (cb col) 1) /\
  ca out = 1.
Proof.
  intros Hr col out.
  assert (Hcol : 0 < cr col <= 0.35 /\ 0 < cg col <= 1.72 /\ 0 < cb col <= 2.11).
  { unfold col, Background.colour. cbv zeta.
    cbn [cr cg cb v3add v3scale v3shift].
    match goal with
    | |- context [Background.noise ?x] =>
        pose proof (noise_range x) as Hn;
        set (n := Background.noise x) in *
    end.
    match goal with
    | |- context [smoothstep 0.95 0.25 ?x] =>
        pose proof (smoothstep_range 0.95 0.25 x) as Hv;
        set (vign := smoothstep 0.95 0.25 x) in *
    end.
    match goal with
    | |- context [Background.glow ?x (uLeft u) _] =>
        pose proof (glow_range x (uLeft u) _ Hr) as HgL;
        pose proof (glow_range x (uRight u) _ Hr) as HgR;
        set (gL := Background.glow x (uLeft u) (uPortalR u)) in *;
        set (gR := Background.glow x (uRight u) (uPortalR u)) in *
    end.
    pose proof (SIN_bound (uTime u * 1.15)) as HsL.
    pose proof (SIN_bound (uTime u * 1.05 + 1.2)) as HsR.
    set (pL := 0.85 + 0.15 * sin (uTime u * 1.15)).
    set (pR := 0.85 + 0.15 * sin (uTime u * 1.05 + 1.2)).
    assert (HpL : 0.70 <= pL <= 1) by (unfold pL; lra).
    assert (HpR : 0.70 <= pR <= 1) by (unfold pR; lra).
    set (s := 0.55 + 0.45 * vign).
    assert (Hs : 0.55 <= s <= 1) by (unfold s; lra).
    assert (HL : 0 < gL * pL <= 1.10) by nra.
    assert (HR : 0 < gR * pR <= 1.10) by nra.
    assert (B1 : 0 < (0.01 + 0.02 * n) * s <= 0.03) by nra.
    assert (B2 : 0 < (0.03 + 0.02 * n) * s <= 0.05) by nra.
    assert (B3 : 0 < (0.05 + 0.02 * n) * s <= 0.07) by nra.
    set (L := gL * pL) in *. set (Rr := gR * pR) in *.
    replace (0.05 * gL * pL) with (0.05 * L) by (unfold L; ring).
    replace (0.95 * gL * pL) with (0.95 * L) by (unfold L; ring).
    replace (0.85 * gL * pL) with (0.85 * L) by (unfold L; ring).
    replace (0.20 * gR * pR) with (0.20 * Rr) by (unfold Rr; ring).
    replace (0.55 * gR * pR) with (0.55 * Rr) by (unfold Rr; ring).
    replace (1.00 * gR * pR) with (1.00 * Rr) by (unfold Rr; ring).
    repeat split; lra. }
  split; [exact Hcol | ].
  split; [ | unfold out, Background.main; cbn [ca]; lra].
  unfold out, Background.main. cbn [rgb cr cg cb v3clamp]. fold col.
  repeat split; apply clamp_unit_of_positive; lra.
Qed.

Lemma background_colour_bounds_witness :
  uPortalR (createPortalPulseFX 16 10) <> 0 /\
  ca (Background.main (createPortalPulseFX 16 10) (V2 0.5 0.5)) = 1.
Proof.
  assert (H : uPortalR (createPortalPulseFX 16 10) <> 0).
  { simpl. unfold Rmin. destruct (Rle_dec 10 16); lra. }
  split; [exact H | ].
  exact (proj2 (proj2 (background_colour_bounds (createPortalPulseFX 16 10)
                         (V2 0.5 0.5) H))).
Defined.

(* ================================================================= *)
(** ** The resize handler of the page *)

Lemma floor_of_int (k : Z) : floor (IZR k) = IZR k.
Proof. apply floor_unique. lra. Qed.

Lemma page_fx_reachable (pg : Host.Page) (d : Host.Display) :
  reachable (Host.fx pg) -> reachable (Host.fx (Host.onResize pg d)).
Proof.
  intros H. unfold Host.onResize, Host.resizeToDisplaySize. cbv zeta.
  cbn [Host.fx]. exact (reach_call _ (CallSetView _ _) H).
Qed.

Lemma load_fx_reachable (r0 : R) (s0 : vec2) (d : Host.Display) :
  reachable (Host.fx (Host.load r0 s0 d)).
Proof.
  unfold Host.load. cbv zeta. apply page_fx_reachable. cbn [Host.fx].
  apply reach_create.
Qed.

(** X19.  After [resizeToDisplaySize] with a drawing size of positive
    width and height, the camera frustum is centred, 10 units high and as
    wide as the drawing size's aspect asks, so the picture is not
    stretched; both portal anchors lie inside it, the left one left of
    the centre and the right one right of it. *)
Theorem resize_fits_the_view (pg : Host.Page) (d : Host.Display) :
  let width := floor (Host.js_or (Host.clientWidth d) (Host.innerWidth d)) in
  let height := floor (Host.js_or (Host.clientHeight d) (Host.innerHeight d)) in
  0 < width -> 0 < height ->
  let pg' := Host.resizeToDisplaySize pg d in
  let cam := Host.camera pg' in
  Host.drawingSize pg' = V2 width height /\
  Host.viewW pg' = 10 * width / height /\
  (Host.left cam = - Host.right cam /\ Host.bottom cam = - Host.top cam /\
   Host.top cam = 5) /\
  (Host.right cam - Host.left cam) * height
  = (Host.top cam - Host.bottom cam) * width /\
  (Host.left cam < vx (uLeft (Host.fx pg')) < 0 /\
   0 < vx (uRight (Host.fx pg')) < Host.right cam /\
   vy (uLeft (Host.fx pg')) = 0 /\ vy (uRight (Host.fx pg')) = 0).
Proof.
  intros width height Hw Hh pg' cam.
  assert (HW : 0 < 10 * (width / height)).
  { apply Rmult_lt_0_compat; [lra | ].
    apply Rdiv_lt_0_compat; assumption. }
  unfold cam, pg', Host.resizeToDisplaySize. cbv zeta.
  cbn [Host.drawingSize Host.viewW Host.camera Host.left Host.right Host.top
       Host.bottom Host.fx uLeft uRight setView vx vy].
  fold width height. unfold Host.viewH.
  set (W := 10 * (width / height)) in *.
  split; [reflexivity | ].
  split; [unfold W; field; lra | ].
  split; [repeat split; lra | ].
  split; [unfold W; field; lra | ].
  repeat split; lra.
Qed.

Lemma resize_fits_the_view_witness :
  let d := Host.mkDisplay 1280.5 720 0 0 2 in
  0 < floor (Host.js_or (Host.clientWidth d) (Host.innerWidth d)) /\
  0 < floor (Host.js_or (Host.clientHeight d) (Host.innerHeight d)) /\
  Host.drawingSize
    (Host.resizeToDisplaySize (Host.load 1 (V2 300 150) d) d)
  = V2 1280 720.
Proof.
  cbv zeta.
  assert (E1 : floor (Host.js_or 1280.5 0) = 1280).
  { unfold Host.js_or. destruct (Req_dec_T 1280.5 0); [lra | ].
    apply (floor_unique 1280.5 1280). lra. }
  assert (E2 : floor (Host.js_or 720 0) = 720).
  { unfold Host.js_or. destruct (Req_dec_T 720 0); [lra | ].
    apply (floor_of_int 720). }
  cbn [Host.clientWidth Host.clientHeight Host.innerWidth Host.innerHeight].
  assert (H1 : 0 < floor (Host.js_or 1280.5 0)) by (rewrite E1; lra).
  assert (H2 : 0 < floor (Host.js_or 720 0)) by (rewrite E2; lra).
  split; [exact H1 | split; [exact H2 | ]].
  pose proof (proj1 (resize_fits_the_view
                  (Host.load 1 (V2 300 150) (Host.mkDisplay 1280.5 720 0 0 2))
                  (Host.mkDisplay 1280.5 720 0 0 2) H1 H2)) as W.
  cbn [Host.clientWidth Host.clientHeight Host.innerWidth Host.innerHeight]
    in W.
  rewrite E1, E2 in W. exact W.
Defined.

(** X20.  The page always resizes the effect to a view 10 units high, so
    after any [resizeToDisplaySize] with a drawing size of positive width
    and height the band width is exactly 3, the portal radius is
    [0.22 * min(10, viewW)], at most 2.2 and exactly 2.2 in landscape,
    the burst radius is [1.8] times the aspect clamped into
    [[3.2, 4.4]], and the renderer's pixel ratio is at most 2; the
    effect's uniform block is again a reachable one. *)
Theorem resize_fixes_the_feel (pg : Host.Page) (d : Host.Display) :
  let width := floor (Host.js_or (Host.clientWidth d) (Host.innerWidth d)) in
  let height := floor (Host.js_or (Host.clientHeight d) (Host.innerHeight d)) in
  0 < width -> 0 < height -> reachable (Host.fx pg) ->
  let pg' := Host.resizeToDisplaySize pg d in
  let u' := Host.fx pg' in
  reachable u' /\
  uBand u' = 3 /\
  uPortalR u' = 0.22 * Rmin 10 (Host.viewW pg') /\
  0 < uPortalR u' <= 2.2 /\
  (height <= width -> uPortalR u' = 2.2) /\
  uBurstRadius u' = Rmin 4.4 (Rmax 3.2 (1.8 * (width / height))) /\
  Host.pixelRatio pg' <= 2.
Proof.
  intros width height Hw Hh Hr pg' u'.
  assert (Ha : 0 < width / height) by (apply Rdiv_lt_0_compat; assumption).
  split; [exact (page_fx_reachable pg d Hr) | ].
  unfold u', pg', Host.resizeToDisplaySize. cbv zeta.
  cbn [Host.fx Host.viewW Host.pixelRatio uBand uPortalR uBurstRadius setView].
  fold width height. unfold Host.viewH.
  set (W := 10 * (width / height)) in *.
  assert (HW : 0 < W) by (unfold W; lra).
  split.
  { rewrite (Rmin_right 3.6) by lra. rewrite Rmax_right by lra. lra. }
  split; [lra | ].
  split.
  { unfold Rmin. destruct (Rle_dec 10 W); lra. }
  split.
  { intros Hle.
    assert (1 <= width / height).
    { apply (Rmult_le_reg_r height); [exact Hh | ].
      unfold Rdiv. rewrite Rmult_assoc, Rinv_l by lra. lra. }
    rewrite Rmin_left by (unfold W; lra). lra. }
  split.
  { replace (W * 0.18) with (1.8 * (width / height)) by (unfold W; lra).
    reflexivity. }
  apply Rmin_r.
Qed.

Lemma resize_fixes_the_feel_witness :
  let d := Host.mkDisplay 1280.5 720 0 0 2 in
  0 < floor (Host.js_or (Host.clientWidth d) (Host.innerWidth d)) /\
  0 < floor (Host.js_or (Host.clientHeight d) (Host.innerHeight d)) /\
  reachable (Host.fx (Host.load 1 (V2 300 150) d)) /\
  uBand (Host.fx (Host.resizeToDisplaySize (Host.load 1 (V2 300 150) d) d)) = 3.
Proof.
  cbv zeta.
  assert (E1 : floor (Host.js_or 1280.5 0) = 1280).
  { unfold Host.js_or. destruct (Req_dec_T 1280.5 0); [lra | ].
    apply (floor_unique 1280.5 1280). lra. }
  assert (E2 : floor (Host.js_or 720 0) = 720).
  { unfold Host.js_or. destruct (Req_dec_T 720 0); [lra | ].
    apply (floor_of_int 720). }
  cbn [Host.clientWidth Host.clientHeight Host.innerWidth Host.innerHeight].
  assert (H1 : 0 < floor (Host.js_or 1280.5 0)) by (rewrite E1; lra).
  assert (H2 : 0 < floor (Host.js_or 720 0)) by (rewrite E2; lra).
  pose proof (load_fx_reachable 1 (V2 300 150)
                (Host.mkDisplay 1280.5 720 0 0 2)) as H3.
  split; [exact H1 | split; [exact H2 | split; [exact H3 | ]]].
  exact (proj1 (proj2 (resize_fixes_the_feel
                  (Host.load 1 (V2 300 150) (Host.mkDisplay 1280.5 720 0 0 2))
                  (Host.mkDisplay 1280.5 720 0 0 2) H1 H2 H3))).
Defined.

(* ================================================================= *)
(** ** The reach of the burst, the size of the spiral, the frames *)

Lemma easeOutCubic_range (t : R) : 0 <= t <= 1 -> 0 <= easeOutCubic t <= 1.
Proof.
  intros Ht.
  pose proof (easeOutCubic_mono 0 t ltac:(lra) ltac:(lra)) as H0.
  pose proof (easeOutCubic_mono t 1 ltac:(lra) ltac:(lra)) as H1.
  rewrite easeOutCubic_0 in H0. rewrite easeOutCubic_1 in H1. lra.
Qed.

(** X21.  During BURST a particle is opaque and full-sized, and each of
    its coordinates stays within [uBurstRadius * aEnergy + 0.78] of its
    spawn point: the radial push is at most the burst radius times the
    energy, the scatter cloud at most 0.78. *)
Theorem burst_reach_bounded (u : Uniforms) (a : Attributes) (q : R) :
  0 <= uBurstRadius u -> 0 <= aEnergy a ->
  let l := burst u a q in
  Rabs (vx (p l) - vx (packed u a)) <= uBurstRadius u * aEnergy a + 0.78 /\
  Rabs (vy (p l) - vy (packed u a)) <= uBurstRadius u * aEnergy a + 0.78 /\
  alpha l = 1 /\ sizeMul l = 1.
Proof.
  intros HR HE l. unfold l, burst. cbv zeta. cbn [p alpha sizeMul].
  pose proof (easeOutCubic_range _ (clamp01_range q)) as He.
  set (e := easeOutCubic (clamp01 q)) in *.
  assert (HRE : 0 <= uBurstRadius u * aEnergy a)
    by (apply Rmult_le_pos; assumption).
  assert (Hr : 0 <= uBurstRadius u * aEnergy a * e
               <= uBurstRadius u * aEnergy a).
  { assert (0 <= uBurstRadius u * aEnergy a * e)
      by (apply Rmult_le_pos; lra).
    assert (0 <= uBurstRadius u * aEnergy a * (1 - e))
      by (apply Rmult_le_pos; lra).
    lra. }
  destruct (scatter_range a) as [Sx Sy].
  set (k := 0.10 + 0.55 * e).
  assert (Hk : 0 <= k <= 0.65) by (unfold k; lra).
  assert (Cx : -0.78 <= vx (scatter a) * k <= 0.78).
  { assert (0 <= (1.2 - vx (scatter a)) * k) by (apply Rmult_le_pos; lra).
    assert (0 <= (1.2 + vx (scatter a)) * k) by (apply Rmult_le_pos; lra).
    lra. }
  assert (Cy : -0.78 <= vy (scatter a) * k <= 0.78).
  { assert (0 <= (1.2 - vy (scatter a)) * k) by (apply Rmult_le_pos; lra).
    assert (0 <= (1.2 + vy (scatter a)) * k) by (apply Rmult_le_pos; lra).
    lra. }
  pose proof (unit_times_bound (cos (ang a)) _ _ (COS_bound (ang a)) Hr) as Dx.
  pose proof (unit_times_bound (sin (ang a)) _ _ (SIN_bound (ang a)) Hr) as Dy.
  unfold dir. vsimpl.
  split; [apply Rabs_le; lra | ].
  split; [apply Rabs_le; lra | ].
  split; lra.
Qed.

Lemma burst_reach_bounded_witness :
  0 <= uBurstRadius (createPortalPulseFX 16 10) /\
  0 <= aEnergy (particle 0) /\
  alpha (burst (createPortalPulseFX 16 10) (particle 0) 0.5) = 1.
Proof.
  assert (H1 : 0 <= uBurstRadius (createPortalPulseFX 16 10)) by (simpl; lra).
  assert (H2 : 0 <= aEnergy (particle 0)) by (rewrite particle_0; simpl; lra).
  split; [exact H1 | split; [exact H2 | ]].
  exact (proj1 (proj2 (proj2 (burst_reach_bounded (createPortalPulseFX 16 10)
                                (particle 0) 0.5 H1 H2)))).
Defined.

Lemma spiralAmt_range (tS local : R) : 0 <= spiralAmt tS local <= 0.22.
Proof.
  unfold spiralAmt. cbv zeta.
  pose proof (smoothstep_range 0.06 0.22 tS) as H1.
  pose proof (smoothstep_range 0.02 0.20 local) as H2.
  pose proof (smoothstep_range 0.60 1.0 local) as H3.
  set (s1 := smoothstep 0.06 0.22 tS) in *.
  set (s2 := smoothstep 0.02 0.20 local) in *.
  set (s3 := smoothstep 0.60 1.0 local) in *.
  assert (A : 0 <= s1 * s2 <= 1) by nra.
  assert (B : 0 <= s1 * s2 * (1.0 - s3) <= 1) by nra.
  replace (0.22 * s1 * s2 * (1.0 - s3)) with (0.22 * (s1 * s2 * (1.0 - s3)))
    by ring.
  lra.
Qed.

Lemma spiral_step_bounded (u : Uniforms) (a : Attributes) (q : vec2) (amt : R) :
  0 <= amt ->
  Rabs (vx (suck_spiral u a q amt) - vx q) <= amt /\
  Rabs (vy (suck_spiral u a q amt) - vy q) <= amt.
Proof.
  intros Ha. unfold suck_spiral. cbv zeta.
  set (tangent := normalize _).
  destruct (normalize_bounded
              (vshift (V2 (- vy (uRight u - q)%V) (vx (uRight u - q)%V)) 1e-4))
    as [Tx Ty].
  fold tangent in Tx, Ty.
  pose proof (hash_range (aSeed a * 777.7)) as Hh.
  set (spin := hash (aSeed a * 777.7) * 2.0 - 1.0).
  assert (Hs : Rabs spin <= 1) by (apply Rabs_le; unfold spin; lra).
  vsimpl.
  assert (Hb : forall c, Rabs c <= 1 -> Rabs (c * amt * spin) <= amt).
  { intros c Hc. rewrite !Rabs_mult, (Rabs_pos_eq amt) by exact Ha.
    pose proof (Rabs_pos c). pose proof (Rabs_pos spin).
    assert (Rabs c * amt <= 1 * amt) by (apply Rmult_le_compat_r; lra).
    assert (0 <= Rabs c * amt) by (apply Rmult_le_pos; lra).
    assert (Rabs c * amt * Rabs spin <= Rabs c * amt * 1)
      by (apply Rmult_le_compat_l; lra).
    lra. }
  split.
  - replace (vx q + vx tangent * amt * spin - vx q)
      with (vx tangent * amt * spin) by ring.
    apply Hb. exact Tx.
  - replace (vy q + vy tangent * amt * spin - vy q)
      with (vy tangent * amt * spin) by ring.
    apply Hb. exact Ty.
Qed.

(** X22.  The spiral of SUCK is a small perturbation: the position
    differs from the point on the blended curve by at most the spiral
    amount in each coordinate, which is at most 0.22, and is zero while
    the SUCK progress is at most 0.06 and once the particle's local
    progress is 1.  (The tangent is a normalised vector; where that
    vector is zero the bound rests on the total division of the
    model.) *)
Theorem spiral_is_micro (u : Uniforms) (a : Attributes) :
  branch u = SUCK ->
  let tS := suck_tS u in
  let local := suck_local a tS in
  let start := suck_start u a (tBoundary u) in
  let c := suck_curve u a (suck_capture u start tS) local in
  let amt := spiralAmt tS local in
  position (main u a) = suck_spiral u a c amt /\
  0 <= amt <= 0.22 /\
  Rabs (vx (position (main u a)) - vx c) <= amt /\
  Rabs (vy (position (main u a)) - vy c) <= amt /\
  (tS <= 0.06 \/ local = 1 -> position (main u a) = c).
Proof.
  intros Hb tS local start c amt.
  assert (E : position (main u a) = suck_spiral u a c amt).
  { unfold main, finish. cbn [position].
    rewrite (locals_in_suck u a Hb). unfold suck. cbv zeta. cbn [p].
    replace (uTime u - (uTime u - tBoundary u)) with (tBoundary u) by ring.
    reflexivity. }
  pose proof (spiralAmt_range tS local) as Hamt. fold amt in Hamt.
  destruct (spiral_step_bounded u a c amt (proj1 Hamt)) as [Hx Hy].
  split; [exact E | split; [exact Hamt | ]].
  rewrite E. split; [exact Hx | split; [exact Hy | ]].
  intros [Hs | Hl].
  - assert (E0 : amt = 0).
    { unfold amt, spiralAmt. cbv zeta.
      rewrite (smoothstep_zero 0.06 0.22 tS) by lra. lra. }
    rewrite E0. apply suck_spiral_null.
  - assert (E0 : amt = 0).
    { unfold amt. rewrite Hl. apply spiralAmt_absorbed. }
    rewrite E0. apply suck_spiral_null.
Qed.

Lemma spiral_is_micro_witness :
  branch (update (createPortalPulseFX 16 10) 3) = SUCK /\
  0 <= spiralAmt (suck_tS (update (createPortalPulseFX 16 10) 3))
         (suck_local (particle 0)
            (suck_tS (update (createPortalPulseFX 16 10) 3))) <= 0.22.
Proof.
  destruct (default_suck_branch 3 ltac:(lra)) as [Hb _].
  split; [exact Hb | ].
  exact (proj1 (proj2 (spiral_is_micro _ (particle 0) Hb))).
Defined.


(** X24.  Below the guard the boundary is not frozen: with a rate
    between 0 and [1e-3] the divisor is [1e-3], not the rate, so during
    SUCK [tBoundary] runs from [t0] at the fraction [1 - uRate / 1e-3] of
    the clock's speed, and the start position is sampled later than the
    DRIFT->SUCK boundary. *)
Theorem slow_rate_unfreezes_start (u : Uniforms) (t0 t : R) :
  timing_ok u -> 0 < uRate u < 1e-3 ->
  ph (update u t0) = driftEnd u ->
  0 < (t - t0) * uRate u < uSuckT u ->
  branch (update u t) = SUCK /\
  tBoundary (update u t) = t0 + (t - t0) * (1 - uRate u / 1e-3) /\
  t0 < tBoundary (update u t) < t.
Proof.
  intros (HB & HD & HS & HH & Hc) Hr Hph Hd.
  assert (E : ph (update u t) = driftEnd u + (t - t0) * uRate u).
  { rewrite <- Hph. apply ph_shift; [exact Hc | ].
    rewrite Hph. unfold driftEnd, cycle in *. lra. }
  assert (Hb : branch (update u t) = SUCK).
  { unfold branch. rewrite E.
    change (burstEnd (update u t)) with (burstEnd u).
    change (driftEnd (update u t)) with (driftEnd u).
    change (suckEnd (update u t)) with (suckEnd u).
    unfold burstEnd, driftEnd, suckEnd.
    destruct (Rlt_dec _ (uBurstT u)); [lra | ].
    destruct (Rlt_dec _ (uBurstT u + uDriftT u)); [lra | ].
    destruct (Rlt_dec _ (uBurstT u + uDriftT u + uSuckT u));
      [reflexivity | lra]. }
  assert (Et : tBoundary (update u t)
               = t0 + (t - t0) * (1 - uRate u / 1e-3)).
  { unfold tBoundary. rewrite E.
    change (driftEnd (update u t)) with (driftEnd u).
    cbn [uTime uRate update]. rewrite Rmax_left by lra. lra. }
  split; [exact Hb | split; [exact Et | ]].
  rewrite Et.
  assert (Hdt : 0 < t - t0) by nra.
  assert (Hf : 0 < 1 - uRate u / 1e-3 < 1) by lra.
  split; nra.
Qed.

Lemma slow_rate_unfreezes_start_witness :
  let u := with_timing (createPortalPulseFX 16 10) 0.75 1.10 4.20 0.45 5e-4 in
  timing_ok u /\ 0 < uRate u < 1e-3 /\
  ph (update u 3700) = driftEnd u /\
  0 < (4000 - 3700) * uRate u < uSuckT u /\
  3700 < tBoundary (update u 4000) < 4000.
Proof.
  cbv zeta.
  set (u := with_timing (createPortalPulseFX 16 10) 0.75 1.10 4.20 0.45 5e-4).
  assert (H1 : timing_ok u) by (unfold timing_ok, cycle; simpl; lra).
  assert (H2 : 0 < uRate u < 1e-3) by (simpl; lra).
  assert (H3 : ph (update u 3700) = driftEnd u).
  { unfold ph, T, cycle, driftEnd. simpl. rewrite fmod_small; lra. }
  assert (H4 : 0 < (4000 - 3700) * uRate u < uSuckT u) by (simpl; lra).
  split; [exact H1 | split; [exact H2 | split; [exact H3 | split; [exact H4 | ]]]].
  exact (proj2 (proj2 (slow_rate_unfreezes_start u 3700 4000 H1 H2 H3 H4))).
Defined.

(* ================================================================= *)
(** ** The normalisations of SUCK *)

Lemma particle_energy_range (i : nat) : 0.85 <= aEnergy (particle i) < 1.15.
Proof.
  unfold particle. cbv zeta. cbn [aEnergy].
  pose proof (hash11_range (INR i * 78.233)) as [H0 H1].
  destruct (mix_range 0.85 1.15 _ ltac:(lra) H0 H1); lra.
Qed.

Lemma vlength_pos (v : vec2) : vx v <> 0 \/ vy v <> 0 -> 0 < vlength v.
Proof.
  intros H. unfold vlength. apply sqrt_lt_R0.
  pose proof (Rle_0_sqr (vx v)) as Hx. pose proof (Rle_0_sqr (vy v)) as Hy.
  destruct H as [H | H]; apply Rsqr_pos_lt in H; unfold Rsqr in *; lra.
Qed.

Lemma suck_start_reach (u : Uniforms) (a : Attributes) (tB : R) :
  0 <= uPortalR u -> 0 <= uBurstRadius u -> 0 <= aEnergy a ->
  let reach := uPortalR u * 0.035 + uBurstRadius u * aEnergy a + 1.34 in
  - reach <= vx (suck_start u a tB) - vx (uLeft u) <= reach.
Proof.
  intros HP HR HE. unfold suck_start, drift_base, packed, rad0, dir. cbv zeta.
  match goal with
  | |- context [wobble ?q ?t] =>
      destruct (wobble_bounded q t) as [Wx _]; set (w := wobble q t) in *
  end.
  destruct (scatter_range a) as [Sx _].
  pose proof (hash_range (aSeed a * 37.3)) as [H0 H1].
  set (h := hash (aSeed a * 37.3)) in *.
  assert (Hh : 0 <= h ^ 6 <= 1).
  { split; [apply pow_le; exact H0 | ].
    rewrite <- (pow1 6). apply pow_incr. lra. }
  assert (Hrad : 0 <= h ^ 6 * (uPortalR u * 0.035) <= uPortalR u * 0.035).
  { assert (0 <= h ^ 6 * (uPortalR u * 0.035)) by (apply Rmult_le_pos; lra).
    assert (0 <= (1 - h ^ 6) * (uPortalR u * 0.035))
      by (apply Rmult_le_pos; lra).
    lra. }
  assert (Hr : 0 <= uBurstRadius u * aEnergy a <= uBurstRadius u * aEnergy a)
    by (split; [apply Rmult_le_pos; assumption | lra]).
  pose proof (unit_times_bound (cos (ang a)) _ _ (COS_bound (ang a)) Hrad) as D0.
  pose proof (unit_times_bound (cos (ang a)) _ _ (COS_bound (ang a)) Hr) as D1.
  vsimpl. lra.
Qed.

(** X25.  In a reachable state whose view is at least 8.6 wide and of
    non-negative height, the SUCK branch never normalises a zero vector
    for a pool particle: whatever the boundary time, and for progress
    values in [[0, 1]] (both are results of [clamp01]), the start position
    lies strictly left of the right anchor, so does the capture point,
    and the point on the blended curve is not right of it; hence [toR]
    and the vector the tangent is normalised from have positive
    length. *)
Theorem suck_never_normalises_zero (u : Uniforms) (i : nat) (tB tS local : R) :
  reachable u -> 8.6 <= vx (uRes u) -> 0 <= vy (uRes u) ->
  0 <= tS <= 1 -> 0 <= local <= 1 ->
  let a := particle i in
  let start := suck_start u a tB in
  let capture := suck_capture u start tS in
  let c := suck_curve u a capture local in
  let radial := (uRight u - c)%V in
  vx start < vx (uRight u) /\
  vx capture < vx (uRight u) /\
  vx c <= vx (uRight u) /\
  0 < vlength (uRight u - start)%V /\
  0 < vlength (vshift (V2 (- vy radial) (vx radial)) 1e-4).
Proof.
  intros Hr Hw Hh HtS Hl a start capture c radial.
  destruct (reachable_invariant u Hr) as (EL & ER & EP & _ & HB & EW & _).
  pose proof (particle_energy_range i) as HE. fold a in HE.
  assert (HP : 0 <= uPortalR u <= vx (uRes u) * 0.22).
  { rewrite EP. unfold Rmin. destruct (Rle_dec _ _); lra. }
  pose proof (suck_start_reach u a tB (proj1 HP) ltac:(lra) ltac:(lra)) as Hs.
  cbv zeta in Hs. fold start in Hs.
  assert (HBE : uBurstRadius u * aEnergy a <= 4.4 * 1.15).
  { apply Rmult_le_compat; lra. }
  assert (Hx : vx start < vx (uRight u)).
  { rewrite EL in Hs. rewrite ER. cbn [vx] in *. lra. }
  assert (Hcap : vx start <= vx capture < vx (uRight u)).
  { unfold capture. rewrite suck_capture_eq, EW. vsimpl.
    pose proof (smooth01_range tS HtS) as Hp.
    set (s := smooth01 tS) in *. set (d := vx (uRight u) - vx start) in *.
    assert (0 < d) by (unfold d; lra).
    assert (0 <= d * s) by (apply Rmult_le_pos; lra).
    assert (0 <= d * (1 - s)) by (apply Rmult_le_pos; lra).
    replace (vx (uRight u)) with (vx start + d) by (unfold d; ring).
    lra. }
  assert (Hc : vx capture <= vx c <= vx (uRight u)).
  { unfold c, suck_curve, bezier. cbv zeta.
    pose proof (smoothstep_range 0.0 0.08 local) as Hm.
    set (m := smoothstep 0.0 0.08 local) in *.
    assert (He : 0 <= easeInOutCubic local <= 1).
    { destruct (easeInOutCubic_range local Hl) as [A B].
      destruct (Rlt_dec local 0.5) as [L | L]; lra. }
    set (e := easeInOutCubic local) in *.
    destruct (bezier_weights e He) as (W1 & W2 & W3 & W4 & Ws).
    cbv zeta in W1, W2, W3, W4, Ws.
    vsimpl. unfold mix.
    pose proof (weighted_mean_bounds _ _ _ _
                  (vx capture) ((vx capture + vx (uRight u)) * 0.5 + 0.0)
                  ((vx capture + vx (uRight u)) * 0.5 + 0.0) (vx (uRight u))
                  (vx capture) (vx (uRight u))
                  W1 W2 W3 W4 Ws ltac:(lra) ltac:(lra) ltac:(lra) ltac:(lra))
      as Hbz.
    set (bz := _ + _ + _ + _) in Hbz.
    fold bz.
    assert (0 <= (bz - vx capture) * m) by (apply Rmult_le_pos; lra).
    assert (0 <= (vx (uRight u) - bz) * m) by (apply Rmult_le_pos; lra).
    assert (0 <= (vx (uRight u) - vx capture) * (1 - m))
      by (apply Rmult_le_pos; lra).
    lra. }
  split; [exact Hx | split; [lra | split; [lra | split]]].
  - apply vlength_pos. left. vsimpl. lra.
  - apply vlength_pos. right. unfold radial. vsimpl. lra.
Qed.

Lemma suck_never_normalises_zero_witness :
  reachable (createPortalPulseFX 16 10) /\
  8.6 <= vx (uRes (createPortalPulseFX 16 10)) /\
  0 <= vy (uRes (createPortalPulseFX 16 10)) /\
  0 < vlength (uRight (createPortalPulseFX 16 10)
               - suck_start (createPortalPulseFX 16 10) (particle 0) 1.85)%V.
Proof.
  assert (H1 : reachable (createPortalPulseFX 16 10)) by apply reach_create.
  assert (H2 : 8.6 <= vx (uRes (createPortalPulseFX 16 10))) by (simpl; lra).
  assert (H3 : 0 <= vy (uRes (createPortalPulseFX 16 10))) by (simpl; lra).
  split; [exact H1 | split; [exact H2 | split; [exact H3 | ]]].
  exact (proj1 (proj2 (proj2 (proj2
    (suck_never_normalises_zero _ 0 1.85 0.5 0.5 H1 H2 H3
       ltac:(lra) ltac:(lra)))))).
Defined.

(* ================================================================= *)
(** ** Shrinking and fading next to the portal *)

(** X26.  The anti-blob window of SUCK, in terms of the distance [d] of
    the particle from the right anchor: the size multiplier stays in
    [[0.20, 1]], is 1 from distance 0.85 and 0.20 up to distance 0.18;
    the opacity is the commit fade [1 - fade] alone from distance 0.70
    and [0.08] of it up to distance 0.08. *)
Theorem suck_near_portal_window (u : Uniforms) (a : Attributes) :
  branch u = SUCK ->
  let v := main u a in
  let d := vlength (position v - uRight u)%V in
  let fade := smoothstep 0.35 0.80 (suck_local a (suck_tS u)) in
  0.20 <= size_multiplier v <= 1 /\
  (0.85 <= d -> size_multiplier v = 1) /\
  (d <= 0.18 -> size_multiplier v = 0.20) /\
  (0.70 <= d -> vAlpha v = 1 - fade) /\
  (d <= 0.08 -> vAlpha v = 0.08 * (1 - fade)).
Proof.
  intros Hb v d fade.
  assert (E : size_multiplier v = mix 0.20 1.0 (smoothstep 0.18 0.85 d) /\
              vAlpha v = (1.0 - fade) * (1.0 - 0.92 * smoothstep 0.70 0.08 d)).
  { unfold d, v, main, finish. cbn [size_multiplier vAlpha position].
    rewrite (locals_in_suck u a Hb). unfold suck. cbv zeta.
    cbn [p alpha sizeMul]. split; reflexivity. }
  destruct E as [Es Ea].
  pose proof (smoothstep_range 0.18 0.85 d) as Hs.
  split; [rewrite Es; unfold mix; lra | ].
  split; [ | split; [ | split]]; intros Hd.
  - rewrite Es, (smoothstep_one 0.18 0.85 d) by lra. unfold mix. lra.
  - rewrite Es, (smoothstep_zero 0.18 0.85 d) by lra. unfold mix. lra.
  - rewrite Ea, (smoothstep_zero 0.70 0.08 d) by lra. lra.
  - rewrite Ea, (smoothstep_one 0.70 0.08 d) by lra. lra.
Qed.

Lemma suck_near_portal_window_witness :
  branch (update (createPortalPulseFX 16 10) 3) = SUCK /\
  0.20 <= size_multiplier (main (update (createPortalPulseFX 16 10) 3)
                             (particle 0)) <= 1.
Proof.
  destruct (default_suck_branch 3 ltac:(lra)) as [Hb _].
  split; [exact Hb | ].
  exact (proj1 (suck_near_portal_window _ (particle 0) Hb)).
Defined.
